(** * SPH3d: the uniform grid and the WCSPH solver of [src/sim/SPH3d.h]

    A shallow embedding of [pbs::sph3d::Grid] and [pbs::sph3d::SPH].

    Conventions of the embedding.
    - [float] is read in exact real arithmetic: every [float] value is an
      [R], [std::floor] followed by the conversion to [int] is [Int_part],
      [std::sqrt] is [sqrt], [M_PI] is [PI].  No rounding is modelled,
      except in [Grid32] and [SPH32], which repeat [Grid::init],
      [Grid::index] and [SPH::voxelizeBox] in binary32, where a rounding
      decides which cell or lattice point comes out.
    - [int] arithmetic is exact arithmetic on [Z] (signed overflow is
      undefined in the source); [size_t] and [uint32_t] values are
      numbers of [Z] reduced modulo [2^64] and [2^32] where the source
      converts or increments them.
    - [std::vector] is a list; an access out of range (undefined in the
      source) is a fault, [None] in the [option] monad.
    - a [for] loop over a known range is [forM] over that range; the
      [while] loop of [Grid::update] takes fuel.
    - [tbb::parallel_for] is read as the sequential loop of the
      [USE_TBB == 0] branch of [SPH::iterate]. *)

From Stdlib Require Import Reals Lra Lia ZArith.
From Stdlib Require Floats.SpecFloat.
From stdpp Require Import base option list numbers.

(** ** Machine integers *)

Definition wrap32 (z : Z) : Z := (z mod 2 ^ 32)%Z.
Definition wrap64 (z : Z) : Z := (z mod 2 ^ 64)%Z.

(** ** Loops in the fault monad *)

Fixpoint forM {X S : Type} (body : X → S → option S) (l : list X) (s : S)
  : option S :=
  match l with
  | [] => Some s
  | x :: l' => s' ← body x s; forM body l' s'
  end.

(** [v[i]] for an index held in a [size_t] or [uint32_t]. *)
Definition at_ {A : Type} (v : list A) (i : Z) : option A :=
  if (i <? 0)%Z then None else v !! Z.to_nat i.

(** [std::swap(v[i], v[j])]. *)
Definition swap_at {A : Type} (v : list A) (i j : nat) : option (list A) :=
  a ← v !! i; b ← v !! j; Some (<[j := a]> (<[i := b]> v)).

(** ** Scalars *)

Definition sqr (x : R) : R := (x * x)%R.
Definition cube (x : R) : R := (x * x * x)%R.

Definition Rltb (x y : R) : bool := if Rlt_dec x y then true else false.
Definition Reqb (x y : R) : bool := if Req_dec_T x y then true else false.

(** ** [core/Vector.h] and [core/Box.h] *)

Record Vector3f := mkVector3f { f_x : R; f_y : R; f_z : R }.
Record Vector3i := mkVector3i { i_x : Z; i_y : Z; i_z : Z }.

(** [Vector3f(s)]: all three components equal to [s]. *)
Definition splat (s : R) : Vector3f := mkVector3f s s s.

Definition vadd (a b : Vector3f) : Vector3f :=
  mkVector3f (f_x a + f_x b) (f_y a + f_y b) (f_z a + f_z b).
Definition vsub (a b : Vector3f) : Vector3f :=
  mkVector3f (f_x a - f_x b) (f_y a - f_y b) (f_z a - f_z b).
Definition vscale (k : R) (a : Vector3f) : Vector3f :=
  mkVector3f (k * f_x a) (k * f_y a) (k * f_z a).
Definition vopp (a : Vector3f) : Vector3f :=
  mkVector3f (- f_x a) (- f_y a) (- f_z a).
Definition dot (a b : Vector3f) : R :=
  (f_x a * f_x b + f_y a * f_y b + f_z a * f_z b)%R.
Definition squaredNorm (a : Vector3f) : R := dot a a.

Definition cwiseMax (a b : Vector3i) : Vector3i :=
  mkVector3i (Z.max (i_x a) (i_x b)) (Z.max (i_y a) (i_y b))
             (Z.max (i_z a) (i_z b)).
Definition cwiseMin (a b : Vector3i) : Vector3i :=
  mkVector3i (Z.min (i_x a) (i_x b)) (Z.min (i_y a) (i_y b))
             (Z.min (i_z a) (i_z b)).
Definition prod (a : Vector3i) : Z := (i_x a * i_y a * i_z a)%Z.

Record Box3f := mkBox3f { box_min : Vector3f; box_max : Vector3f }.
Definition extents (b : Box3f) : Vector3f := vsub (box_max b) (box_min b).

(** Modelled from the spec: [nextPowerOfTwo] of [core/Common.h] is not
    part of the sources at hand; section 4.1 of the specification reads it
    as the next power of two at or above its argument. *)
Definition nextPowerOfTwo (n : Z) : Z :=
  if (n <=? 1)%Z then 1%Z else (2 ^ Z.log2_up n)%Z.

(** ** [class Grid] *)

Module Grid.

Record t := mk {
  _bounds : Box3f;
  _cellSize : R;
  _invCellSize : R;
  _size : Vector3i;
  _cellOffset : list Z
}.

Definition set_cellOffset (v : list Z) (g : t) : t :=
  mk (_bounds g) (_cellSize g) (_invCellSize g) (_size g) v.

(** A default-constructed grid, before [init]. *)
Definition empty : t :=
  mk (mkBox3f (splat 0) (splat 0)) 0 0 (mkVector3i 0 0 0) [].

(** [v.resize(n)] *)
Definition resize (n : nat) (v : list Z) : list Z :=
  take n v ++ replicate (n - length v) 0%Z.

Definition init (g : t) (bounds : Box3f) (cellSize : R) : t :=
  let size :=
    mkVector3i
      (nextPowerOfTwo (Int_part (f_x (extents bounds) / cellSize) + 1))
      (nextPowerOfTwo (Int_part (f_y (extents bounds) / cellSize) + 1))
      (nextPowerOfTwo (Int_part (f_z (extents bounds) / cellSize) + 1)) in
  mk bounds cellSize (1 / cellSize) size
     (resize (Z.to_nat (prod size + 1)) (_cellOffset g)).

Definition index (g : t) (pos : Vector3f) : Vector3i :=
  mkVector3i
    (Int_part ((f_x pos - f_x (box_min (_bounds g))) * _invCellSize g))
    (Int_part ((f_y pos - f_y (box_min (_bounds g))) * _invCellSize g))
    (Int_part ((f_z pos - f_z (box_min (_bounds g))) * _invCellSize g)).

(** The linear cell number of a cell triple, as [indexLinear] and
    [lookup] both compute it (in [int], then converted to [size_t]). *)
Definition linear (g : t) (i : Vector3i) : Z :=
  wrap64 (i_z i * (i_x (_size g) * i_y (_size g))
          + i_y i * i_x (_size g) + i_x i)%Z.

Definition indexLinear (g : t) (pos : Vector3f) : Z :=
  linear g (index g pos).

Definition cellCount (g : t) : Z := prod (_size g).

(** *** [update] *)

(** First loop: the cell of every particle and the population of every
    cell.  State: [(indices, cellCount)]. *)
Definition countBody (g : t) (positions : list Vector3f) (i : nat)
    (st : list Z * list Z) : option (list Z * list Z) :=
  let '(indices, cnt) := st in
  p ← positions !! i;
  let index := wrap32 (indexLinear g p) in
  c ← at_ cnt index;
  Some (<[i := index]> indices,
        <[Z.to_nat index := wrap32 (c + 1)]> cnt).

Definition countPass (g : t) (positions : list Vector3f)
  : option (list Z * list Z) :=
  let count := length positions in
  forM (countBody g positions) (seq 0 count)
       (replicate count 0%Z, replicate (Z.to_nat (cellCount g)) 0%Z).

(** Second loop: running totals.  State: [(index, cellIndex, _cellOffset)]. *)
Definition offsetBody (cnt : list Z) (i : nat)
    (st : Z * list Z * list Z) : option (Z * list Z * list Z) :=
  let '(index, cellIndex, offs) := st in
  _ ← offs !! i;
  c ← cnt !! i;
  Some (wrap64 (index + c), <[i := wrap32 index]> cellIndex,
        <[i := index]> offs).

Definition offsetPass (g : t) (cnt : list Z) : option (list Z * list Z) :=
  let n := Z.to_nat (cellCount g) in
  '(index, cellIndex, offs) ←
    forM (offsetBody cnt) (seq 0 n) (0%Z, replicate n 0%Z, _cellOffset g);
  (* _cellOffset.back() = index *)
  match length offs with
  | O => None
  | S k => Some (cellIndex, <[k := index]> offs)
  end.

(** Third loop.  State of the sort: [(indices, cellIndex, a)], where [a]
    is whatever the caller's [swap] acts on. *)
Section Sort.
Context {A : Type} (swap : nat → nat → A → option A) (offs : list Z).

Definition unplaced (i : nat) (indices cellIndex : list Z)
  : option bool :=
  c ← indices !! i;
  ci ← at_ cellIndex c;
  if (ci <=? Z.of_nat i)%Z then Some true
  else off ← at_ offs c; Some (Z.of_nat i <? off)%Z.

Fixpoint sortWhile (fuel : nat) (i : nat) (st : list Z * list Z * A)
  : option (list Z * list Z * A) :=
  match fuel with
  | O => None
  | S fuel' =>
      let '(indices, cellIndex, a) := st in
      b ← unplaced i indices cellIndex;
      if b : bool then
        c ← indices !! i;
        j ← at_ cellIndex c;
        let cellIndex' := <[Z.to_nat c := wrap32 (j + 1)]> cellIndex in
        indices' ← swap_at indices i (Z.to_nat j);
        a' ← swap i (Z.to_nat j) a;
        sortWhile fuel' i (indices', cellIndex', a')
      else Some st
  end.

Definition sortPass (fuel : nat) (count : nat)
    (st : list Z * list Z * A) : option (list Z * list Z * A) :=
  forM (sortWhile fuel) (seq 0 count) st.
End Sort.

(** [update(positions, swap)]; [fuel] bounds each run of the inner
    [while].  [positions] is the caller's vector, which [swap] may
    reorder; it is read in the first loop only, before any [swap]. *)
Definition update {A : Type} (fuel : nat) (g : t)
    (positions : list Vector3f) (swap : nat → nat → A → option A) (a : A)
  : option (t * A) :=
  '(indices, cnt) ← countPass g positions;
  '(cellIndex, offs) ← offsetPass g cnt;
  '(_, _, a') ←
    sortPass swap offs fuel (length positions) (indices, cellIndex, a);
  Some (set_cellOffset offs g, a').

(** *** [lookup] *)

(** [lo, lo+1, ..., hi] *)
Definition range (lo hi : Z) : list Z := seqZ lo (hi - lo + 1).

Definition lookupMin (g : t) (pos : Vector3f) (radius : R) : Vector3i :=
  cwiseMax (index g (vsub pos (splat radius))) (mkVector3i 0 0 0).
Definition lookupMax (g : t) (pos : Vector3f) (radius : R) : Vector3i :=
  cwiseMin (index g (vadd pos (splat radius)))
           (mkVector3i (i_x (_size g) - 1) (i_y (_size g) - 1)
                       (i_z (_size g) - 1)).

(** The cells the three nested loops go through, in order. *)
Definition lookupCells (g : t) (pos : Vector3f) (radius : R)
  : list Vector3i :=
  let mn := lookupMin g pos radius in
  let mx := lookupMax g pos radius in
  z ← range (i_z mn) (i_z mx);
  y ← range (i_y mn) (i_y mx);
  x ← range (i_x mn) (i_x mx);
  [mkVector3i x y z].

(** The innermost loop over one cell's slice. *)
Definition visitCell {S : Type} (g : t) (func : Z → S → option S)
    (cell : Vector3i) (s : S) : option S :=
  let i := linear g cell in
  lo ← at_ (_cellOffset g) i;
  hi ← at_ (_cellOffset g) (wrap64 (i + 1));
  forM func (seqZ lo (hi - lo)) s.

Definition lookup {S : Type} (g : t) (pos : Vector3f) (radius : R)
    (func : Z → S → option S) (s : S) : option S :=
  forM (visitCell g func) (lookupCells g pos radius) s.

End Grid.

(** ** [class SPH] *)

(** Modelled from the spec: the default constructor of [Vector3f]
    ([core/Vector.h]) is not part of the sources at hand; the accumulators
    of the solver that are declared without an initial value start from
    zero, as the specification's "accumulated force (3D, reset every step)"
    has it. *)
Definition Vector3f_default : Vector3f := splat 0.

(** [v[i] = x] *)
Definition store {A : Type} (v : list A) (i : nat) (x : A) : option (list A) :=
  _ ← v !! i; Some (<[i := x]> v).

(** [v / s], component by component. *)
Definition vdiv (a : Vector3f) (s : R) : Vector3f :=
  mkVector3f (f_x a / s) (f_y a / s) (f_z a / s).

(** [std::fmod]: the remainder of the division truncated towards zero. *)
Definition Rtrunc (x : R) : Z :=
  if Rlt_dec x 0 then (- Int_part (- x))%Z else Int_part x.
Definition fmod (x y : R) : R := (x - y * IZR (Rtrunc (x / y)))%R.

Module SPH.

Record Settings := mkSettings {
  stiffness : R;
  viscosity : R;
  gravity : Vector3f
}.

Definition defaultSettings : Settings :=
  mkSettings 3 1 (mkVector3f 0 (-9.81) 0).

Module Kernel.
Record t := mk {
  h : R;
  h2 : R;
  halfh : R;
  poly6Constant : R;
  poly6GradConstant : R;
  poly6LaplaceConstant : R;
  spikyConstant : R;
  spikyGradConstant : R;
  spikyLaplaceConstant : R;
  viscosityLaplaceConstant : R;
  surfaceTensionConstant : R;
  surfaceTensionOffset : R
}.

(** [init(h_)]; [std::pow(h, 9.f)] and [std::pow(h, 6.f)] are the
    ninth and the sixth power. *)
Definition init (h_ : R) : t :=
  {| h := h_;
     h2 := sqr h_;
     halfh := 0.5 * h_;
     poly6Constant := 365 / (64 * PI * h_ ^ 9);
     poly6GradConstant := -945 / (32 * PI * h_ ^ 9);
     poly6LaplaceConstant := -945 / (32 * PI * h_ ^ 9);
     spikyConstant := 15 / (PI * h_ ^ 6);
     spikyGradConstant := -45 / (PI * h_ ^ 6);
     spikyLaplaceConstant := -90 / (PI * h_ ^ 6);
     viscosityLaplaceConstant := 45 / (PI * h_ ^ 6);
     surfaceTensionConstant := 32 / (PI * h_ ^ 9);
     surfaceTensionOffset := - (h_ ^ 6) / 64 |}%R.

Definition poly6 (k : t) (r2 : R) : R := cube (h2 k - r2).
Definition poly6Grad (k : t) (r : Vector3f) (r2 : R) : Vector3f :=
  vscale (sqr (h2 k - r2)) r.
Definition poly6Laplace (k : t) (r2 : R) : R :=
  ((h2 k - r2) * (3 * h2 k - 7 * r2))%R.
Definition spiky (k : t) (rn : R) : R := cube (h k - rn).
Definition spikyGrad (k : t) (r : Vector3f) (rn : R) : Vector3f :=
  vscale (1 / rn) (vscale (sqr (h k - rn)) r).
Definition spikyLaplace (k : t) (rn : R) : R :=
  ((h k - rn) * (h k - 2 * rn) / rn)%R.
Definition viscosityLaplace (k : t) (rn : R) : R := (h k - rn)%R.
Definition surfaceTension (k : t) (rn : R) : R :=
  if Rltb rn (halfh k)
  then (2 * cube (h k - rn) * cube rn + surfaceTensionOffset k)%R
  else (cube (h k - rn) * cube rn)%R.
End Kernel.

(** The anonymous [wcsph] struct. *)
Record Wcsph := mkWcsph {
  wcsph_gamma : R;
  wcsph_cs : R;
  wcsph_B : R;
  wcsph_viscosity : R;
  wcsph_dt : R
}.

(** The members of [SPH] that [update] reads or writes. *)
Record t := mk {
  _restDensity : R;
  _particleMass : R;
  _particleMass2 : R;
  _h : R;
  _h2 : R;
  wcsph : Wcsph;
  _settings : Settings;
  _kernel : Kernel.t;
  _bounds : Box3f;
  _grid : Grid.t;
  _positions : list Vector3f;
  _velocities : list Vector3f;
  _normals : list Vector3f;
  _forces : list Vector3f;
  _densities : list R;
  _pressures : list R;
  _t : R
}.

Definition set_settings (x : Settings) (s : t) : t :=
  mk (_restDensity s) (_particleMass s) (_particleMass2 s) (_h s) (_h2 s)
     (wcsph s) x (_kernel s) (_bounds s) (_grid s) (_positions s)
     (_velocities s) (_normals s) (_forces s) (_densities s)
     (_pressures s) (_t s).
Definition set_grid (x : Grid.t) (s : t) : t :=
  mk (_restDensity s) (_particleMass s) (_particleMass2 s) (_h s) (_h2 s)
     (wcsph s) (_settings s) (_kernel s) (_bounds s) x (_positions s)
     (_velocities s) (_normals s) (_forces s) (_densities s)
     (_pressures s) (_t s).
Definition set_positions (x : list Vector3f) (s : t) : t :=
  mk (_restDensity s) (_particleMass s) (_particleMass2 s) (_h s) (_h2 s)
     (wcsph s) (_settings s) (_kernel s) (_bounds s) (_grid s) x
     (_velocities s) (_normals s) (_forces s) (_densities s)
     (_pressures s) (_t s).
Definition set_velocities (x : list Vector3f) (s : t) : t :=
  mk (_restDensity s) (_particleMass s) (_particleMass2 s) (_h s) (_h2 s)
     (wcsph s) (_settings s) (_kernel s) (_bounds s) (_grid s)
     (_positions s) x (_normals s) (_forces s) (_densities s)
     (_pressures s) (_t s).
Definition set_normals (x : list Vector3f) (s : t) : t :=
  mk (_restDensity s) (_particleMass s) (_particleMass2 s) (_h s) (_h2 s)
     (wcsph s) (_settings s) (_kernel s) (_bounds s) (_grid s)
     (_positions s) (_velocities s) x (_forces s) (_densities s)
     (_pressures s) (_t s).
Definition set_forces (x : list Vector3f) (s : t) : t :=
  mk (_restDensity s) (_particleMass s) (_particleMass2 s) (_h s) (_h2 s)
     (wcsph s) (_settings s) (_kernel s) (_bounds s) (_grid s)
     (_positions s) (_velocities s) (_normals s) x (_densities s)
     (_pressures s) (_t s).
Definition set_densities (x : list R) (s : t) : t :=
  mk (_restDensity s) (_particleMass s) (_particleMass2 s) (_h s) (_h2 s)
     (wcsph s) (_settings s) (_kernel s) (_bounds s) (_grid s)
     (_positions s) (_velocities s) (_normals s) (_forces s) x
     (_pressures s) (_t s).
Definition set_pressures (x : list R) (s : t) : t :=
  mk (_restDensity s) (_particleMass s) (_particleMass2 s) (_h s) (_h2 s)
     (wcsph s) (_settings s) (_kernel s) (_bounds s) (_grid s)
     (_positions s) (_velocities s) (_normals s) (_forces s)
     (_densities s) x (_t s).
Definition set_t (x : R) (s : t) : t :=
  mk (_restDensity s) (_particleMass s) (_particleMass2 s) (_h s) (_h2 s)
     (wcsph s) (_settings s) (_kernel s) (_bounds s) (_grid s)
     (_positions s) (_velocities s) (_normals s) (_forces s)
     (_densities s) (_pressures s) x.

Definition set_gravity (g : Vector3f) (s : t) : t :=
  set_settings
    (mkSettings (stiffness (_settings s)) (viscosity (_settings s)) g) s.

(** [iterate(count, func)] *)
Definition iterate {S : Type} (count : nat) (func : nat → S → option S)
    (s : S) : option S :=
  forM func (seq 0 count) s.

(** [iterateNeighbours(p, func)]; [func] only reads the solver. *)
Definition iterateNeighbours {S : Type} (s : t) (p : Vector3f)
    (func : Z → Vector3f → R → S → option S) (acc : S) : option S :=
  Grid.lookup (_grid s) p (_h s)
    (λ j acc,
       pj ← at_ (_positions s) j;
       let r := vsub p pj in
       let r2 := squaredNorm r in
       if Rltb r2 (_h2 s) then func j r r2 acc else Some acc)
    acc.

Definition computeDensity_at (i : nat) (s : t) : option t :=
  p ← _positions s !! i;
  density ← iterateNeighbours s p
    (λ j r r2 density, Some (density + Kernel.poly6 (_kernel s) r2)%R) 0%R;
  let density :=
    (density * (_particleMass s * Kernel.poly6Constant (_kernel s)))%R in
  (* Tait pressure (WCSPH) *)
  let t := (density / _restDensity s)%R in
  let pressure :=
    (wcsph_B (wcsph s) * ((t * t) * (t * t) * (t * t) * t - 1))%R in
  ds ← store (_densities s) i density;
  ps ← store (_pressures s) i pressure;
  Some (set_pressures ps (set_densities ds s)).

Definition computeDensity (s : t) : option t :=
  iterate (length (_positions s)) computeDensity_at s.

Definition computeNormals_at (i : nat) (s : t) : option t :=
  p ← _positions s !! i;
  normal ← iterateNeighbours s p
    (λ j r r2 normal,
       dj ← at_ (_densities s) j;
       Some (vadd normal (vdiv (Kernel.poly6Grad (_kernel s) r r2) dj)))
    Vector3f_default;
  let normal :=
    vscale (_h s * _particleMass s * Kernel.poly6GradConstant (_kernel s))
           normal in
  ns ← store (_normals s) i normal;
  Some (set_normals ns s).

Definition computeNormals (s : t) : option t :=
  iterate (length (_positions s)) computeNormals_at s.

(** The four accumulators of one task of [computeForces]. *)
Record Acc := mkAcc {
  force : Vector3f;
  forceViscosity : Vector3f;
  forceCohesion : Vector3f;
  forceCurvature : Vector3f
}.

(** What the visitor of [computeForces] does with a pair [i != j]. *)
Inductive Branch := Accumulate | Nudge | Skip.

Definition pairBranch (r2 h2 : R) : Branch :=
  if Rltb r2 h2 && Rltb 0.00001 r2 then Accumulate
  else if Reqb r2 0 then Nudge
  else Skip.

(** The vector the pressure line subtracts from [force]. *)
Definition pressureTerm (s : t) (pressure_i density_i pressure_j density_j : R)
    (r : Vector3f) (rn : R) : Vector3f :=
  vscale (_particleMass2 s
          * (pressure_i / sqr density_i + pressure_j / sqr density_j)
          * Kernel.spikyGradConstant (_kernel s))
         (Kernel.spikyGrad (_kernel s) r rn).

Definition accumulate (s : t) (v_i v_j n_i n_j : Vector3f)
    (density_i density_j pressure_i pressure_j : R)
    (r : Vector3f) (r2 : R) (a : Acc) : Acc :=
  let rn := sqrt r2 in
  (* Pressure force (WCSPH) *)
  let force' :=
    vsub (force a)
         (pressureTerm s pressure_i density_i pressure_j density_j r rn) in
  (* Viscosity *)
  let forceViscosity' :=
    if Rltb 0.0001 density_j
    then vsub (forceViscosity a)
              (vscale (Kernel.viscosityLaplace (_kernel s) rn / density_j)
                      (vsub v_i v_j))
    else forceViscosity a in
  (* Surface tension (according to [3]) *)
  let correctionFactor := (2 * _restDensity s / (density_i + density_j))%R in
  let forceCohesion' :=
    vadd (forceCohesion a)
         (vscale (Kernel.surfaceTension (_kernel s) rn)
                 (vscale correctionFactor r)) in
  let forceCurvature' :=
    vadd (forceCurvature a) (vscale correctionFactor (vsub n_i n_j)) in
  mkAcc force' forceViscosity' forceCohesion' forceCurvature'.

(** The lambda handed to [_grid.lookup] by [computeForces]. *)
Definition forceVisitor (i : nat) (j : Z) (st : t * Acc) : option (t * Acc) :=
  let '(s, a) := st in
  v_i ← _velocities s !! i;
  v_j ← at_ (_velocities s) j;
  n_i ← _normals s !! i;
  n_j ← at_ (_normals s) j;
  density_i ← _densities s !! i;
  density_j ← at_ (_densities s) j;
  pressure_i ← _pressures s !! i;
  pressure_j ← at_ (_pressures s) j;
  if decide (Z.of_nat i = j) then Some st
  else
    p_i ← _positions s !! i;
    p_j ← at_ (_positions s) j;
    let r := vsub p_i p_j in
    let r2 := squaredNorm r in
    match pairBranch r2 (_h2 s) with
    | Accumulate =>
        Some (s, accumulate s v_i v_j n_i n_j density_i density_j
                            pressure_i pressure_j r r2 a)
    | Nudge =>
        (* Avoid collapsing particles *)
        Some (set_positions
                (<[Z.to_nat j := vadd p_j (splat 0.00001)]> (_positions s))
                s, a)
    | Skip => Some st
    end.

(** [force(0.f)] and the three accumulators declared after it. *)
Definition initAcc : Acc :=
  mkAcc (splat 0) Vector3f_default Vector3f_default Vector3f_default.

Definition computeForces_at (i : nat) (s : t) : option t :=
  p ← _positions s !! i;
  '(s, a) ← Grid.lookup (_grid s) p (_h s) (forceVisitor i) (s, initAcc);
  let viscosity := 0.0001%R in
  let forceViscosity :=
    vscale (viscosity * _particleMass s
            * Kernel.viscosityLaplaceConstant (_kernel s))
           (forceViscosity a) in
  let surfaceTension := 1%R in
  let forceCohesion :=
    vscale (surfaceTension * _particleMass2 s
            * Kernel.surfaceTensionConstant (_kernel s))
           (forceCohesion a) in
  let forceCurvature :=
    vscale (surfaceTension * _particleMass s) (forceCurvature a) in
  let force :=
    vadd (force a) (vadd (vadd forceCohesion forceCurvature) forceViscosity) in
  let force := vadd force (vscale (_particleMass s) (gravity (_settings s))) in
  fs ← store (_forces s) i force;
  Some (set_forces fs s).

Definition computeForces (s : t) : option t :=
  iterate (length (_positions s)) computeForces_at s.

(** [computeCollisions(handler)]; [p] is a reference, so every test reads
    the position as the handler left it.  The loop bound is
    [_positions.size() - 1] in [size_t]. *)
Definition collide (handler : nat → Vector3f → R → t → option t)
    (i : nat) (s : t) : option t :=
  let test (violated : Vector3f → bool) (n : Vector3f)
           (d : Vector3f → R) (s : t) : option t :=
    p ← _positions s !! i;
    if violated p then handler i n (d p) s else Some s in
  let mn := box_min (_bounds s) in
  let mx := box_max (_bounds s) in
  s ← test (λ p, Rltb (f_x p) (f_x mn)) (mkVector3f 1 0 0)
           (λ p, f_x mn - f_x p)%R s;
  s ← test (λ p, Rltb (f_x mx) (f_x p)) (mkVector3f (-1) 0 0)
           (λ p, f_x p - f_x mx)%R s;
  s ← test (λ p, Rltb (f_y p) (f_y mn)) (mkVector3f 0 1 0)
           (λ p, f_y mn - f_y p)%R s;
  s ← test (λ p, Rltb (f_y mx) (f_y p)) (mkVector3f 0 (-1) 0)
           (λ p, f_y p - f_y mx)%R s;
  s ← test (λ p, Rltb (f_z p) (f_z mn)) (mkVector3f 0 0 1)
           (λ p, f_z mn - f_z p)%R s;
  test (λ p, Rltb (f_z mx) (f_z p)) (mkVector3f 0 0 (-1))
       (λ p, f_z p - f_z mx)%R s.

Definition computeCollisions
    (handler : nat → Vector3f → R → t → option t) (s : t) : option t :=
  let bound := wrap64 (Z.of_nat (length (_positions s)) - 1) in
  forM (collide handler) (seq 0 (Z.to_nat bound)) s.

(** The collision lambda of [update]. *)
Definition collisionHandler (i : nat) (n : Vector3f) (d : R) (s : t)
  : option t :=
  let c := 0.5%R in
  p ← _positions s !! i;
  let s := set_positions (<[i := vadd p (vscale d n)]> (_positions s)) s in
  v ← _velocities s !! i;
  Some (set_velocities
          (<[i := vsub v (vscale ((1 + c) * dot v n) n)]> (_velocities s)) s).

(** The swap lambda of [update]. *)
Definition swapParticles (i j : nat) (s : t) : option t :=
  ps ← swap_at (_positions s) i j;
  vs ← swap_at (_velocities s) i j;
  Some (set_velocities vs (set_positions ps s)).

Definition integrate_at (invM dt : R) (i : nat) (s : t) : option t :=
  f ← _forces s !! i;
  let a := vscale invM f in
  v ← _velocities s !! i;
  let v' := vadd v (vscale dt a) in
  p ← _positions s !! i;
  Some (set_positions (<[i := vadd p (vscale dt v')]> (_positions s))
          (set_velocities (<[i := v']> (_velocities s)) s)).

(** The six profiled stages of [update], in order. *)
Definition stages (fuel : nat) (dt : R) (s : t) : option t :=
  (* Grid Update *)
  '(g, s) ← Grid.update fuel (_grid s) (_positions s) swapParticles s;
  let s := set_grid g s in
  (* Density Update *)
  s ← computeDensity s;
  (* Normal Update *)
  s ← computeNormals s;
  (* Force Update *)
  s ← computeForces s;
  (* Integrate *)
  let invM := (1 / _particleMass s)%R in
  s ← iterate (length (_positions s)) (integrate_at invM dt) s;
  (* Collision Update *)
  computeCollisions collisionHandler s.

Definition update (fuel : nat) (dt : R) (s : t) : option t :=
  let s := set_t (_t s + dt) s in
  let t := fmod (_t s * 0.5) 4 in
  let s :=
    if Rltb t 1 then set_gravity (mkVector3f 0 (-9.81) 0) s
    else if Rltb t 2 then set_gravity (mkVector3f 9.81 0 0) s
    else if Rltb t 3 then set_gravity (mkVector3f 0 9.81 0) s
    else set_gravity (mkVector3f (-9.81) 0 0) s in
  let s := set_gravity (mkVector3f 0 (-9.81) 0) s in
  stages fuel dt s.

End SPH.

(** ** Vocabulary of the statements *)

Definition sumZ (l : list Z) : Z := foldr Z.add 0%Z l.

(** Number of occurrences of the cell [c] in a list of cell numbers. *)
Definition occ (c : Z) (l : list Z) : Z :=
  Z.of_nat (length (filter (λ x, x = c) l)).

(** A cell triple inside the grid. *)
Definition valid_cell (g : Grid.t) (c : Vector3i) : Prop :=
  (0 ≤ i_x c < i_x (Grid._size g))%Z ∧
  (0 ≤ i_y c < i_y (Grid._size g))%Z ∧
  (0 ≤ i_z c < i_z (Grid._size g))%Z.

(** The shape [Grid::init] leaves a grid in: at least one cell per axis,
    a cell count that fits an [int], one offset per cell and a sentinel. *)
Definition grid_wf (g : Grid.t) : Prop :=
  (0 < i_x (Grid._size g))%Z ∧ (0 < i_y (Grid._size g))%Z ∧
  (0 < i_z (Grid._size g))%Z ∧ (Grid.cellCount g < 2 ^ 31)%Z ∧
  length (Grid._cellOffset g) = S (Z.to_nat (Grid.cellCount g)).

(** Slot [k] lies in the slice [[offset[c], offset[c+1])] of cell [c]. *)
Definition in_slice (offs : list Z) (c : nat) (k : Z) : Prop :=
  ∃ lo hi, offs !! c = Some lo ∧ offs !! S c = Some hi ∧ (lo ≤ k < hi)%Z.

(** The offsets [Grid::update] leaves behind for [n] particles: they start
    at 0, never decrease and end at [n]. *)
Definition offsets_sorted (g : Grid.t) (n : Z) : Prop :=
  Grid._cellOffset g !! O = Some 0%Z ∧
  Grid._cellOffset g !! Z.to_nat (Grid.cellCount g) = Some n ∧
  ∀ (c : nat) lo hi,
    Grid._cellOffset g !! c = Some lo →
    Grid._cellOffset g !! S c = Some hi → (lo ≤ hi)%Z.

(** The callback that records the calls [swap(i, j)] in order. *)
Definition record_swap (i j : nat) (tr : list (nat * nat))
  : option (list (nat * nat)) := Some (tr ++ [(i, j)]).

(** The callback that keeps a vector in step with the sort. *)
Definition swap_vec {A : Type} (i j : nat) (v : list A) : option (list A) :=
  swap_at v i j.

(** Replaying recorded swaps on a vector. *)
Definition replay {A : Type} (tr : list (nat * nat)) (v : list A)
  : option (list A) :=
  forM (λ '(i, j) v, swap_at v i j) tr v.

(** Invariant of the counting loop of [Grid::update] before iteration [i],
    for the cell numbers [cs] of the particles. *)
Definition count_inv (g : Grid.t) (cs : list Z) (i : nat)
    (st : list Z * list Z) : Prop :=
  length st.1 = length cs ∧ take i st.1 = take i cs ∧
  length st.2 = Z.to_nat (Grid.cellCount g) ∧
  (∀ c : nat, c < Z.to_nat (Grid.cellCount g) →
     st.2 !! c = Some (occ (Z.of_nat c) (take i cs))) ∧
  sumZ st.2 = Z.of_nat i.

(** The running total the second loop of [Grid::update] reaches at cell
    [c]: the population of the cells before [c]. *)
Definition prefix (cnt : list Z) (c : nat) : Z := sumZ (take c cnt).

(** Invariant of the second loop before iteration [i]. *)
Definition offset_inv (cnt : list Z) (n : nat) (i : nat)
    (st : Z * list Z * list Z) : Prop :=
  let '(index, cellIndex, offs) := st in
  index = prefix cnt i ∧ length cellIndex = length cnt ∧ length offs = n ∧
  ∀ c : nat, c < i →
    cellIndex !! c = Some (prefix cnt c) ∧ offs !! c = Some (prefix cnt c).

(** Number of increments the sort has applied to [cellIndex] so far. *)
Definition swaps_done (cnt cellIndex : list Z) : Z :=
  (sumZ cellIndex - sumZ (prefix cnt <$> seq 0 (length cnt)))%Z.

(** Invariant of the sort of [Grid::update] before slot [i] is examined:
    [cs] are the cell numbers of the particles in their original order and
    [cnt] the populations.  The slots [[prefix c, cellIndex[c])] of every
    cell hold particles of that cell, and every slot before [i] lies in
    the filled part of the slice of its cell. *)
Definition sort_inv (cs cnt : list Z) (i : nat) (indices cellIndex : list Z)
  : Prop :=
  length cellIndex = length cnt ∧ indices ≡ₚ cs ∧
  (∀ c : nat, c < length cnt →
     (prefix cnt c ≤ cellIndex !!! c ≤ prefix cnt (S c))%Z) ∧
  (∀ c k : nat, c < length cnt →
     (prefix cnt c ≤ Z.of_nat k < cellIndex !!! c)%Z →
     indices !! k = Some (Z.of_nat c)) ∧
  (∀ k : nat, k < i →
     ∃ c : nat, c < length cnt ∧ indices !! k = Some (Z.of_nat c) ∧
                (prefix cnt c ≤ Z.of_nat k < cellIndex !!! c)%Z).

(** Population of every cell, for the cell numbers [cs] of the particles. *)
Definition populations (K : nat) (cs : list Z) : list Z :=
  (λ c : nat, occ (Z.of_nat c) cs) <$> seq 0 K.

(** Slot [k] is in the filled part of the slice of some cell. *)
Definition filled (cnt cellIndex : list Z) (k : nat) : Prop :=
  ∃ c : nat, c < length cnt ∧ (prefix cnt c ≤ Z.of_nat k < cellIndex !!! c)%Z.

(** No swap touches the slot an earlier swap has written its particle to. *)
Fixpoint final_writes (tr : list (nat * nat)) : Prop :=
  match tr with
  | [] => True
  | (_, j) :: tr' => Forall (λ s, s.1 ≠ j ∧ s.2 ≠ j) tr' ∧ final_writes tr'
  end.

(** What the sort keeps true of the recorded swaps. *)
Definition trace_inv (n : nat) (cnt : list Z) (cellIndex : list Z)
    (tr : list (nat * nat)) : Prop :=
  Forall (λ s, s.1 < n ∧ s.2 < n ∧ filled cnt cellIndex s.2) tr ∧
  Z.of_nat (length tr) = swaps_done cnt cellIndex ∧
  final_writes tr.

(** The visitor that records the slots [lookup] hands out, in order. *)
Definition record_slot (j : Z) (l : list Z) : option (list Z) :=
  Some (l ++ [j]).

(** The query box [[pos - radius, pos + radius]] misses the grid along some
    axis: its upper corner falls before cell 0 or its lower corner past
    the last cell, in the grid's own cell coordinates. *)
Definition box_outside (g : Grid.t) (pos : Vector3f) (radius : R) : Prop :=
  let lo := Grid.index g (vsub pos (splat radius)) in
  let hi := Grid.index g (vadd pos (splat radius)) in
  (i_x hi < 0 ∨ i_x (Grid._size g) ≤ i_x lo ∨
   i_y hi < 0 ∨ i_y (Grid._size g) ≤ i_y lo ∨
   i_z hi < 0 ∨ i_z (Grid._size g) ≤ i_z lo)%Z.

(** A grid of 2 x 2 x 2 unit cells over the unit cube, as [init] builds it
    for the bounds [[0,1]^3] and the cell size 1, and two particles in the
    cells 1 and 0. *)
Definition unit_box : Box3f := mkBox3f (splat 0) (splat 1).
Definition grid222 : Grid.t :=
  Grid.mk unit_box 1 (1 / 1) (mkVector3i 2 2 2) (replicate 9 0%Z).
Definition two_particles : list Vector3f :=
  [mkVector3f 1.5 0.5 0.5; mkVector3f 0.5 0.5 0.5].
(** [grid222] after [update] on [two_particles]. *)
Definition grid222_sorted : Grid.t :=
  Grid.set_cellOffset [0; 1; 2; 2; 2; 2; 2; 2; 2]%Z grid222.

(** The position one cell before the minimum corner of the grid along x. *)
Definition below_min (g : Grid.t) : Vector3f :=
  let mn := box_min (Grid._bounds g) in
  mkVector3f (f_x mn - 1 / Grid._invCellSize g) (f_y mn) (f_z mn).

(** A particle one cell past the last cell of [grid222] along x. *)
Definition past_max : Vector3f := mkVector3f 2.5 0.5 0.5.

(** All per-particle arrays of the solver have [n] entries. *)
Definition sized (s : SPH.t) (n : nat) : Prop :=
  length (SPH._positions s) = n ∧ length (SPH._velocities s) = n ∧
  length (SPH._normals s) = n ∧ length (SPH._forces s) = n ∧
  length (SPH._densities s) = n ∧ length (SPH._pressures s) = n.

(** What one call of the visitor of [computeForces], for particle [i] on
    the candidate [j], adds to the accumulator [force] of particle [i]:
    the pressure force of [j] on [i]. *)
Definition pressureContribution (s : SPH.t) (i j : nat) : option Vector3f :=
  '(_, a) ← SPH.forceVisitor i (Z.of_nat j) (s, SPH.initAcc);
  Some (SPH.force a).

(** A one-cell grid over the unit cube for the support radius 2, holding
    [n] particles, and a solver state on it as the constructor of [SPH]
    derives it for one particle per unit volume: rest spacing 1, support
    radius 2, particle mass 1000. *)
Definition grid1 (n : Z) : Grid.t :=
  Grid.mk unit_box 2 (1 / 2) (mkVector3i 1 1 1) [0%Z; n].

Definition fluid (settings : SPH.Settings) (positions velocities : list Vector3f)
    (densities pressures : list R) : SPH.t :=
  SPH.mk 1000 1000 (sqr 1000) 2 (sqr 2)
         (SPH.mkWcsph 7 10 (1000 * sqr 10 / 7) 0.005 0.001)
         settings (SPH.Kernel.init 2) unit_box
         (grid1 (Z.of_nat (length positions)))
         positions velocities
         (replicate (length positions) (splat 0))
         (replicate (length positions) (splat 0))
         densities pressures 0.

Definition centre : Vector3f := mkVector3f 0.5 0.5 0.5.

(** Two particles half a unit apart, with different pressures. *)
Definition fluid_pair : SPH.t :=
  fluid SPH.defaultSettings [centre; mkVector3f 1 0.5 0.5]
        [splat 0; splat 0] [1000; 1000]%R [1; 2]%R.

(** Two particles 0.002 apart: [0 < r2 = 0.000004 < 0.00001]. *)
Definition fluid_close : SPH.t :=
  fluid SPH.defaultSettings [centre; mkVector3f 0.502 0.5 0.5]
        [splat 0; splat 0] [1000; 1000]%R [1; 2]%R.

(** Two particles at the same place. *)
Definition fluid_coincident : SPH.t :=
  fluid SPH.defaultSettings [centre; centre]
        [splat 0; splat 0] [1000; 1000]%R [0; 0]%R.


(** No two distinct particles are at the same place. *)
Definition no_coincident (positions : list Vector3f) : Prop :=
  ∀ (i j : nat) p_i p_j,
    i ≠ j → positions !! i = Some p_i → positions !! j = Some p_j →
    squaredNorm (vsub p_i p_j) ≠ 0%R.

(** What the force pass keeps of the state [s0] it started from. *)
Definition forces_frame (s0 s : SPH.t) : Prop :=
  SPH._velocities s = SPH._velocities s0 ∧
  SPH._normals s = SPH._normals s0 ∧
  SPH._densities s = SPH._densities s0 ∧
  SPH._pressures s = SPH._pressures s0 ∧
  (no_coincident (SPH._positions s0) →
   SPH._positions s = SPH._positions s0).

(** [fluid_coincident] once the second particle has been displaced. *)
Definition fluid_nudged : SPH.t :=
  SPH.set_positions [centre; vadd centre (splat 0.00001)] fluid_coincident.

(** Two particles at rest, the last one outside the domain, below its
    minimum corner along x. *)
Definition fluid_outside : SPH.t :=
  fluid SPH.defaultSettings [centre; mkVector3f (-1) 0.5 0.5]
        [splat 0; splat 0] [1000; 1000]%R [0; 0]%R.

(** The density kernel with the normalization constant [c], weighted over
    the sphere of radius [r]: the integral of [c * poly6(|x|^2)] over the
    ball of radius [h] in 3D is the integral of [shell_weight] over
    [[0, h]]. *)
Definition shell_weight (c : R) (k : SPH.Kernel.t) (r : R) : R :=
  (4 * PI * (r * r) * (c * SPH.Kernel.poly6 k (r * r)))%R.

(** A primitive of [shell_weight c (Kernel.init h)]. *)
Definition shell_mass (c h r : R) : R :=
  (4 * PI * c
   * (h ^ 6 / 3 * r ^ 3 - 3 * h ^ 4 / 5 * r ^ 5 + 3 * h ^ 2 / 7 * r ^ 7
      - 1 / 9 * r ^ 9))%R.

(** The gravity every [update] installs before its force pass. *)
Definition fixed_gravity : Vector3f := mkVector3f 0 (-9.81) 0.



(** Every entry fits the 32 bits of a [uint32_t]. *)
Definition all_uint32 (l : list Z) : Prop :=
  Forall (λ v, (0 ≤ v < 2 ^ 32)%Z) l.

(** A set of 2{^32} particles, all at the centre of cell (0,0,0) of
    [grid222]. *)
Definition crowd : list Vector3f :=
  replicate (Z.to_nat (2 ^ 32)) (mkVector3f 0.5 0.5 0.5).

(** The point [p] lies in the box [b], faces included. *)
Definition inside (b : Box3f) (p : Vector3f) : Prop :=
  (f_x (box_min b) <= f_x p <= f_x (box_max b))%R ∧
  (f_y (box_min b) <= f_y p <= f_y (box_max b))%R ∧
  (f_z (box_min b) <= f_z p <= f_z (box_max b))%R.

(** A particle two cells above the floor of [grid222]: its cell (0,0,2)
    has the linear number 8, one past the last cell. *)
Definition above_top : Vector3f := mkVector3f 0.5 0.5 2.5.

(** The coordinate [x] lies between the faces [lo] and [hi] of its axis. *)
Definition in_range (lo hi x : R) : Prop := (lo <= x <= hi)%R.

(** What collision handling keeps of a particle with position [p] and
    velocity [v], which it leaves at [p'] with [v']: along every axis on
    which [p] lies between the faces of the box [b], the coordinate and the
    velocity component are the ones it had. *)
Definition axes_kept (b : Box3f) (p v p' v' : Vector3f) : Prop :=
  (in_range (f_x (box_min b)) (f_x (box_max b)) (f_x p) →
   f_x p' = f_x p ∧ f_x v' = f_x v) ∧
  (in_range (f_y (box_min b)) (f_y (box_max b)) (f_y p) →
   f_y p' = f_y p ∧ f_y v' = f_y v) ∧
  (in_range (f_z (box_min b)) (f_z (box_max b)) (f_z p) →
   f_z p' = f_z p ∧ f_z v' = f_z v).

(** One of the six tests of [computeCollisions], with the normal [n] it
    passes to the handler, acts along one axis: along every other axis [n]
    is zero, and the test is not met by a position between the faces of
    its own axis. *)
Definition axis_test (b : Box3f) (viol : Vector3f → bool) (n : Vector3f)
  : Prop :=
  (f_x n = 0%R ∨
   ∀ q, in_range (f_x (box_min b)) (f_x (box_max b)) (f_x q) → viol q = false) ∧
  (f_y n = 0%R ∨
   ∀ q, in_range (f_y (box_min b)) (f_y (box_max b)) (f_y q) → viol q = false) ∧
  (f_z n = 0%R ∨
   ∀ q, in_range (f_z (box_min b)) (f_z (box_max b)) (f_z q) → viol q = false).

(** A solver without particles. *)
Definition fluid_empty : SPH.t := fluid SPH.defaultSettings [] [] [] [].

(** Three particles, the first one outside the domain along x and z and
    moving outwards, the other two inside. *)
Definition fluid_escaped : SPH.t :=
  fluid SPH.defaultSettings
        [mkVector3f (-1) 0.5 3; centre; centre]
        [mkVector3f (-2) 1 4; splat 0; splat 0]
        [1000; 1000; 1000]%R [0; 0; 0]%R.

(** The solver [s] with the position [q] and the velocity [w] for
    particle [i]. *)
Definition with_particle (i : nat) (q w : Vector3f) (s : SPH.t) : SPH.t :=
  SPH.set_velocities (<[i := w]> (SPH._velocities s))
    (SPH.set_positions (<[i := q]> (SPH._positions s)) s).

(** The slots of one cell, as the innermost loop of [lookup] goes through
    them: [[offset[i], offset[i+1])] for the linear number [i] of the
    cell. *)
Definition cellSlots (g : Grid.t) (cell : Vector3i) : list Z :=
  match at_ (Grid._cellOffset g) (Grid.linear g cell),
        at_ (Grid._cellOffset g) (wrap64 (Grid.linear g cell + 1)) with
  | Some lo, Some hi => seqZ lo (hi - lo)
  | _, _ => []
  end.

(** The point [p] lies in the query box [[pos - radius, pos + radius]]. *)
Definition within (pos : Vector3f) (radius : R) (p : Vector3f) : Prop :=
  (f_x pos - radius <= f_x p <= f_x pos + radius)%R ∧
  (f_y pos - radius <= f_y p <= f_y pos + radius)%R ∧
  (f_z pos - radius <= f_z p <= f_z pos + radius)%R.

(** The grid [g] is up to date for the particles [ps]: it has the shape
    [init] gives it and the offsets [update] leaves for them, every
    particle has its cell in the grid, and its slot lies in the slice of
    that cell. *)
Definition grid_indexes (g : Grid.t) (ps : list Vector3f) : Prop :=
  grid_wf g ∧ offsets_sorted g (Z.of_nat (length ps)) ∧
  ∀ (k : nat) p,
    ps !! k = Some p →
    valid_cell g (Grid.index g p) ∧
    in_slice (Grid._cellOffset g) (Z.to_nat (Grid.indexLinear g p))
             (Z.of_nat k).

Definition sumR (l : list R) : R := foldr Rplus 0%R l.

(** What a particle at [q] adds to the density sum of a particle at [p]:
    the kernel at their squared distance when that is below [h2], nothing
    otherwise. *)
Definition densityTerm (s : SPH.t) (p q : Vector3f) : R :=
  let r2 := squaredNorm (vsub p q) in
  if Rltb r2 (SPH._h2 s) then SPH.Kernel.poly6 (SPH._kernel s) r2 else 0%R.

(** The density at [p] summed over all particles of the solver, without
    the grid. *)
Definition bruteDensity (s : SPH.t) (p : Vector3f) : R :=
  (sumR (densityTerm s p <$> SPH._positions s)
   * (SPH._particleMass s * SPH.Kernel.poly6Constant (SPH._kernel s)))%R.

(** Tait's equation of state with the exponent 7. *)
Definition tait (s : SPH.t) (density : R) : R :=
  (SPH.wcsph_B (SPH.wcsph s) * ((density / SPH._restDensity s) ^ 7 - 1))%R.

(** The solver is ready for a neighbour search: its grid is up to date
    for its particles, the cells have a reciprocal size that is not
    negative, and the squared support radius is what it says. *)
Definition searchable (s : SPH.t) : Prop :=
  grid_indexes (SPH._grid s) (SPH._positions s) ∧
  (0 <= Grid._invCellSize (SPH._grid s))%R ∧
  (0 <= SPH._h s)%R ∧ SPH._h2 s = sqr (SPH._h s).

(** Invariant of the sort of [Grid::update] before slot [i] on particles
    that are in the order of their cells already: nothing has moved, and
    every cell has taken in its slots below [i]. *)
Definition placed_inv {A : Type} (cs cnt : list Z) (Q : nat → A → Prop)
    (i : nat) (st : list Z * list Z * A) : Prop :=
  st.1.1 = cs ∧ length st.1.2 = length cnt ∧
  (∀ c : nat, c < length cnt →
     st.1.2 !! c
     = Some (Z.max (prefix cnt c)
                   (Z.min (Z.of_nat i) (prefix cnt (S c))))) ∧
  Q i st.2.

(** No other particle is at a distance from particle [i] at which the
    visitor of [computeForces] accumulates or displaces. *)
Definition isolated (s : SPH.t) (i : nat) : Prop :=
  ∀ (j : nat) p q,
    j ≠ i → SPH._positions s !! i = Some p → SPH._positions s !! j = Some q →
    SPH.pairBranch (squaredNorm (vsub p q)) (SPH._h2 s) = SPH.Skip.

(** Two particles three units apart, more than the support radius 2. *)
Definition fluid_apart : SPH.t :=
  fluid SPH.defaultSettings [centre; mkVector3f 3.5 0.5 0.5]
        [splat 0; splat 0] [1000; 1000]%R [0; 0]%R.

(** What no stage of [update] touches: the constants of the solver, and
    the shape of its grid. *)
Definition same_setup (s t : SPH.t) : Prop :=
  SPH._restDensity t = SPH._restDensity s ∧
  SPH._particleMass t = SPH._particleMass s ∧
  SPH._particleMass2 t = SPH._particleMass2 s ∧
  SPH._h t = SPH._h s ∧ SPH._h2 t = SPH._h2 s ∧
  SPH.wcsph t = SPH.wcsph s ∧ SPH._kernel t = SPH._kernel s ∧
  SPH._bounds t = SPH._bounds s ∧
  Grid._bounds (SPH._grid t) = Grid._bounds (SPH._grid s) ∧
  Grid._cellSize (SPH._grid t) = Grid._cellSize (SPH._grid s) ∧
  Grid._invCellSize (SPH._grid t) = Grid._invCellSize (SPH._grid s) ∧
  Grid._size (SPH._grid t) = Grid._size (SPH._grid s).

(** A solver whose arrays have [n] entries each and whose grid holds the
    offsets of [n] particles: the neighbour searches stay in range. *)
Definition steppable (n : nat) (s : SPH.t) : Prop :=
  sized s n ∧ grid_wf (SPH._grid s) ∧
  offsets_sorted (SPH._grid s) (Z.of_nat n).

(** What the stages of [update] after the first keep, from [s] to [t]:
    the lengths of the arrays and the offsets, the constants, the grid,
    the settings and the time. *)
Definition stage_ok (n : nat) (s t : SPH.t) : Prop :=
  steppable n t ∧ same_setup s t ∧ SPH._grid t = SPH._grid s ∧
  SPH._settings t = SPH._settings s ∧ SPH._t t = SPH._t s.

(** The pressure kernel as a function of the displacement: the spiky
    kernel with its constant, at the norm of [p]. *)
Definition spikyField (k : SPH.Kernel.t) (p : Vector3f) : R :=
  (SPH.Kernel.spikyConstant k * SPH.Kernel.spiky k (sqrt (squaredNorm p)))%R.

(** The density kernel with the constant [c], as a function of the
    displacement. *)
Definition poly6Field (c : R) (k : SPH.Kernel.t) (p : Vector3f) : R :=
  (c * SPH.Kernel.poly6 k (squaredNorm p))%R.

(** [l] is the gradient of the field [f] at [p]: its three components are
    the partial derivatives of [f] along the axes. *)
Definition gradient_at (f : Vector3f → R) (p l : Vector3f) : Prop :=
  derivable_pt_lim (λ t, f (mkVector3f t (f_y p) (f_z p))) (f_x p) (f_x l) ∧
  derivable_pt_lim (λ t, f (mkVector3f (f_x p) t (f_z p))) (f_y p) (f_y l) ∧
  derivable_pt_lim (λ t, f (mkVector3f (f_x p) (f_y p) t)) (f_z p) (f_z l).

(** [d] is the divergence of the vector field [F] at [p]: the sum of the
    partial derivatives of its components along their own axes. *)
Definition divergence_at (F : Vector3f → Vector3f) (p : Vector3f) (d : R) : Prop :=
  ∃ a b c : R,
    derivable_pt_lim (λ t, f_x (F (mkVector3f t (f_y p) (f_z p)))) (f_x p) a ∧
    derivable_pt_lim (λ t, f_y (F (mkVector3f (f_x p) t (f_z p)))) (f_y p) b ∧
    derivable_pt_lim (λ t, f_z (F (mkVector3f (f_x p) (f_y p) t))) (f_z p) c ∧
    d = (a + b + c)%R.

(** The scaled gradient kernels as vector fields of the displacement. *)
Definition poly6GradField (k : SPH.Kernel.t) (p : Vector3f) : Vector3f :=
  vscale (SPH.Kernel.poly6GradConstant k)
         (SPH.Kernel.poly6Grad k p (squaredNorm p)).
Definition spikyGradField (k : SPH.Kernel.t) (p : Vector3f) : Vector3f :=
  vscale (SPH.Kernel.spikyGradConstant k)
         (SPH.Kernel.spikyGrad k p (sqrt (squaredNorm p))).

(** ** The same functions in binary32

    Where a rounding decides which cell or which lattice point the code
    computes, the function is repeated here on IEEE 754 binary32 numbers
    (24 bits of precision, round to nearest even), with the operations of
    the standard library's [SpecFloat]. *)

Module B32.

Definition prec : Z := 24.
Definition emax : Z := 128.

Definition sub (x y : SpecFloat.spec_float) : SpecFloat.spec_float :=
  SpecFloat.SFsub prec emax x y.
Definition mul (x y : SpecFloat.spec_float) : SpecFloat.spec_float :=
  SpecFloat.SFmul prec emax x y.
Definition div (x y : SpecFloat.spec_float) : SpecFloat.spec_float :=
  SpecFloat.SFdiv prec emax x y.

(** The conversion of an [int] to [float]. *)
Definition of_int (z : Z) : SpecFloat.spec_float :=
  SpecFloat.binary_normalize prec emax z 0 false.

(** The decimal literal [n/d], for [n] and [d] that are [float]s
    themselves: the [float] nearest to the quotient. *)
Definition dec (n d : Z) : SpecFloat.spec_float := div (of_int n) (of_int d).

(** The signed significand of a finite number. *)
Definition signed (s : bool) (m : positive) : Z :=
  if s then Z.neg m else Z.pos m.

(** A value an [int] holds; the conversion of any other value is
    undefined in the source. *)
Definition to_int (z : Z) : option Z :=
  if ((- 2 ^ 31 <=? z) && (z <? 2 ^ 31))%Z then Some z else None.

(** [int(std::floor(x))] and [int(std::ceil(x))]. *)
Definition floor (x : SpecFloat.spec_float) : option Z :=
  match x with
  | SpecFloat.S754_zero _ => Some 0%Z
  | SpecFloat.S754_finite s m e =>
      to_int (if (0 <=? e)%Z then signed s m * 2 ^ e
              else signed s m / 2 ^ (- e))%Z
  | _ => None
  end.
Definition ceil (x : SpecFloat.spec_float) : option Z :=
  match x with
  | SpecFloat.S754_zero _ => Some 0%Z
  | SpecFloat.S754_finite s m e =>
      to_int (if (0 <=? e)%Z then signed s m * 2 ^ e
              else - (- signed s m / 2 ^ (- e)))%Z
  | _ => None
  end.

(** The real number a [float] stands for (0 for what is not a number). *)
Definition toR (x : SpecFloat.spec_float) : R :=
  match x with
  | SpecFloat.S754_finite s m e =>
      if (0 <=? e)%Z then IZR (signed s m * 2 ^ e)
      else (IZR (signed s m) / IZR (2 ^ (- e)))%R
  | _ => 0%R
  end.

End B32.

Record Vector3b := mkVector3b {
  b_x : SpecFloat.spec_float;
  b_y : SpecFloat.spec_float;
  b_z : SpecFloat.spec_float
}.
Record Box3b := mkBox3b { bbox_min : Vector3b; bbox_max : Vector3b }.

Definition splatb (s : SpecFloat.spec_float) : Vector3b := mkVector3b s s s.
Definition vsubb (a b : Vector3b) : Vector3b :=
  mkVector3b (B32.sub (b_x a) (b_x b)) (B32.sub (b_y a) (b_y b))
             (B32.sub (b_z a) (b_z b)).
Definition extentsb (b : Box3b) : Vector3b := vsubb (bbox_max b) (bbox_min b).

(** The points and boxes of real numbers they stand for. *)
Definition vecR (a : Vector3b) : Vector3f :=
  mkVector3f (B32.toR (b_x a)) (B32.toR (b_y a)) (B32.toR (b_z a)).
Definition boxR (b : Box3b) : Box3f :=
  mkBox3f (vecR (bbox_min b)) (vecR (bbox_max b)).

Module Grid32.

Record t := mk {
  _bounds : Box3b;
  _cellSize : SpecFloat.spec_float;
  _invCellSize : SpecFloat.spec_float;
  _size : Vector3i;
  _cellOffset : list Z
}.

Definition empty : t :=
  mk (mkBox3b (splatb (B32.of_int 0)) (splatb (B32.of_int 0)))
     (B32.of_int 0) (B32.of_int 0) (mkVector3i 0 0 0) [].

(** [init(bounds, cellSize)], with the quotient, the reciprocal and the
    difference of the corners rounded as the code rounds them. *)
Definition init (g : t) (bounds : Box3b) (cellSize : SpecFloat.spec_float)
  : option t :=
  sx ← B32.floor (B32.div (b_x (extentsb bounds)) cellSize);
  sy ← B32.floor (B32.div (b_y (extentsb bounds)) cellSize);
  sz ← B32.floor (B32.div (b_z (extentsb bounds)) cellSize);
  let size :=
    mkVector3i (nextPowerOfTwo (sx + 1)) (nextPowerOfTwo (sy + 1))
               (nextPowerOfTwo (sz + 1)) in
  Some (mk bounds cellSize (B32.div (B32.of_int 1) cellSize) size
           (Grid.resize (Z.to_nat (prod size + 1)) (_cellOffset g))).

Definition index (g : t) (pos : Vector3b) : option Vector3i :=
  x ← B32.floor (B32.mul (B32.sub (b_x pos) (b_x (bbox_min (_bounds g))))
                         (_invCellSize g));
  y ← B32.floor (B32.mul (B32.sub (b_y pos) (b_y (bbox_min (_bounds g))))
                         (_invCellSize g));
  z ← B32.floor (B32.mul (B32.sub (b_z pos) (b_z (bbox_min (_bounds g))))
                         (_invCellSize g));
  Some (mkVector3i x y z).

End Grid32.

Module SPH32.

(** [voxelizeBox(box)], on [_restSpacing] and [_positions]. *)
Definition voxelizeBox (restSpacing : SpecFloat.spec_float) (box : Box3b)
    (positions : list Vector3b) : option (list Vector3b) :=
  mnx ← B32.ceil (B32.div (b_x (bbox_min box)) restSpacing);
  mny ← B32.ceil (B32.div (b_y (bbox_min box)) restSpacing);
  mnz ← B32.ceil (B32.div (b_z (bbox_min box)) restSpacing);
  mxx ← B32.floor (B32.div (b_x (bbox_max box)) restSpacing);
  mxy ← B32.floor (B32.div (b_y (bbox_max box)) restSpacing);
  mxz ← B32.floor (B32.div (b_z (bbox_max box)) restSpacing);
  Some (positions ++
        (z ← Grid.range mnz mxz;
         y ← Grid.range mny mxy;
         x ← Grid.range mnx mxx;
         let p := mkVector3b (B32.mul (B32.of_int x) restSpacing)
                             (B32.mul (B32.of_int y) restSpacing)
                             (B32.mul (B32.of_int z) restSpacing) in
         [p])).

End SPH32.

(** Bounds from 0.7 to 4.2 along every axis, for cells of size 1.75. *)
Definition snug_bounds : Box3b :=
  mkBox3b (splatb (B32.dec 7 10)) (splatb (B32.dec 42 10)).
Definition snug_cell : SpecFloat.spec_float := B32.dec 175 100.

(** A box from 0.1 to 0.11 along every axis, for the rest spacing 0.02. *)
Definition small_box : Box3b :=
  mkBox3b (splatb (B32.dec 1 10)) (splatb (B32.dec 11 100)).
Definition small_spacing : SpecFloat.spec_float := B32.dec 2 100.

(** * Proofs *)

(** ** Loops *)

Lemma forM_app {X St} (body : X → St → option St) l1 l2 s :
  forM body (l1 ++ l2) s = (s' ← forM body l1 s; forM body l2 s').
Proof.
  revert s. induction l1 as [|x l1 IH]; intros s; simpl; [done|].
  destruct (body x s) as [s'|]; simpl; [apply IH | done].
Qed.

(** Total correctness of a counted loop from an invariant. *)
Lemma forM_seq_inv {St} (body : nat → St → option St) (I : nat → St → Prop) n :
  ∀ a s,
    I a s →
    (∀ i s, a ≤ i < a + n → I i s → ∃ s', body i s = Some s' ∧ I (S i) s') →
    ∃ s', forM body (seq a n) s = Some s' ∧ I (a + n) s'.
Proof.
  induction n as [|n IH]; intros a s HI Hstep; simpl.
  - exists s. by rewrite Nat.add_0_r.
  - destruct (Hstep a s) as (s1 & -> & H1); [lia | done |]. simpl.
    destruct (IH (S a) s1) as (s2 & -> & H2); [done | |].
    + intros i t Hi. apply Hstep. lia.
    + exists s2. split; [done|]. by replace (a + S n) with (S a + n) by lia.
Qed.

(** Partial correctness: what every step preserves holds at the end. *)
Lemma forM_preserves {X St} (body : X → St → option St) (P : St → Prop) l :
  (∀ x s s', x ∈ l → P s → body x s = Some s' → P s') →
  ∀ s s', P s → forM body l s = Some s' → P s'.
Proof.
  induction l as [|x l IH]; intros Hb s s' HP; simpl.
  - by intros [= <-].
  - destruct (body x s) as [s1|] eqn:E; simpl; [|done].
    apply IH; [intros; eapply Hb; eauto; by right|].
    eapply Hb; eauto. by left.
Qed.


(** ** Vectors and machine integers *)

Lemma at_Some {A} (v : list A) (i : Z) x :
  at_ v i = Some x ↔ (0 ≤ i)%Z ∧ v !! Z.to_nat i = Some x.
Proof.
  unfold at_. destruct (Z.ltb_spec i 0).
  - split; [done | intros [? _]; lia].
  - split; [intros; split; [lia | done] | by intros [_ ?]].
Qed.

Lemma at_of_nat {A} (v : list A) (i : nat) : at_ v (Z.of_nat i) = v !! i.
Proof.
  unfold at_. destruct (Z.ltb_spec (Z.of_nat i) 0); [lia|].
  by rewrite Nat2Z.id.
Qed.

Lemma wrap32_id z : (0 ≤ z < 2 ^ 32)%Z → wrap32 z = z.
Proof. intros. unfold wrap32. by apply Z.mod_small. Qed.

Lemma wrap64_id z : (0 ≤ z < 2 ^ 64)%Z → wrap64 z = z.
Proof. intros. unfold wrap64. apply Z.mod_small. lia. Qed.

Lemma Rltb_true x y : (x < y)%R → Rltb x y = true.
Proof. intros. unfold Rltb. by destruct (Rlt_dec x y). Qed.

Lemma Rltb_false x y : (y <= x)%R → Rltb x y = false.
Proof. intros. unfold Rltb. destruct (Rlt_dec x y); [lra | done]. Qed.

Lemma swap_at_length {A} (v v' : list A) i j :
  swap_at v i j = Some v' → length v' = length v.
Proof.
  unfold swap_at. destruct (v !! i); simpl; [|done].
  destruct (v !! j); simpl; [|done].
  intros [= <-]. by rewrite !length_insert.
Qed.

Lemma swap_at_Some {A} (v : list A) i j :
  i < length v → j < length v → is_Some (swap_at v i j).
Proof.
  intros Hi Hj. unfold swap_at.
  destruct (lookup_lt_is_Some_2 v i Hi) as [a ->].
  destruct (lookup_lt_is_Some_2 v j Hj) as [b ->]. by eexists.
Qed.

Lemma swap_at_lookup {A} (v v' : list A) i j k :
  swap_at v i j = Some v' →
  v' !! k = if decide (k = j) then v !! i
            else if decide (k = i) then v !! j else v !! k.
Proof.
  unfold swap_at. destruct (v !! i) as [a|] eqn:Ei; simpl; [|done].
  destruct (v !! j) as [b|] eqn:Ej; simpl; [|done].
  intros [= <-].
  assert (i < length v) by by eapply lookup_lt_Some.
  assert (j < length v) by by eapply lookup_lt_Some.
  destruct (decide (k = j)) as [->|Hkj].
  - rewrite list_lookup_insert_eq; [done | by rewrite length_insert].
  - rewrite list_lookup_insert_ne by done.
    destruct (decide (k = i)) as [->|Hki].
    + by rewrite list_lookup_insert_eq.
    + by rewrite list_lookup_insert_ne.
Qed.

Lemma swap_at_Permutation {A} (v v' : list A) i j :
  swap_at v i j = Some v' → v' ≡ₚ v.
Proof.
  intros H.
  assert (∃ f : nat → nat, Inj (=) (=) f ∧ ∀ k, v' !! k = v !! f k)
    as (f & Hf & Hk).
  { exists (λ k, if decide (k = j) then i
                 else if decide (k = i) then j else k).
    split.
    - intros a b. repeat case_decide; intros; subst; congruence.
    - intros k. rewrite (swap_at_lookup _ _ _ _ k H).
      repeat case_decide; done. }
  apply Permutation_inj.
  split; [by erewrite swap_at_length | eauto].
Qed.

(** ** Sums and occurrence counts *)

Lemma sumZ_app l1 l2 : sumZ (l1 ++ l2) = (sumZ l1 + sumZ l2)%Z.
Proof. induction l1 as [|x l1 IH]; simpl; [done | rewrite IH; lia]. Qed.

Lemma sumZ_insert l (k : nat) (x y : Z) :
  l !! k = Some x → sumZ (<[k := y]> l) = (sumZ l - x + y)%Z.
Proof.
  revert k. induction l as [|a l IH]; intros [|k]; simpl; try done.
  - intros [= ->]. lia.
  - intros H. rewrite (IH _ H). lia.
Qed.

Lemma sumZ_le l1 l2 : Forall2 Z.le l1 l2 → (sumZ l1 ≤ sumZ l2)%Z.
Proof. induction 1; simpl; lia. Qed.

Lemma sumZ_take_S l (k : nat) (x : Z) :
  l !! k = Some x → sumZ (take (S k) l) = (sumZ (take k l) + x)%Z.
Proof.
  intros H. rewrite (take_S_r _ _ _ H), sumZ_app. simpl. lia.
Qed.

Lemma occ_nil c : occ c [] = 0%Z.
Proof. done. Qed.

Lemma occ_app c l1 l2 : occ c (l1 ++ l2) = (occ c l1 + occ c l2)%Z.
Proof. unfold occ. rewrite list.filter_app, length_app. lia. Qed.

Lemma occ_cons c x l :
  occ c (x :: l) = ((if decide (x = c) then 1 else 0) + occ c l)%Z.
Proof.
  unfold occ. rewrite list.filter_cons. case_decide; simpl; lia.
Qed.

Lemma occ_bounds c l : (0 ≤ occ c l ≤ Z.of_nat (length l))%Z.
Proof.
  unfold occ. pose proof (list.length_filter (λ x, x = c) l). lia.
Qed.

Lemma occ_Permutation c l1 l2 : l1 ≡ₚ l2 → occ c l1 = occ c l2.
Proof. intros H. unfold occ. by rewrite H. Qed.

Lemma occ_all c l : Forall (λ x, x = c) l → occ c l = Z.of_nat (length l).
Proof.
  induction 1 as [|x l Hx _ IH]; [done|].
  rewrite occ_cons, IH. case_decide; [simpl; lia | done].
Qed.

Lemma occ_elem c l : c ∈ l → (1 ≤ occ c l)%Z.
Proof.
  induction 1 as [x l|x y l _ IH]; rewrite occ_cons.
  - pose proof (occ_bounds x l). case_decide; [lia | done].
  - case_decide; lia.
Qed.

(** A cell that fills the slots [a .. b-1] and also sits at a slot outside
    them occurs at least [b - a + 1] times. *)
Lemma occ_slice_extra c (l : list Z) (a b i : nat) :
  a ≤ b ≤ length l →
  (∀ k, a ≤ k < b → l !! k = Some c) →
  l !! i = Some c → ¬ (a ≤ i < b) →
  (Z.of_nat (b - a) + 1 ≤ occ c l)%Z.
Proof.
  intros Hab Hfill Hi Hout.
  rewrite <- (take_drop a l), occ_app.
  rewrite <- (take_drop (b - a) (drop a l)), occ_app.
  assert (occ c (take (b - a) (drop a l)) = Z.of_nat (b - a)) as ->.
  { rewrite occ_all.
    - rewrite length_take, length_drop. lia.
    - apply Forall_lookup. intros k x Hk.
      apply lookup_take_Some in Hk as [Hk ?].
      rewrite lookup_drop in Hk.
      rewrite Hfill in Hk by lia. congruence. }
  pose proof (occ_bounds c (take a l)).
  pose proof (occ_bounds c (drop (b - a) (drop a l))).
  destruct (decide (i < a)).
  - assert (1 ≤ occ c (take a l))%Z; [|lia].
    apply occ_elem, list_elem_of_lookup. exists i.
    by rewrite lookup_take_lt.
  - assert (1 ≤ occ c (drop (b - a) (drop a l)))%Z; [|lia].
    apply occ_elem, list_elem_of_lookup. exists (i - b).
    rewrite !lookup_drop. by replace (a + (b - a + (i - b))) with i by lia.
Qed.

(** ** [Grid]: cell numbers *)

Lemma linear_valid g c :
  grid_wf g → valid_cell g c →
  Grid.linear g c
  = (i_z c * (i_x (Grid._size g) * i_y (Grid._size g))
     + i_y c * i_x (Grid._size g) + i_x c)%Z
  ∧ (0 ≤ Grid.linear g c < Grid.cellCount g)%Z.
Proof.
  intros (Hx & Hy & Hz & Hc & _) (Vx & Vy & Vz).
  unfold Grid.cellCount, prod in *. unfold Grid.linear.
  set (sx := i_x (Grid._size g)) in *. set (sy := i_y (Grid._size g)) in *.
  set (sz := i_z (Grid._size g)) in *.
  assert (0 ≤ i_z c * (sx * sy) + i_y c * sx + i_x c < sx * sy * sz)%Z.
  { split; [nia|].
    assert (i_y c * sx + i_x c < sx * sy)%Z by nia.
    assert (i_z c * (sx * sy) + sx * sy ≤ sx * sy * sz)%Z by nia.
    lia. }
  rewrite wrap64_id by lia. split; [done | lia].
Qed.

(** ** [Grid::update]: the counting loop *)

Section CountPass.
Context (g : Grid.t) (positions : list Vector3f).
Let K := Z.to_nat (Grid.cellCount g).
Let N := length positions.
Let cs := Grid.indexLinear g <$> positions.

Hypothesis cells_in_range :
  Forall (λ c, 0 ≤ c < Grid.cellCount g)%Z cs.
Hypothesis count_fits : (Z.of_nat N < 2 ^ 32)%Z.
Hypothesis cells_fit : (Grid.cellCount g < 2 ^ 32)%Z.

Lemma length_cells : length cs = N.
Proof. unfold cs. by rewrite length_fmap. Qed.

Lemma countBody_inv i st :
  i < N → count_inv g cs i st →
  ∃ st', Grid.countBody g positions i st = Some st'
         ∧ count_inv g cs (S i) st'.
Proof.
  intros Hi (Hl & Ht & Hk & Hc & Hs). destruct st as [ind cnt]. simpl in *.
  pose proof length_cells as Hcs. rewrite Hcs in Hl. fold K in Hk, Hc.
  destruct (lookup_lt_is_Some_2 positions i Hi) as [p Hp].
  assert (cs !! i = Some (Grid.indexLinear g p)) as Hci
    by (unfold cs; by rewrite list_lookup_fmap, Hp).
  pose proof (Forall_lookup_1 _ _ _ _ cells_in_range Hci) as Hr.
  simpl in Hr. set (c := Grid.indexLinear g p) in *.
  unfold Grid.countBody. rewrite Hp. simpl. fold c.
  rewrite (wrap32_id c) by lia.
  assert (Z.to_nat c < K) as HcK by (unfold K; lia).
  pose proof (Hc _ HcK) as Hcc. rewrite Z2Nat.id in Hcc by lia.
  assert (at_ cnt c = Some (occ c (take i cs))) as ->
    by (apply at_Some; split; [lia | done]).
  simpl. eexists. split; [done|].
  pose proof (occ_bounds c (take i cs)) as Hb.
  rewrite length_take in Hb.
  rewrite wrap32_id by lia.
  unfold count_inv. simpl. rewrite !length_insert. fold K.
  split_and!; try done.
  - by rewrite Hcs.
  - rewrite (take_S_r cs i c Hci).
    rewrite (take_S_r (<[i:=c]> ind) i c).
    + by rewrite take_insert_ge, Ht by lia.
    + apply list_lookup_insert_eq. lia.
  - intros c' Hc'. rewrite (take_S_r cs i c Hci), occ_app, occ_cons, occ_nil.
    destruct (decide (c' = Z.to_nat c)) as [->|Hne].
    + rewrite list_lookup_insert_eq by lia.
      rewrite Z2Nat.id by lia. rewrite decide_True by done. f_equal; lia.
    + rewrite list_lookup_insert_ne by done. rewrite Hc by done.
      rewrite decide_False by lia. f_equal; lia.
  - rewrite (sumZ_insert _ _ _ _ (Hc _ HcK)). rewrite Z2Nat.id by lia. lia.
Qed.

Lemma countPass_spec :
  ∃ cnt, Grid.countPass g positions = Some (cs, cnt) ∧ length cnt = K ∧
         (∀ c : nat, c < K → cnt !! c = Some (occ (Z.of_nat c) cs)) ∧
         sumZ cnt = Z.of_nat N.
Proof.
  unfold Grid.countPass. pose proof length_cells as Hcs.
  destruct (forM_seq_inv (Grid.countBody g positions) (count_inv g cs) N 0
              (replicate N 0%Z, replicate K 0%Z))
    as ([ind cnt] & Hrun & Hl & Ht & Hk & Hc & Hs).
  - unfold count_inv. simpl. rewrite !length_replicate. fold K.
    split_and!; try done.
    + intros c Hc. by rewrite lookup_replicate_2.
    + clear. induction K; simpl; lia.
  - intros i st Hi. apply countBody_inv. lia.
  - simpl in *. fold N K. rewrite Hrun. fold K in Hk, Hc.
    rewrite <- Hcs in Ht at 2. rewrite firstn_all in Ht.
    rewrite <- Hcs, <- Hl, firstn_all in Ht.
    subst ind. exists cnt. split_and!; try done.
    intros c Hc'. rewrite (Hc c Hc'). by rewrite <- Hcs, firstn_all.
Qed.
End CountPass.

(** ** [Grid::update]: the running totals *)

Lemma prefix_0 cnt : prefix cnt 0 = 0%Z.
Proof. done. Qed.

Lemma prefix_S cnt (c : nat) x :
  cnt !! c = Some x → prefix cnt (S c) = (prefix cnt c + x)%Z.
Proof. apply sumZ_take_S. Qed.

Lemma prefix_all cnt : prefix cnt (length cnt) = sumZ cnt.
Proof. unfold prefix. by rewrite firstn_all. Qed.

Lemma prefix_mono cnt (c c' : nat) :
  Forall (λ x, 0 ≤ x)%Z cnt → c ≤ c' → (prefix cnt c ≤ prefix cnt c')%Z.
Proof.
  intros Hpos. induction 1 as [|c' _ IH]; [done|].
  destruct (cnt !! c') as [x|] eqn:E.
  - rewrite (prefix_S _ _ _ E).
    pose proof (Forall_lookup_1 _ _ _ _ Hpos E). simpl in *. lia.
  - unfold prefix in *. apply lookup_ge_None in E.
    rewrite (take_ge cnt (S c')) by lia. by rewrite (take_ge cnt c') in IH by lia.
Qed.

Lemma prefix_bounds cnt (c : nat) :
  Forall (λ x, 0 ≤ x)%Z cnt → (0 ≤ prefix cnt c ≤ sumZ cnt)%Z.
Proof.
  intros Hpos. split.
  - rewrite <- (prefix_0 cnt). apply prefix_mono; [done | lia].
  - destruct (decide (c ≤ length cnt)).
    + rewrite <- prefix_all. by apply prefix_mono.
    + unfold prefix. rewrite take_ge by lia. done.
Qed.

Lemma prefix_telescope cnt (n : nat) :
  (sumZ ((λ c, prefix cnt (S c)) <$> seq 0 n)
   - sumZ (prefix cnt <$> seq 0 n) = prefix cnt n)%Z.
Proof.
  induction n as [|n IH]; [done|].
  rewrite seq_S, !fmap_app, !sumZ_app. simpl. lia.
Qed.

Section OffsetPass.
Context (g : Grid.t) (cnt : list Z).
Let K := Z.to_nat (Grid.cellCount g).

Hypothesis cnt_length : length cnt = K.
Hypothesis cnt_pos : Forall (λ x, 0 ≤ x)%Z cnt.
Hypothesis cnt_fits : (sumZ cnt < 2 ^ 32)%Z.
Hypothesis offs_length : length (Grid._cellOffset g) = S K.

Lemma offsetBody_inv i st :
  i < K → offset_inv cnt (S K) i st →
  ∃ st', Grid.offsetBody cnt i st = Some st'
         ∧ offset_inv cnt (S K) (S i) st'.
Proof.
  intros Hi. destruct st as [[index cidx] offs].
  intros (-> & Hlc & Hlo & Hpre).
  unfold Grid.offsetBody.
  destruct (lookup_lt_is_Some_2 offs i) as [o ->]; [lia|].
  destruct (lookup_lt_is_Some_2 cnt i) as [x Hx]; [lia|].
  rewrite Hx. simpl. eexists. split; [done|].
  pose proof (prefix_bounds cnt i cnt_pos).
  pose proof (prefix_bounds cnt (S i) cnt_pos) as HS.
  rewrite (prefix_S _ _ _ Hx) in HS.
  unfold offset_inv. rewrite !length_insert.
  rewrite wrap64_id, wrap32_id by lia.
  split_and!; try done.
  - by rewrite (prefix_S _ _ _ Hx).
  - intros c Hc. destruct (decide (c = i)) as [->|Hne].
    + rewrite !list_lookup_insert_eq by lia. done.
    + rewrite !list_lookup_insert_ne by done. apply Hpre. lia.
Qed.

Lemma offsetPass_spec :
  ∃ cidx offs,
    Grid.offsetPass g cnt = Some (cidx, offs) ∧
    length cidx = K ∧ length offs = S K ∧
    (∀ c : nat, c < K → cidx !! c = Some (prefix cnt c)) ∧
    (∀ c : nat, c ≤ K → offs !! c = Some (prefix cnt c)).
Proof.
  unfold Grid.offsetPass. fold K.
  destruct (forM_seq_inv (Grid.offsetBody cnt) (offset_inv cnt (S K)) K 0
              (0%Z, replicate K 0%Z, Grid._cellOffset g))
    as ([[index cidx] offs] & -> & Hi & Hlc & Hlo & Hpre).
  - unfold offset_inv. rewrite length_replicate.
    split_and!; try done. intros c Hc. lia.
  - intros i st Hi. apply offsetBody_inv. lia.
  - simpl in *. rewrite Hlo. exists cidx, (<[K:=index]> offs).
    rewrite length_insert.
    split_and!; try done; try lia.
    + intros c Hc. by apply Hpre.
    + intros c Hc. destruct (decide (c = K)) as [->|Hne].
      * rewrite list_lookup_insert_eq by lia. by subst.
      * rewrite list_lookup_insert_ne by done. apply Hpre. lia.
Qed.
End OffsetPass.

(** ** [Grid::update]: the sort *)

Section SortPass.
Context {A : Type} (swap : nat → nat → A → option A).
Context (cs cnt offs : list Z) (J : list Z → list Z → A → Prop).
Let K := length cnt.
Let N := length cs.

Hypothesis cnt_occ :
  ∀ c : nat, c < K → cnt !! c = Some (occ (Z.of_nat c) cs).
Hypothesis cnt_sum : sumZ cnt = Z.of_nat N.
Hypothesis cs_range : Forall (λ c, 0 ≤ c < Z.of_nat K)%Z cs.
Hypothesis count_fits : (Z.of_nat N < 2 ^ 32)%Z.
Hypothesis offs_prefix :
  ∀ c : nat, c ≤ K → offs !! c = Some (prefix cnt c).
(** The caller's [swap] succeeds on slots in range and keeps [J]. *)
Hypothesis swap_ok :
  ∀ ind cidx a (i j c : nat),
    i < N → j < N → c < K →
    sort_inv cs cnt i ind cidx →
    ind !! i = Some (Z.of_nat c) → cidx !! c = Some (Z.of_nat j) →
    ¬ (prefix cnt c ≤ Z.of_nat i < Z.of_nat j)%Z →
    (Z.of_nat j < prefix cnt (S c))%Z →
    J ind cidx a →
    ∃ a', swap i j a = Some a' ∧
          ∀ ind', swap_at ind i j = Some ind' →
                  J ind' (<[c := (Z.of_nat j + 1)%Z]> cidx) a'.

Lemma cnt_pos : Forall (λ x, 0 ≤ x)%Z cnt.
Proof.
  apply Forall_lookup. intros c x Hx.
  assert (c < K) as Hc by by eapply lookup_lt_Some.
  rewrite (cnt_occ _ Hc) in Hx. injection Hx as <-. apply occ_bounds.
Qed.

Lemma prefix_K : prefix cnt K = Z.of_nat N.
Proof. unfold K. by rewrite prefix_all. Qed.

Lemma prefix_le_N (c : nat) : (0 ≤ prefix cnt c ≤ Z.of_nat N)%Z.
Proof. rewrite <- cnt_sum. apply prefix_bounds, cnt_pos. Qed.

Lemma slice_width (c : nat) :
  c < K →
  (prefix cnt (S c) = prefix cnt c + occ (Z.of_nat c) cs)%Z.
Proof. intros Hc. by apply prefix_S, cnt_occ. Qed.

Lemma slice_disjoint (c c' : nat) (k : Z) :
  (prefix cnt c ≤ k < prefix cnt (S c))%Z →
  (prefix cnt c' ≤ k < prefix cnt (S c'))%Z → c = c'.
Proof.
  intros H1 H2. pose proof cnt_pos as Hp.
  destruct (Nat.lt_trichotomy c c') as [Hlt|[->|Hlt]]; [|done|].
  - pose proof (prefix_mono cnt (S c) c' Hp Hlt). lia.
  - pose proof (prefix_mono cnt (S c') c Hp Hlt). lia.
Qed.

Lemma swaps_done_bounds i ind cidx :
  sort_inv cs cnt i ind cidx →
  (0 ≤ swaps_done cnt cidx ≤ Z.of_nat N)%Z.
Proof.
  intros (Hl & _ & HB & _). fold K in Hl, HB. unfold swaps_done. fold K.
  pose proof (prefix_telescope cnt K) as Ht. rewrite prefix_K in Ht.
  assert (sumZ (prefix cnt <$> seq 0 K) ≤ sumZ cidx)%Z.
  { apply sumZ_le, Forall2_same_length_lookup.
    split; [by rewrite length_fmap, length_seq|].
    intros c x y Hx Hy. apply list_lookup_fmap_Some in Hx as (c' & -> & Hc').
    apply lookup_seq in Hc' as [-> Hc]. simpl in *.
    apply list_lookup_total_correct in Hy as <-. by apply HB. }
  assert (sumZ cidx ≤ sumZ ((λ c, prefix cnt (S c)) <$> seq 0 K))%Z.
  { apply sumZ_le, Forall2_same_length_lookup.
    split; [by rewrite length_fmap, length_seq|].
    intros c x y Hx Hy. apply list_lookup_fmap_Some in Hy as (c' & -> & Hc').
    apply lookup_seq in Hc' as [-> Hc]. simpl in *.
    apply list_lookup_total_correct in Hx as <-. by apply HB. }
  lia.
Qed.

Lemma sort_inv_length i ind cidx :
  sort_inv cs cnt i ind cidx → length ind = N.
Proof. intros (_ & Hp & _). unfold N. by rewrite Hp. Qed.

Lemma sort_inv_cell i ind cidx (k : nat) x :
  sort_inv cs cnt i ind cidx → ind !! k = Some x →
  ∃ c : nat, c < K ∧ x = Z.of_nat c.
Proof.
  intros (_ & Hp & _) Hk.
  assert (x ∈ cs) as Hx by (rewrite <- Hp; by eapply list_elem_of_lookup_2).
  pose proof cs_range as Hr. rewrite list.Forall_forall in Hr.
  specialize (Hr x Hx). simpl in Hr.
  exists (Z.to_nat x). lia.
Qed.

(** A slot whose particle is not in the filled part of its cell's slice
    finds that slice not full yet. *)
Lemma sort_progress i ind cidx (c : nat) :
  sort_inv cs cnt i ind cidx → i < N → c < K →
  ind !! i = Some (Z.of_nat c) →
  ¬ (prefix cnt c ≤ Z.of_nat i < cidx !!! c)%Z →
  (cidx !!! c < prefix cnt (S c))%Z.
Proof.
  intros Hinv Hi Hc Hic Hout.
  pose proof (sort_inv_length _ _ _ Hinv) as Hlen.
  destruct Hinv as (Hl & Hp & HB & HF & _). fold K in Hl, HB, HF.
  pose proof (HB c Hc) as Hb. pose proof (prefix_le_N c).
  pose proof (prefix_le_N (S c)).
  pose proof (occ_slice_extra (Z.of_nat c) ind
                (Z.to_nat (prefix cnt c)) (Z.to_nat (cidx !!! c)) i) as Hx.
  rewrite (occ_Permutation _ _ _ Hp) in Hx.
  rewrite (slice_width c Hc). 
  assert (Z.of_nat (Z.to_nat (cidx !!! c) - Z.to_nat (prefix cnt c)) + 1
          ≤ occ (Z.of_nat c) cs)%Z; [|lia].
  apply Hx; [lia | | done | lia].
  intros k Hk. apply HF; [done | lia].
Qed.

Lemma sortWhile_spec i : i < N →
  ∀ fuel ind cidx a,
    sort_inv cs cnt i ind cidx → J ind cidx a →
    (Z.of_nat N - swaps_done cnt cidx < Z.of_nat fuel)%Z →
    ∃ ind' cidx' a',
      Grid.sortWhile swap offs fuel i (ind, cidx, a)
      = Some (ind', cidx', a')
      ∧ sort_inv cs cnt (S i) ind' cidx' ∧ J ind' cidx' a'.
Proof.
  intros Hi fuel. induction fuel as [|fuel IH]; intros ind cidx a Hinv HJ Hfuel.
  { pose proof (swaps_done_bounds _ _ _ Hinv). lia. }
  pose proof (sort_inv_length _ _ _ Hinv) as Hlen.
  destruct (lookup_lt_is_Some_2 ind i) as [x Hx]; [lia|].
  destruct (sort_inv_cell _ _ _ _ _ Hinv Hx) as (c & Hc & ->).
  pose proof Hinv as (Hl & Hp & HB & HF & HD). fold K in Hl, HB, HF, HD.
  pose proof (HB c Hc) as Hb. pose proof (prefix_le_N c) as Hpc.
  pose proof (prefix_le_N (S c)) as HpS.
  assert (cidx !! c = Some (cidx !!! c)) as Hci
    by (apply list_lookup_lookup_total_lt; lia).
  set (ci := cidx !!! c) in *.
  simpl. unfold Grid.unplaced. rewrite Hx. simpl.
  rewrite !at_of_nat, Hci. simpl.
  rewrite (offs_prefix c) by lia. simpl.
  destruct (decide (prefix cnt c ≤ Z.of_nat i < ci)%Z) as [Hin|Hout].
  - (* the particle at [i] is in place: the loop ends *)
    assert ((if (ci <=? Z.of_nat i)%Z then Some true
             else Some (Z.of_nat i <? prefix cnt c)%Z) = Some false) as ->.
    { destruct (Z.leb_spec ci (Z.of_nat i)); [lia|].
      destruct (Z.ltb_spec (Z.of_nat i) (prefix cnt c)); [lia | done]. }
    simpl. exists ind, cidx, a. split_and!; try done.
    unfold sort_inv. fold K. split_and!; try done.
    intros k Hk. destruct (decide (k = i)) as [->|Hne].
    + exists c. done.
    + apply HD. lia.
  - (* it is not: one swap, then again *)
    assert ((if (ci <=? Z.of_nat i)%Z then Some true
             else Some (Z.of_nat i <? prefix cnt c)%Z) = Some true) as ->.
    { destruct (Z.leb_spec ci (Z.of_nat i)); [done|].
      destruct (Z.ltb_spec (Z.of_nat i) (prefix cnt c)); [done | lia]. }
    simpl.
    pose proof (sort_progress _ _ _ _ Hinv Hi Hc Hx Hout) as Hprog.
    fold ci in Hprog.
    set (j := Z.to_nat ci).
    assert (j < N) as Hj by lia.
    assert (Z.of_nat j = ci) as Hjci by lia.
    destruct (swap_at_Some ind i j) as [ind' Hsw]; [lia | lia |].
    rewrite Hsw. simpl.
    rewrite <- Hjci in Hci.
    destruct (swap_ok ind cidx a i j c Hi Hj Hc Hinv Hx Hci) as (a' & -> & HJ');
      [lia | lia | done |].
    simpl. rewrite Nat2Z.id, wrap32_id by lia.
    rewrite <- Hjci. apply IH; [| by apply HJ' |].
    + (* the invariant survives the swap *)
      unfold sort_inv. fold K. rewrite length_insert.
      assert (∀ c' : nat,
                <[c:=(Z.of_nat j + 1)%Z]> cidx !!! c'
                = if decide (c' = c) then (ci + 1)%Z else cidx !!! c')
        as Hnew.
      { intros c'. case_decide as Hcc.
        - subst c'. rewrite list_lookup_total_insert_eq by lia. lia.
        - by rewrite list_lookup_total_insert_ne. }
      split_and!.
      * done.
      * by rewrite (swap_at_Permutation _ _ _ _ Hsw).
      * intros c' Hc'. rewrite Hnew. case_decide; [subst; lia | by apply HB].
      * intros c' k Hc' Hk. rewrite Hnew in Hk.
        rewrite (swap_at_lookup _ _ _ _ k Hsw).
        pose proof (HB c' Hc') as Hb'.
        destruct (decide (k = j)) as [->|Hkj].
        { rewrite Hx. f_equal. f_equal.
          apply (slice_disjoint c c' ci); [lia|].
          case_decide; [subst; lia | lia]. }
        destruct (decide (k = i)) as [->|Hki].
        { exfalso. case_decide as Hcc.
          - subst c'. apply Hout. fold ci in Hk. lia.
          - pose proof (HF c' i Hc' Hk) as Hii. rewrite Hx in Hii.
            injection Hii as Hii. lia. }
        apply HF; [done|]. case_decide; [subst; fold ci; lia | done].
      * intros k Hk. destruct (HD k Hk) as (c' & Hc' & Hkc & Hr).
        pose proof (HB c' Hc') as Hb'.
        exists c'. rewrite Hnew.
        rewrite (swap_at_lookup _ _ _ _ k Hsw).
        destruct (decide (k = j)) as [->|Hkj].
        { exfalso.
          assert (c = c') as <-
            by (apply (slice_disjoint c c' ci); lia).
          fold ci in Hr. lia. }
        rewrite decide_False by lia.
        split_and!; try done; [lia | case_decide; [subst; fold ci in Hr; lia | lia]].
    + unfold swaps_done in *. rewrite (sumZ_insert _ _ _ _ Hci). lia.
Qed.

Lemma sortPass_spec fuel ind cidx a :
  N < fuel →
  sort_inv cs cnt 0 ind cidx → J ind cidx a →
  ∃ ind' cidx' a',
    Grid.sortPass swap offs fuel N (ind, cidx, a) = Some (ind', cidx', a')
    ∧ sort_inv cs cnt N ind' cidx' ∧ J ind' cidx' a'.
Proof.
  intros Hfuel Hinv HJ. unfold Grid.sortPass.
  destruct (forM_seq_inv (Grid.sortWhile swap offs fuel)
              (λ i st, sort_inv cs cnt i st.1.1 st.1.2 ∧ J st.1.1 st.1.2 st.2)
              N 0 (ind, cidx, a))
    as ([[ind' cidx'] a'] & Hrun & Hinv' & HJ'); [done | |].
  - intros i [[ind1 cidx1] a1] Hi [Hinv1 HJ1]. simpl in *.
    destruct (sortWhile_spec i ltac:(lia) fuel ind1 cidx1 a1)
      as (ind2 & cidx2 & a2 & -> & ? & ?); try done.
    + pose proof (swaps_done_bounds _ _ _ Hinv1). lia.
    + by exists (ind2, cidx2, a2).
  - exists ind', cidx', a'. done.
Qed.
End SortPass.

(** ** [Grid::update] as a whole *)

Lemma populations_lookup K cs (c : nat) :
  c < K → populations K cs !! c = Some (occ (Z.of_nat c) cs).
Proof.
  intros Hc. unfold populations.
  rewrite list_lookup_fmap, lookup_seq_lt by done. done.
Qed.

Lemma populations_length K cs : length (populations K cs) = K.
Proof. unfold populations. by rewrite length_fmap, length_seq. Qed.

Lemma cells_valid g positions :
  grid_wf g →
  Forall (λ p, valid_cell g (Grid.index g p)) positions →
  Forall (λ c, 0 ≤ c < Grid.cellCount g)%Z (Grid.indexLinear g <$> positions).
Proof.
  intros Hwf Hv. apply Forall_fmap. eapply list.Forall_impl; [exact Hv|].
  intros p Hp. simpl. unfold Grid.indexLinear.
  by destruct (linear_valid g _ Hwf Hp) as [_ ?].
Qed.

Section Update.
Context {A : Type} (swap : nat → nat → A → option A).
Context (g : Grid.t) (positions : list Vector3f).
Context (J : list Z → list Z → A → Prop).
Let K := Z.to_nat (Grid.cellCount g).
Let N := length positions.
Let cs := Grid.indexLinear g <$> positions.
Let cnt := populations K cs.

Hypothesis wf : grid_wf g.
Hypothesis valid : Forall (λ p, valid_cell g (Grid.index g p)) positions.
Hypothesis count_fits : (Z.of_nat N < 2 ^ 32)%Z.
Hypothesis swap_ok :
  ∀ ind cidx a (i j c : nat),
    i < N → j < N → c < K →
    sort_inv cs cnt i ind cidx →
    ind !! i = Some (Z.of_nat c) → cidx !! c = Some (Z.of_nat j) →
    ¬ (prefix cnt c ≤ Z.of_nat i < Z.of_nat j)%Z →
    (Z.of_nat j < prefix cnt (S c))%Z →
    J ind cidx a →
    ∃ a', swap i j a = Some a' ∧
          ∀ ind', swap_at ind i j = Some ind' →
                  J ind' (<[c := (Z.of_nat j + 1)%Z]> cidx) a'.

Lemma countPass_populations :
  Grid.countPass g positions = Some (cs, cnt) ∧ sumZ cnt = Z.of_nat N.
Proof.
  pose proof wf as (Hx & Hy & Hz & Hcc & Hlen).
  pose proof (cells_valid g positions wf valid) as Hcs. fold cs in Hcs.
  destruct (countPass_spec g positions Hcs count_fits ltac:(lia))
    as (cnt' & Hcount & Hlc & Hocc & Hsum).
  fold K cs N in Hlc, Hocc, Hsum, Hcount.
  assert (cnt' = cnt) as ->; [|done].
  apply list_eq_same_length with K; [by apply populations_length | done |].
  intros c x y Hc Hx' Hy'. rewrite (Hocc c Hc) in Hx'.
  unfold cnt in Hy'. rewrite (populations_lookup _ _ _ Hc) in Hy'.
  congruence.
Qed.

Lemma update_spec fuel a :
  N < fuel →
  (∀ cidx, length cidx = K →
           (∀ c : nat, c < K → cidx !! c = Some (prefix cnt c)) →
           J cs cidx a) →
  ∃ offs ind cidx a',
    Grid.update fuel g positions swap a
    = Some (Grid.set_cellOffset offs g, a')
    ∧ length offs = S K
    ∧ (∀ c : nat, c ≤ K → offs !! c = Some (prefix cnt c))
    ∧ sort_inv cs cnt N ind cidx ∧ J ind cidx a'.
Proof.
  intros Hfuel HJ0.
  pose proof wf as (Hx & Hy & Hz & Hcc & Hlen). fold K in Hlen.
  pose proof (cells_valid g positions wf valid) as Hcs. fold cs in Hcs.
  assert (length cs = N) as HlN by (unfold cs; by rewrite length_fmap).
  destruct countPass_populations as [Hcount Hsum].
  assert (length cnt = K) as Hlc by apply populations_length.
  assert (∀ c : nat, c < K → cnt !! c = Some (occ (Z.of_nat c) cs)) as Hocc
    by (intros; by apply populations_lookup).
  assert (Forall (λ x, 0 ≤ x)%Z cnt) as Hpos.
  { apply Forall_lookup. intros c x Hcx.
    assert (c < K) as Hc by (rewrite <- Hlc; by eapply lookup_lt_Some).
    rewrite (Hocc c Hc) in Hcx. injection Hcx as <-. apply occ_bounds. }
  destruct (offsetPass_spec g cnt Hlc Hpos ltac:(lia) Hlen)
    as (cidx0 & offs & Hoff & Hlci & Hlo & Hci0 & Hoffs). fold K in Hci0, Hoffs.
  assert (sort_inv cs cnt 0 cs cidx0) as Hinv0.
  { unfold sort_inv. rewrite Hlc. split_and!; try done.
    - intros c Hc. rewrite (list_lookup_total_correct _ _ _ (Hci0 c Hc)).
      split; [done|]. apply prefix_mono; [done | lia].
    - intros c k Hc. rewrite (list_lookup_total_correct _ _ _ (Hci0 c Hc)). lia.
    - intros k Hk. lia. }
  assert (Forall (λ c, 0 ≤ c < Z.of_nat (length cnt))%Z cs) as Hcs'.
  { eapply list.Forall_impl; [exact Hcs|]. intros c Hc. simpl in *. lia. }
  destruct (sortPass_spec swap cs cnt offs J) with (fuel := fuel)
    (ind := cs) (cidx := cidx0) (a := a)
    as (ind & cidx & a' & Hsort & Hinv & HJ); try done.
  - by rewrite Hlc.
  - by rewrite HlN.
  - by rewrite HlN.
  - by rewrite Hlc.
  - rewrite Hlc, HlN. apply swap_ok.
  - lia.
  - by apply HJ0.
  - exists offs, ind, cidx, a'. unfold Grid.update.
    rewrite Hcount. simpl. rewrite Hoff. simpl.
    rewrite HlN in Hsort. fold N. rewrite Hsort. simpl.
    rewrite HlN in Hinv. done.
Qed.
End Update.

Lemma swap_at_fmap {X Y} (f : X → Y) (v : list X) i j :
  swap_at (f <$> v) i j = (fmap (M := list) f) <$> swap_at v i j.
Proof.
  unfold swap_at. rewrite !list_lookup_fmap.
  destruct (v !! i); simpl; [|done]. destruct (v !! j); simpl; [|done].
  by rewrite !list_fmap_insert.
Qed.

(** What the state the sort ends in says about slots and slices. *)
Section Sorted.
Context (cs cnt offs ind cidx : list Z).
Let K := length cnt.
Let N := length cs.

Hypothesis cnt_occ :
  ∀ c : nat, c < K → cnt !! c = Some (occ (Z.of_nat c) cs).
Hypothesis cnt_sum : sumZ cnt = Z.of_nat N.
Hypothesis offs_prefix :
  ∀ c : nat, c ≤ K → offs !! c = Some (prefix cnt c).
Hypothesis sorted : sort_inv cs cnt N ind cidx.

Lemma in_slice_prefix (c : nat) (k : Z) :
  c < K → in_slice offs c k ↔ (prefix cnt c ≤ k < prefix cnt (S c))%Z.
Proof.
  intros Hc. unfold in_slice.
  rewrite (offs_prefix c), (offs_prefix (S c)) by lia. split.
  - intros (lo & hi & [= <-] & [= <-] & ?). done.
  - intros ?. eauto.
Qed.

Lemma sorted_slot (k : nat) :
  k < N →
  ∃ c : nat, c < K ∧ ind !! k = Some (Z.of_nat c)
             ∧ in_slice offs c (Z.of_nat k).
Proof.
  intros Hk. destruct sorted as (_ & _ & HB & _ & HD). fold K in HB, HD.
  destruct (HD k Hk) as (c & Hc & Hkc & Hr). exists c.
  split_and!; try done. apply in_slice_prefix; [done|].
  pose proof (HB c Hc). lia.
Qed.

Lemma sorted_slice (c k : nat) :
  c < K → in_slice offs c (Z.of_nat k) →
  k < N ∧ ind !! k = Some (Z.of_nat c).
Proof.
  intros Hc Hin. apply in_slice_prefix in Hin; [|done].
  pose proof (prefix_le_N cs cnt cnt_occ cnt_sum (S c)) as Hle. fold N in Hle.
  assert (k < N) as Hk by lia. split; [done|].
  destruct (sorted_slot k Hk) as (c' & Hc' & Hkc & Hin').
  apply in_slice_prefix in Hin'; [|done].
  by rewrite (slice_disjoint cs cnt cnt_occ c c' (Z.of_nat k) Hin Hin').
Qed.

Lemma sorted_unique (c c' : nat) (k : Z) :
  c < K → c' < K → in_slice offs c k → in_slice offs c' k → c = c'.
Proof.
  intros Hc Hc' H1 H2. apply in_slice_prefix in H1, H2; try done.
  by apply (slice_disjoint cs cnt cnt_occ c c' k).
Qed.

Lemma sorted_range (c : nat) (k : Z) :
  c < K → in_slice offs c k → (0 ≤ k < Z.of_nat N)%Z.
Proof.
  intros Hc H1. apply in_slice_prefix in H1; [|done].
  pose proof (prefix_le_N cs cnt cnt_occ cnt_sum (S c)).
  pose proof (prefix_le_N cs cnt cnt_occ cnt_sum c). unfold N. lia.
Qed.

Lemma sorted_offsets :
  offs !! 0 = Some 0%Z ∧ offs !! K = Some (Z.of_nat N) ∧
  ∀ (c : nat) lo hi,
    offs !! c = Some lo → offs !! S c = Some hi → c < K → (lo ≤ hi)%Z.
Proof.
  split_and!.
  - by rewrite offs_prefix by lia.
  - rewrite offs_prefix by lia. f_equal. rewrite <- cnt_sum.
    apply prefix_all.
  - intros c lo hi Hlo Hhi Hc.
    rewrite offs_prefix in Hlo, Hhi by lia.
    injection Hlo as <-. injection Hhi as <-.
    apply prefix_mono; [by eapply cnt_pos | lia].
Qed.
End Sorted.

(** C6.  After [Grid::update] on particles that all map to cells of the
    grid, with the caller swapping its positions along: every slot of the
    slice [[offset[c], offset[c+1])] holds a particle whose position maps
    to cell [c]; every slot of [[0, N)] lies in the slice of exactly one
    cell and the slices stay inside [[0, N)]; there are [cellCount + 1]
    offsets and the last one is [N].  The particle count is one that the
    32-bit counters of [update] can hold, and [fuel] is enough for the
    inner loop. *)
Theorem Grid_update_partition (fuel : nat) (g : Grid.t)
    (positions : list Vector3f) :
  grid_wf g →
  Forall (λ p, valid_cell g (Grid.index g p)) positions →
  (Z.of_nat (length positions) < 2 ^ 32)%Z →
  length positions < fuel →
  ∃ g' positions',
    Grid.update fuel g positions swap_vec positions = Some (g', positions') ∧
    positions' ≡ₚ positions ∧
    let offs := Grid._cellOffset g' in
    let K := Z.to_nat (Grid.cellCount g') in
    let N := length positions' in
    (∀ (c k : nat) p,
       c < K → in_slice offs c (Z.of_nat k) → positions' !! k = Some p →
       Grid.indexLinear g' p = Z.of_nat c) ∧
    (∀ k : nat, k < N →
       ∃ c : nat, c < K ∧ in_slice offs c (Z.of_nat k) ∧
                  ∀ c' : nat, c' < K → in_slice offs c' (Z.of_nat k) → c' = c) ∧
    (∀ (c : nat) (k : Z), c < K → in_slice offs c k → (0 ≤ k < Z.of_nat N)%Z) ∧
    length offs = S K ∧ list.last offs = Some (Z.of_nat N).
Proof.
  intros Hwf Hvalid Hfits Hfuel.
  set (K := Z.to_nat (Grid.cellCount g)).
  set (cs := Grid.indexLinear g <$> positions).
  set (cnt := populations K cs).
  destruct (update_spec swap_vec g positions
              (λ ind _ ps, ps ≡ₚ positions ∧ ind = Grid.indexLinear g <$> ps)
              Hwf Hvalid Hfits) with (fuel := fuel) (a := positions)
    as (offs & ind & cidx & ps & Hup & Hlo & Hoffs & Hsorted & Hperm & Hind);
    try done.
  { intros ind cidx ps i j c Hi Hj _ _ _ _ _ _ [Hp ->].
    destruct (swap_at_Some ps i j) as [ps' Hps']; [by rewrite Hp..|].
    exists ps'. split; [done|]. intros ind' Hind'. split.
    - by rewrite (swap_at_Permutation _ _ _ _ Hps').
    - rewrite swap_at_fmap, Hps' in Hind'. by injection Hind' as <-. }
  fold K cs cnt in Hoffs, Hsorted.
  assert (length cs = length positions) as HlN
    by (unfold cs; by rewrite length_fmap).
  assert (length cnt = K) as Hlc by apply populations_length.
  assert (∀ c : nat, c < length cnt → cnt !! c = Some (occ (Z.of_nat c) cs))
    as Hocc by (intros c Hc; apply populations_lookup; lia).
  assert (sumZ cnt = Z.of_nat (length cs)) as Hsum.
  { rewrite HlN. by apply (countPass_populations g positions). }
  assert (∀ c : nat, c ≤ length cnt → offs !! c = Some (prefix cnt c))
    as Hoffs' by (intros c Hc; apply Hoffs; lia).
  rewrite <- HlN in Hsorted.
  exists (Grid.set_cellOffset offs g), ps. split; [done|]. split; [done|].
  change (Grid.cellCount (Grid.set_cellOffset offs g))
    with (Grid.cellCount g).
  change (Grid.indexLinear (Grid.set_cellOffset offs g))
    with (Grid.indexLinear g).
  assert (length ps = length cs) as -> by (by rewrite Hperm).
  simpl. fold K.
  split_and!.
  - intros c k p Hc Hin Hp.
    destruct (sorted_slice cs cnt offs ind cidx Hocc Hsum Hoffs' Hsorted c k)
      as [_ Hk]; [lia | done |].
    rewrite Hind, list_lookup_fmap, Hp in Hk. by injection Hk.
  - intros k Hk.
    destruct (sorted_slot cs cnt offs ind cidx Hoffs' Hsorted k Hk)
      as (c & Hc & _ & Hin).
    exists c. split_and!; [lia | done |].
    intros c' Hc' Hin'.
    apply (sorted_unique cs cnt offs Hocc Hoffs' c' c (Z.of_nat k)); [lia..|done|done].
  - intros c k Hc. apply (sorted_range cs cnt offs Hocc Hsum Hoffs'). lia.
  - done.
  - rewrite last_lookup, Hlo. simpl.
    destruct (sorted_offsets cs cnt offs Hocc Hsum Hoffs') as (_ & HK & _).
    by rewrite Hlc in HK.
Qed.

(** ** The swaps [Grid::update] emits *)

Lemma forM_sim {X St T} (R : St → T → Prop) (f : X → St → option St)
    (g : X → T → option T) l :
  (∀ x s t s', R s t → f x s = Some s' → ∃ t', g x t = Some t' ∧ R s' t') →
  ∀ s t s', R s t → forM f l s = Some s' →
            ∃ t', forM g l t = Some t' ∧ R s' t'.
Proof.
  intros Hstep. induction l as [|x l IH]; intros s t s' HR; simpl.
  - intros [= <-]. eauto.
  - destruct (f x s) as [s1|] eqn:E; simpl; [|done]. intros Hrun.
    destruct (Hstep x s t s1 HR E) as (t1 & -> & HR1). simpl. eauto.
Qed.

(** Two callbacks that stay related make [update] end in related states,
    with the same grid. *)
Section Simulation.
Context {A B : Type} (R : A → B → Prop).
Context (f : nat → nat → A → option A) (h : nat → nat → B → option B).
Hypothesis step :
  ∀ i j a b a', R a b → f i j a = Some a' →
                ∃ b', h i j b = Some b' ∧ R a' b'.

Lemma sortWhile_sim offs fuel i :
  ∀ ind cidx a b st',
    R a b → Grid.sortWhile f offs fuel i (ind, cidx, a) = Some st' →
    ∃ b', Grid.sortWhile h offs fuel i (ind, cidx, b)
          = Some (st'.1, b') ∧ R st'.2 b'.
Proof.
  induction fuel as [|fuel IH]; intros ind cidx a b st' HR; simpl; [done|].
  destruct (Grid.unplaced offs i ind cidx) as [[|]|]; simpl; [| |done].
  - destruct (ind !! i) as [c|]; simpl; [|done].
    destruct (at_ cidx c) as [j|]; simpl; [|done].
    destruct (swap_at ind i (Z.to_nat j)) as [ind'|]; simpl; [|done].
    destruct (f i (Z.to_nat j) a) as [a'|] eqn:E; simpl; [|done].
    destruct (step _ _ _ _ _ HR E) as (b' & -> & HR'). simpl.
    by apply IH.
  - intros [= <-]. eauto.
Qed.

Lemma update_sim fuel g positions a b g' a' :
  R a b → Grid.update fuel g positions f a = Some (g', a') →
  ∃ b', Grid.update fuel g positions h b = Some (g', b') ∧ R a' b'.
Proof.
  intros HR. unfold Grid.update.
  destruct (Grid.countPass g positions) as [[ind cnt]|]; simpl; [|done].
  destruct (Grid.offsetPass g cnt) as [[cidx offs]|]; simpl; [|done].
  destruct (Grid.sortPass f offs fuel (length positions) (ind, cidx, a))
    as [[[ind' cidx'] a1]|] eqn:E; simpl; [|done].
  intros [= <- <-].
  destruct (forM_sim (λ s t, t.1 = s.1 ∧ R s.2 t.2)
              (Grid.sortWhile f offs fuel) (Grid.sortWhile h offs fuel)
              (seq 0 (length positions))) with
    (s := (ind, cidx, a)) (t := (ind, cidx, b)) (s' := (ind', cidx', a1))
    as ([[ind2 cidx2] b2] & Hrun & Heq & HR2); try done.
  - intros i [[i1 c1] a2] [[i2 c2] b1] st' [Heq HR1] Hf. simpl in *.
    injection Heq as -> ->.
    destruct (sortWhile_sim _ _ _ _ _ _ _ _ HR1 Hf) as (b' & Hh & HR').
    exists (st'.1, b'). done.
  - unfold Grid.sortPass. rewrite Hrun. simpl in *.
    injection Heq as -> ->. eauto.
Qed.
End Simulation.

Lemma final_writes_snoc tr i j :
  final_writes (tr ++ [(i, j)])
  ↔ final_writes tr ∧ Forall (λ s, i ≠ s.2 ∧ j ≠ s.2) tr.
Proof.
  induction tr as [|[i0 j0] tr IH]; simpl.
  - split; [done | intros; split; [by apply Forall_nil | done]].
  - rewrite IH. rewrite list.Forall_app. rewrite !list.Forall_cons.
    rewrite list.Forall_nil. simpl. tauto.
Qed.

Lemma replay_snoc {X} tr i j (v : list X) :
  replay (tr ++ [(i, j)]) v = (w ← replay tr v; swap_at w i j).
Proof.
  unfold replay. rewrite forM_app. destruct (forM _ tr v) as [w|]; simpl; [|done].
  by destruct (swap_at w i j).
Qed.

Lemma replay_Permutation {X} tr n :
  Forall (λ s, s.1 < n ∧ s.2 < n) tr →
  ∀ v : list X, length v = n → ∃ v', replay tr v = Some v' ∧ v' ≡ₚ v.
Proof.
  induction 1 as [|[i j] tr [Hi Hj] _ IH]; intros v Hv; simpl in *.
  - by exists v.
  - destruct (swap_at_Some v i j) as [w Hw]; [lia..|].
    destruct (IH w) as (v' & Hv' & Hp); [by rewrite (swap_at_length _ _ _ _ Hw)|].
    exists v'. unfold replay in *. simpl. rewrite Hw. simpl. split; [done|].
    by rewrite Hp, (swap_at_Permutation _ _ _ _ Hw).
Qed.

(** One swap of the sort keeps [trace_inv]. *)
Lemma trace_step cs cnt ind cidx tr (i j c : nat) :
  (∀ c : nat, c < length cnt → cnt !! c = Some (occ (Z.of_nat c) cs)) →
  i < length cs → j < length cs → c < length cnt →
  sort_inv cs cnt i ind cidx →
  ind !! i = Some (Z.of_nat c) → cidx !! c = Some (Z.of_nat j) →
  ¬ (prefix cnt c ≤ Z.of_nat i < Z.of_nat j)%Z →
  (Z.of_nat j < prefix cnt (S c))%Z →
  trace_inv (length cs) cnt cidx tr →
  trace_inv (length cs) cnt (<[c := (Z.of_nat j + 1)%Z]> cidx)
            (tr ++ [(i, j)]).
Proof.
  intros Hocc Hi Hj Hc (Hl & _ & HB & HF & _) Hic Hcj Hout Hfree
         (Hall & Hlen & Hfin).
  pose proof (list_lookup_total_correct _ _ _ Hcj) as Hcj'.
  assert (∀ c' : nat,
            <[c:=(Z.of_nat j + 1)%Z]> cidx !!! c'
            = if decide (c' = c) then (Z.of_nat j + 1)%Z else cidx !!! c')
    as Hnew.
  { intros c'. case_decide as Hcc.
    - subst c'. by rewrite list_lookup_total_insert_eq by lia.
    - by rewrite list_lookup_total_insert_ne. }
  assert (∀ k, filled cnt cidx k
               → filled cnt (<[c:=(Z.of_nat j + 1)%Z]> cidx) k) as Hmono.
  { intros k (c' & Hc' & Hr). exists c'. split; [done|]. rewrite Hnew.
    case_decide; [subst; lia | done]. }
  assert (¬ filled cnt cidx i) as Hni.
  { intros (c' & Hc' & Hr). pose proof (HF c' i Hc' Hr) as Hii.
    rewrite Hic in Hii. injection Hii as Hii.
    assert (c' = c) as -> by lia. lia. }
  assert (¬ filled cnt cidx j) as Hnj.
  { intros (c' & Hc' & Hr). pose proof (HB c' Hc'). pose proof (HB c Hc).
    assert (c = c') as <-
      by (apply (slice_disjoint cs cnt Hocc c c' (Z.of_nat j)); lia).
    lia. }
  unfold trace_inv. split_and!.
  - apply list.Forall_app. split.
    + eapply list.Forall_impl; [exact Hall|]. intros s (? & ? & ?). eauto.
    + apply Forall_singleton. simpl. split_and!; try done.
      exists c. split; [done|]. rewrite Hnew, decide_True by done.
      pose proof (HB c Hc). lia.
  - rewrite length_app. simpl. unfold swaps_done in *.
    rewrite (sumZ_insert _ _ _ _ Hcj). lia.
  - apply final_writes_snoc. split; [done|].
    eapply list.Forall_impl; [exact Hall|]. intros s (_ & _ & Hs). simpl.
    split; intros ->; done.
Qed.

(** C10.  On particles that all map to cells of the grid the sort of
    [Grid::update] ends: with fuel for more than [N] rounds of the inner
    loop it returns, having called [swap] at most [N] times, always on
    slots of [[0, N)], and never again on a slot an earlier swap wrote its
    particle to.  Replayed on any vector of [N] entries the swaps give what
    [update] leaves in it, a permutation of the vector. *)
Theorem Grid_update_terminates (fuel : nat) (g : Grid.t)
    (positions : list Vector3f) :
  grid_wf g →
  Forall (λ p, valid_cell g (Grid.index g p)) positions →
  (Z.of_nat (length positions) < 2 ^ 32)%Z →
  length positions < fuel →
  let N := length positions in
  ∃ g' tr,
    Grid.update fuel g positions record_swap [] = Some (g', tr) ∧
    length tr ≤ N ∧
    Forall (λ s, s.1 < N ∧ s.2 < N) tr ∧
    final_writes tr ∧
    ∀ (X : Type) (v : list X),
      length v = N →
      ∃ v', Grid.update fuel g positions swap_vec v = Some (g', v') ∧
            replay tr v = Some v' ∧ v' ≡ₚ v.
Proof.
  intros Hwf Hvalid Hfits Hfuel N.
  set (K := Z.to_nat (Grid.cellCount g)).
  set (cs := Grid.indexLinear g <$> positions).
  set (cnt := populations K cs).
  assert (length cs = N) as HlN by (unfold cs; by rewrite length_fmap).
  assert (length cnt = K) as Hlc by apply populations_length.
  assert (∀ c : nat, c < length cnt → cnt !! c = Some (occ (Z.of_nat c) cs))
    as Hocc by (intros c Hc; apply populations_lookup; lia).
  assert (sumZ cnt = Z.of_nat (length cs)) as Hsum.
  { rewrite HlN. by apply (countPass_populations g positions). }
  destruct (update_spec record_swap g positions (λ _, trace_inv N cnt)
              Hwf Hvalid Hfits) with (fuel := fuel) (a := @nil (nat * nat))
    as (offs & ind & cidx & tr & Hup & Hlo & Hoffs & Hsorted & Hall & Hlen & Hfin);
    try done.
  { intros ind cidx tr i j c Hi Hj Hc Hinv Hic Hcj Hout Hfree Htr.
    eexists. split; [done|]. intros ind' _. fold K cs cnt in Hinv, Hout, Hfree.
    fold N in Hi, Hj. rewrite <- HlN in *.
    apply (trace_step cs cnt ind); try done. by rewrite Hlc. }
  { intros cidx Hl Hpre. unfold trace_inv. split_and!; try done.
    unfold swaps_done. simpl.
    assert (cidx = prefix cnt <$> seq 0 (length cnt)) as ->; [|lia].
    apply list_eq_same_length with K;
      [by rewrite length_fmap, length_seq | done |].
    intros c x y Hc Hx Hy. rewrite (Hpre c Hc) in Hx.
    rewrite list_lookup_fmap, lookup_seq_lt in Hy by lia. simpl in Hy.
    fold K cs cnt in Hx. congruence. }
  fold K cs cnt in Hoffs, Hsorted.
  exists (Grid.set_cellOffset offs g), tr. split_and!; try done.
  - fold N in Hsorted. rewrite <- HlN in Hsorted.
    pose proof (swaps_done_bounds cs cnt Hsum _ _ _ Hsorted). lia.
  - eapply list.Forall_impl; [exact Hall|]. intros s (? & ? & _). done.
  - intros X v Hv.
    destruct (update_spec swap_vec g positions (λ _ _ w, w ≡ₚ v)
                Hwf Hvalid Hfits) with (fuel := fuel) (a := v)
      as (offs' & _ & _ & v' & Hup' & _ & _ & _ & Hperm); try done.
    { intros ind0 cidx0 w i j c0 Hi Hj _ _ _ _ _ _ Hw.
      destruct (swap_at_Some w i j) as [w' Hw']; [by rewrite Hw, Hv..|].
      exists w'. split; [done|]. intros ind1 _.
      by rewrite (swap_at_Permutation _ _ _ _ Hw'). }
    destruct (update_sim (λ w tr', replay tr' v = Some w) swap_vec record_swap)
      with (fuel := fuel) (g := g) (positions := positions) (a := v)
           (b := @nil (nat * nat)) (g' := Grid.set_cellOffset offs' g) (a' := v')
      as (tr' & Hup'' & Hrep); try done.
    { intros i j w tr' w' Hw Hsw. eexists. split; [done|].
      rewrite replay_snoc, Hw. done. }
    rewrite Hup in Hup''. injection Hup'' as Hg ->.
    exists v'. rewrite Hg. done.
Qed.

(** ** Concrete grids *)

Lemma Int_part_unique (r : R) (z : Z) :
  (IZR z <= r < IZR z + 1)%R → Int_part r = z.
Proof. intros H. symmetry. apply Int_part_spec. lra. Qed.

Lemma nextPowerOfTwo_pos n : (1 ≤ nextPowerOfTwo n)%Z.
Proof.
  unfold nextPowerOfTwo. destruct (Z.leb_spec n 1); [lia|].
  pose proof (Z.log2_up_nonneg n).
  pose proof (Z.pow_pos_nonneg 2 (Z.log2_up n)). lia.
Qed.

Lemma init_wf g bounds cellSize :
  (Grid.cellCount (Grid.init g bounds cellSize) < 2 ^ 31)%Z →
  grid_wf (Grid.init g bounds cellSize).
Proof.
  intros Hc. unfold grid_wf.
  set (sx := nextPowerOfTwo (Int_part (f_x (extents bounds) / cellSize) + 1)).
  set (sy := nextPowerOfTwo (Int_part (f_y (extents bounds) / cellSize) + 1)).
  set (sz := nextPowerOfTwo (Int_part (f_z (extents bounds) / cellSize) + 1)).
  assert (Grid._size (Grid.init g bounds cellSize) = mkVector3i sx sy sz)
    as Hsize by done.
  pose proof (nextPowerOfTwo_pos
                (Int_part (f_x (extents bounds) / cellSize) + 1)).
  pose proof (nextPowerOfTwo_pos
                (Int_part (f_y (extents bounds) / cellSize) + 1)).
  pose proof (nextPowerOfTwo_pos
                (Int_part (f_z (extents bounds) / cellSize) + 1)).
  unfold Grid.cellCount in *. rewrite Hsize in *. unfold prod in *. simpl in *.
  fold sx sy sz. split_and!; try lia.
  unfold Grid.resize. rewrite length_app, length_take, length_replicate.
  assert (0 < sx * sy * sz)%Z by nia. unfold prod. simpl. lia.
Qed.

Lemma grid222_init : Grid.init Grid.empty unit_box 1 = grid222.
Proof.
  unfold Grid.init, grid222. simpl.
  rewrite (Int_part_unique ((1 - 0) / 1) 1) by (simpl; lra).
  reflexivity.
Qed.

Lemma grid222_wf : grid_wf grid222.
Proof. unfold grid_wf, Grid.cellCount, prod. simpl. lia. Qed.

Lemma grid222_sorted_wf : grid_wf grid222_sorted.
Proof. unfold grid_wf, Grid.cellCount, prod. simpl. lia. Qed.

Lemma grid222_index_1 :
  Grid.index grid222 (mkVector3f 1.5 0.5 0.5) = mkVector3i 1 0 0.
Proof.
  unfold Grid.index. simpl.
  rewrite (Int_part_unique ((1.5 - 0) * (1 / 1)) 1) by (simpl; lra).
  rewrite (Int_part_unique ((0.5 - 0) * (1 / 1)) 0) by (simpl; lra).
  reflexivity.
Qed.

Lemma grid222_index_0 :
  Grid.index grid222 (mkVector3f 0.5 0.5 0.5) = mkVector3i 0 0 0.
Proof.
  unfold Grid.index. simpl.
  rewrite (Int_part_unique ((0.5 - 0) * (1 / 1)) 0) by (simpl; lra).
  reflexivity.
Qed.

Lemma two_particles_valid :
  Forall (λ p, valid_cell grid222 (Grid.index grid222 p)) two_particles.
Proof.
  unfold two_particles. repeat apply Forall_cons_2; [| |apply Forall_nil_2].
  - rewrite grid222_index_1. unfold valid_cell. simpl. lia.
  - rewrite grid222_index_0. unfold valid_cell. simpl. lia.
Qed.

(** C6 on the 2 x 2 x 2 grid and the two particles. *)
Lemma Grid_update_partition_witness :
  ∃ g' positions',
    Grid.update 3 grid222 two_particles swap_vec two_particles
    = Some (g', positions') ∧
    positions' ≡ₚ two_particles ∧
    let offs := Grid._cellOffset g' in
    let K := Z.to_nat (Grid.cellCount g') in
    let N := length positions' in
    (∀ (c k : nat) p,
       c < K → in_slice offs c (Z.of_nat k) → positions' !! k = Some p →
       Grid.indexLinear g' p = Z.of_nat c) ∧
    (∀ k : nat, k < N →
       ∃ c : nat, c < K ∧ in_slice offs c (Z.of_nat k) ∧
                  ∀ c' : nat, c' < K → in_slice offs c' (Z.of_nat k) → c' = c) ∧
    (∀ (c : nat) (k : Z), c < K → in_slice offs c k → (0 ≤ k < Z.of_nat N)%Z) ∧
    length offs = S K ∧ list.last offs = Some (Z.of_nat N).
Proof.
  apply (Grid_update_partition 3 grid222 two_particles).
  - exact grid222_wf.
  - exact two_particles_valid.
  - simpl. lia.
  - simpl. lia.
Defined.

(** C10 on the 2 x 2 x 2 grid and the two particles. *)
Lemma Grid_update_terminates_witness :
  ∃ g' tr,
    Grid.update 3 grid222 two_particles record_swap [] = Some (g', tr) ∧
    length tr ≤ 2 ∧
    Forall (λ s, s.1 < 2 ∧ s.2 < 2) tr ∧
    final_writes tr ∧
    ∀ (X : Type) (v : list X),
      length v = 2 →
      ∃ v', Grid.update 3 grid222 two_particles swap_vec v = Some (g', v') ∧
            replay tr v = Some v' ∧ v' ≡ₚ v.
Proof.
  apply (Grid_update_terminates 3 grid222 two_particles).
  - exact grid222_wf.
  - exact two_particles_valid.
  - simpl. lia.
  - simpl. lia.
Defined.

Lemma grid222_linear_1 :
  Grid.indexLinear grid222 (mkVector3f 1.5 0.5 0.5) = 1%Z.
Proof. unfold Grid.indexLinear. rewrite grid222_index_1. reflexivity. Qed.

Lemma grid222_linear_0 :
  Grid.indexLinear grid222 (mkVector3f 0.5 0.5 0.5) = 0%Z.
Proof. unfold Grid.indexLinear. rewrite grid222_index_0. reflexivity. Qed.

(** The run of [update] on the two particles: two swaps, [(0,1)] and then
    the self-swap [(0,0)]. *)
Example update_two_particles :
  Grid.update 3 grid222 two_particles record_swap []
  = Some (grid222_sorted, [(0, 1); (0, 0)]).
Proof.
  unfold Grid.update, Grid.countPass, two_particles. simpl.
  unfold Grid.countBody. simpl.
  rewrite grid222_linear_1, grid222_linear_0. reflexivity.
Qed.

(** ** [Grid::lookup] *)

Lemma range_elem (lo hi x : Z) : x ∈ Grid.range lo hi ↔ (lo ≤ x ≤ hi)%Z.
Proof. unfold Grid.range. rewrite elem_of_seqZ. lia. Qed.

Lemma lookupCells_elem g pos radius cell :
  cell ∈ Grid.lookupCells g pos radius ↔
  (i_x (Grid.lookupMin g pos radius) ≤ i_x cell
     ≤ i_x (Grid.lookupMax g pos radius))%Z ∧
  (i_y (Grid.lookupMin g pos radius) ≤ i_y cell
     ≤ i_y (Grid.lookupMax g pos radius))%Z ∧
  (i_z (Grid.lookupMin g pos radius) ≤ i_z cell
     ≤ i_z (Grid.lookupMax g pos radius))%Z.
Proof.
  unfold Grid.lookupCells. rewrite list_elem_of_bind. split.
  - intros (z & Hz & Hzr). apply list_elem_of_bind in Hz as (y & Hy & Hyr).
    apply list_elem_of_bind in Hy as (x & Hx & Hxr).
    apply list_elem_of_singleton in Hx as ->. simpl.
    apply range_elem in Hzr, Hyr, Hxr. done.
  - intros (Hx & Hy & Hz). exists (i_z cell). rewrite range_elem.
    split; [|done]. apply list_elem_of_bind. exists (i_y cell).
    rewrite range_elem. split; [|done]. apply list_elem_of_bind.
    exists (i_x cell). rewrite range_elem. split; [|done].
    destruct cell. simpl. by apply list_elem_of_singleton.
Qed.

Lemma lookupCells_valid g pos radius cell :
  cell ∈ Grid.lookupCells g pos radius → valid_cell g cell.
Proof.
  rewrite lookupCells_elem. unfold Grid.lookupMin, Grid.lookupMax, valid_cell.
  simpl. lia.
Qed.

Lemma lookupCells_outside g pos radius :
  box_outside g pos radius → Grid.lookupCells g pos radius = [].
Proof.
  intros Hout. destruct (Grid.lookupCells g pos radius) as [|cell l] eqn:E;
    [done|]. exfalso.
  assert (cell ∈ Grid.lookupCells g pos radius) as Hin by (rewrite E; left).
  apply lookupCells_elem in Hin. revert Hin Hout.
  unfold Grid.lookupMin, Grid.lookupMax, box_outside. simpl. lia.
Qed.

Lemma offsets_bounds g n (c : nat) :
  grid_wf g → offsets_sorted g n → c ≤ Z.to_nat (Grid.cellCount g) →
  ∃ x, Grid._cellOffset g !! c = Some x ∧ (0 ≤ x ≤ n)%Z.
Proof.
  intros (_ & _ & _ & _ & Hlen) (H0 & HK & Hmono).
  set (K := Z.to_nat (Grid.cellCount g)) in *. intros Hc.
  assert (∀ c : nat, c ≤ K → ∃ x, Grid._cellOffset g !! c = Some x) as Hex.
  { intros c' Hc'. apply lookup_lt_is_Some_2. lia. }
  assert (∀ c : nat, c ≤ K →
            ∃ x, Grid._cellOffset g !! c = Some x ∧ (0 ≤ x)%Z) as Hlow.
  { intros c'. induction c' as [|c' IH]; intros Hc'.
    { exists 0%Z. split; [done | lia]. }
    destruct IH as (x & Hx & ?); [lia|].
    destruct (Hex (S c') Hc') as [y Hy]. exists y. split; [done|].
    pose proof (Hmono c' x y Hx Hy). lia. }
  assert (∀ d c : nat, c + d = K →
            ∃ x, Grid._cellOffset g !! c = Some x ∧ (x ≤ n)%Z) as Hhigh.
  { intros d. induction d as [|d IH]; intros c' Hc'.
    - replace c' with K by lia. exists n. split; [done | lia].
    - destruct (IH (S c')) as (y & Hy & ?); [lia|].
      destruct (Hex c') as [x Hx]; [lia|]. exists x. split; [done|].
      pose proof (Hmono c' x y Hx Hy). lia. }
  destruct (Hlow c Hc) as (x & Hx & ?).
  destruct (Hhigh (K - c) c) as (x' & Hx' & ?); [lia|].
  exists x. split; [done|]. assert (x = x') by congruence. lia.
Qed.

Lemma forM_record_slot (l acc : list Z) :
  forM record_slot l acc = Some (acc ++ l).
Proof.
  revert acc. induction l as [|x l IH]; intros acc; simpl.
  - by rewrite app_nil_r.
  - rewrite IH. by rewrite <- app_assoc.
Qed.

(** The slots of one cell, when its two offsets are in range. *)
Lemma visitCell_slots {St} g (func : Z → St → option St) cell (s : St) lo hi :
  at_ (Grid._cellOffset g) (Grid.linear g cell) = Some lo →
  at_ (Grid._cellOffset g) (wrap64 (Grid.linear g cell + 1)) = Some hi →
  Grid.visitCell g func cell s = forM func (seqZ lo (hi - lo)) s.
Proof. intros Hlo Hhi. unfold Grid.visitCell. by rewrite Hlo, Hhi. Qed.

Section Lookup.
Context (g : Grid.t) (n : Z).
Hypothesis wf : grid_wf g.
Hypothesis sorted : offsets_sorted g n.

Lemma cell_offsets cell :
  valid_cell g cell →
  ∃ lo hi,
    at_ (Grid._cellOffset g) (Grid.linear g cell) = Some lo ∧
    at_ (Grid._cellOffset g) (wrap64 (Grid.linear g cell + 1)) = Some hi ∧
    (0 ≤ lo ≤ hi)%Z ∧ (hi ≤ n)%Z.
Proof.
  intros Hv. destruct (linear_valid g cell wf Hv) as [_ Hr].
  pose proof wf as (_ & _ & _ & Hcc & _).
  set (i := Grid.linear g cell) in *.
  rewrite (wrap64_id (i + 1)) by lia.
  destruct (offsets_bounds g n (Z.to_nat i) wf sorted) as (lo & Hlo & ?);
    [lia|].
  destruct (offsets_bounds g n (Z.to_nat (i + 1)) wf sorted)
    as (hi & Hhi & ?); [lia|].
  exists lo, hi. split_and!; try lia.
  - apply at_Some. split; [lia | done].
  - apply at_Some. split; [lia | done].
  - destruct sorted as (_ & _ & Hmono).
    apply (Hmono (Z.to_nat i) lo hi Hlo).
    by replace (S (Z.to_nat i)) with (Z.to_nat (i + 1)) by lia.
Qed.

Lemma lookup_cells_slots cells :
  Forall (valid_cell g) cells →
  ∃ slots,
    Forall (λ j, 0 ≤ j < n)%Z slots ∧
    ∀ St (func : Z → St → option St) (s : St),
      forM (Grid.visitCell g func) cells s = forM func slots s.
Proof.
  induction 1 as [|cell cells Hv _ (slots & Hr & IH)].
  - exists []. split; [by apply Forall_nil_2 | done].
  - destruct (cell_offsets cell Hv) as (lo & hi & Hlo & Hhi & ? & ?).
    exists (seqZ lo (hi - lo) ++ slots). split.
    + apply list.Forall_app. split; [|done].
      apply list.Forall_forall. intros j Hj. apply elem_of_seqZ in Hj. lia.
    + intros St func s. simpl. rewrite forM_app.
      rewrite (visitCell_slots g func cell s lo hi Hlo Hhi).
      destruct (forM func (seqZ lo (hi - lo)) s); simpl; [apply IH | done].
Qed.
End Lookup.

(** C7.  For every query point and radius, on a grid whose offsets
    [update] has left for [n] particles: [lookup] goes through cells with
    coordinates in [[0, size-1]] only, the two offsets it reads for each of
    them are entries of the offset array, and whatever the visitor is, it
    is called exactly on a fixed list of slots, all of them in [[0, n)];
    a query box that misses the grid visits no cell and calls nothing. *)
Theorem Grid_lookup_clamped (g : Grid.t) (n : Z) (pos : Vector3f)
    (radius : R) :
  grid_wf g → offsets_sorted g n →
  (∀ cell, cell ∈ Grid.lookupCells g pos radius →
     valid_cell g cell ∧
     is_Some (at_ (Grid._cellOffset g) (Grid.linear g cell)) ∧
     is_Some (at_ (Grid._cellOffset g) (wrap64 (Grid.linear g cell + 1)))) ∧
  (∃ slots,
     Grid.lookup g pos radius record_slot [] = Some slots ∧
     Forall (λ j, 0 ≤ j < n)%Z slots ∧
     ∀ St (func : Z → St → option St) (s : St),
       Grid.lookup g pos radius func s = forM func slots s) ∧
  (box_outside g pos radius →
     Grid.lookupCells g pos radius = [] ∧
     ∀ St (func : Z → St → option St) (s : St),
       Grid.lookup g pos radius func s = Some s).
Proof.
  intros Hwf Hsorted. split_and!.
  - intros cell Hin. pose proof (lookupCells_valid _ _ _ _ Hin) as Hv.
    destruct (cell_offsets g n Hwf Hsorted cell Hv)
      as (lo & hi & Hlo & Hhi & _). rewrite Hlo, Hhi. eauto.
  - destruct (lookup_cells_slots g n Hwf Hsorted
                (Grid.lookupCells g pos radius)) as (slots & Hr & Hrun).
    { apply list.Forall_forall. intros cell. apply lookupCells_valid. }
    exists slots. split_and!; try done.
    unfold Grid.lookup. rewrite Hrun. apply forM_record_slot.
  - intros Hout. pose proof (lookupCells_outside _ _ _ Hout) as E.
    split; [done|]. intros St func s. unfold Grid.lookup. by rewrite E.
Qed.

(** [update] establishes what [lookup] relies on. *)
Lemma Grid_update_offsets_sorted {A} (swap : nat → nat → A → option A)
    fuel g positions a g' a' :
  grid_wf g →
  Forall (λ p, valid_cell g (Grid.index g p)) positions →
  (Z.of_nat (length positions) < 2 ^ 32)%Z →
  Grid.update fuel g positions swap a = Some (g', a') →
  grid_wf g' ∧ offsets_sorted g' (Z.of_nat (length positions)).
Proof.
  intros Hwf Hvalid Hfits Hup.
  set (K := Z.to_nat (Grid.cellCount g)).
  set (cs := Grid.indexLinear g <$> positions).
  set (cnt := populations K cs).
  destruct (countPass_populations g positions Hwf Hvalid Hfits) as [Hcount Hsum].
  fold K cs cnt in Hcount, Hsum.
  assert (length cs = length positions) as HlN
    by (unfold cs; by rewrite length_fmap).
  assert (length cnt = K) as Hlc by apply populations_length.
  assert (∀ c : nat, c < length cnt → cnt !! c = Some (occ (Z.of_nat c) cs))
    as Hocc by (intros c Hc; apply populations_lookup; lia).
  pose proof (cnt_pos cs cnt Hocc) as Hpos.
  pose proof Hwf as (Hx & Hy & Hz & Hcc & Hlen).
  destruct (offsetPass_spec g cnt Hlc Hpos ltac:(lia) Hlen)
    as (cidx0 & offs & Hoff & Hlci & Hlo & Hci0 & Hoffs).
  unfold Grid.update in Hup. rewrite Hcount in Hup. simpl in Hup.
  rewrite Hoff in Hup. simpl in Hup.
  destruct (Grid.sortPass swap offs fuel (length positions) (cs, cidx0, a))
    as [[[ind cidx] a1]|]; simpl in Hup; [|done].
  injection Hup as <- <-. split.
  - unfold grid_wf. simpl. split_and!; try done.
  - rewrite <- HlN in *. fold K in Hoffs, Hlo. rewrite <- Hlc in Hoffs.
    destruct (sorted_offsets cs cnt offs Hocc Hsum Hoffs) as (H0 & HK & Hmono).
    unfold offsets_sorted. simpl.
    change (Grid.cellCount (Grid.set_cellOffset offs g))
      with (Grid.cellCount g). fold K. rewrite <- Hlc.
    split_and!; try done.
    intros c lo hi Hclo Hchi. apply (Hmono c lo hi Hclo Hchi).
    apply lookup_lt_Some in Hchi. lia.
Qed.

Lemma grid222_sorted_offsets : offsets_sorted grid222_sorted 2.
Proof.
  unfold offsets_sorted. simpl. split_and!; try done.
  intros c lo hi Hlo Hhi.
  do 9 (destruct c as [|c]; [simpl in *; simplify_eq; lia|]).
  done.
Qed.

(** C7 on the sorted 2 x 2 x 2 grid, for a query inside the first cell. *)
Lemma Grid_lookup_clamped_witness :
  let g := grid222_sorted in
  let pos := mkVector3f 0.5 0.5 0.5 in
  let radius := 0.25%R in
  (∀ cell, cell ∈ Grid.lookupCells g pos radius →
     valid_cell g cell ∧
     is_Some (at_ (Grid._cellOffset g) (Grid.linear g cell)) ∧
     is_Some (at_ (Grid._cellOffset g) (wrap64 (Grid.linear g cell + 1)))) ∧
  (∃ slots,
     Grid.lookup g pos radius record_slot [] = Some slots ∧
     Forall (λ j, 0 ≤ j < 2)%Z slots ∧
     ∀ St (func : Z → St → option St) (s : St),
       Grid.lookup g pos radius func s = forM func slots s) ∧
  (box_outside g pos radius →
     Grid.lookupCells g pos radius = [] ∧
     ∀ St (func : Z → St → option St) (s : St),
       Grid.lookup g pos radius func s = Some s).
Proof.
  apply (Grid_lookup_clamped grid222_sorted 2).
  - exact grid222_sorted_wf.
  - exact grid222_sorted_offsets.
Defined.

(** ** [Grid::update] does not clamp *)

Lemma countPass_in_range g positions :
  grid_wf g →
  Forall (λ p, valid_cell g (Grid.index g p)) positions →
  Forall (λ p, 0 ≤ wrap32 (Grid.indexLinear g p) < Grid.cellCount g)%Z
         positions
  ∧ is_Some (Grid.countPass g positions).
Proof.
  intros Hwf Hvalid.
  assert (Forall (λ p, 0 ≤ wrap32 (Grid.indexLinear g p) < Grid.cellCount g)%Z
                 positions) as Hr.
  { eapply list.Forall_impl; [exact Hvalid|]. intros p Hp. simpl in *.
    destruct (linear_valid g _ Hwf Hp) as [_ Hl].
    destruct Hwf as (_ & _ & _ & Hcc & _).
    unfold Grid.indexLinear. rewrite wrap32_id; lia. }
  split; [done|]. unfold Grid.countPass.
  set (K := Z.to_nat (Grid.cellCount g)).
  destruct (forM_seq_inv (Grid.countBody g positions)
              (λ _ st, length st.2 = K) (length positions) 0
              (replicate (length positions) 0%Z, replicate K 0%Z))
    as (st & -> & _); [simpl; by rewrite length_replicate | | done].
  intros i [ind cnt] Hi Hl. simpl in *.
  destruct (lookup_lt_is_Some_2 positions i) as [p Hp]; [lia|].
  pose proof (Forall_lookup_1 _ _ _ _ Hr Hp) as Hc. simpl in Hc.
  unfold Grid.countBody. rewrite Hp. simpl.
  destruct (lookup_lt_is_Some_2 cnt
              (Z.to_nat (wrap32 (Grid.indexLinear g p)))) as [x Hx];
    [unfold K in Hl; lia|].
  assert (at_ cnt (wrap32 (Grid.indexLinear g p)) = Some x) as ->
    by (apply at_Some; split; [lia | done]).
  simpl. eexists. split; [done|]. simpl. by rewrite length_insert.
Qed.

Lemma below_min_index g :
  Grid._invCellSize g ≠ 0%R →
  Grid.index g (below_min g) = mkVector3i (-1) 0 0.
Proof.
  intros Hinv. unfold Grid.index, below_min. simpl. f_equal.
  - apply Int_part_unique.
    replace ((f_x (box_min (Grid._bounds g)) - 1 / Grid._invCellSize g
              - f_x (box_min (Grid._bounds g))) * Grid._invCellSize g)%R
      with (-1)%R by (field; done).
    simpl. lra.
  - apply Int_part_unique.
    replace ((f_y (box_min (Grid._bounds g))
              - f_y (box_min (Grid._bounds g))) * Grid._invCellSize g)%R
      with 0%R by ring.
    simpl. lra.
  - apply Int_part_unique.
    replace ((f_z (box_min (Grid._bounds g))
              - f_z (box_min (Grid._bounds g))) * Grid._invCellSize g)%R
      with 0%R by ring.
    simpl. lra.
Qed.

Lemma below_min_faults g :
  grid_wf g → Grid._invCellSize g ≠ 0%R →
  ¬ valid_cell g (Grid.index g (below_min g)) ∧
  Grid.countPass g [below_min g] = None.
Proof.
  intros (_ & _ & _ & Hcc & _) Hinv. rewrite (below_min_index g Hinv). split.
  - unfold valid_cell. simpl. lia.
  - unfold Grid.countPass. simpl. unfold Grid.countBody. simpl.
    unfold Grid.indexLinear. rewrite (below_min_index g Hinv).
    unfold Grid.linear. simpl.
    replace (0 * (i_x (Grid._size g) * i_y (Grid._size g))
             + 0 * i_x (Grid._size g) + -1)%Z with (-1)%Z by lia.
    change (wrap32 (wrap64 (-1))) with 4294967295%Z.
    unfold at_. simpl.
    rewrite (proj1 (lookup_replicate_None _ _ _)); [done|]. lia.
Qed.

Lemma past_max_index : Grid.index grid222 past_max = mkVector3i 2 0 0.
Proof.
  unfold Grid.index, past_max. simpl.
  rewrite (Int_part_unique ((2.5 - 0) * (1 / 1)) 2) by (simpl; lra).
  rewrite (Int_part_unique ((0.5 - 0) * (1 / 1)) 0) by (simpl; lra).
  reflexivity.
Qed.

(** C9, as stated, fails: the accesses of [update] can all be in range
    although a particle has a cell coordinate outside [[0, size-1]].  On
    the 2 x 2 x 2 grid the particle at x = 2.5 has the x coordinate 2, its
    linear index 2 is the number of the cell (0,1,0), and [update] runs to
    the end. *)
Lemma Grid_update_range_not_exact :
  grid_wf grid222 ∧
  ¬ valid_cell grid222 (Grid.index grid222 past_max) ∧
  Grid.countPass grid222 [past_max]
  = Some ([2%Z], [0; 0; 1; 0; 0; 0; 0; 0]%Z) ∧
  Grid.update 2 grid222 [past_max] record_swap []
  = Some (Grid.set_cellOffset [0; 0; 0; 1; 1; 1; 1; 1; 1]%Z grid222,
          [(0, 0)]).
Proof.
  split_and!.
  - exact grid222_wf.
  - rewrite past_max_index. unfold valid_cell. simpl. lia.
  - unfold Grid.countPass. simpl. unfold Grid.countBody. simpl.
    unfold Grid.indexLinear. rewrite past_max_index. reflexivity.
  - unfold Grid.update, Grid.countPass. simpl. unfold Grid.countBody. simpl.
    unfold Grid.indexLinear. rewrite past_max_index. reflexivity.
Qed.

(** C9, amended.  [Grid::update] indexes its arrays with the linear cell
    index of each raw position.  Whenever every position has its cell
    coordinates in [[0, size-1]], every index of the counting loop lies in
    [[0, cellCount)] and the loop runs without a fault.  Nothing is
    clamped: the position one cell before the minimum corner makes the
    counting loop index out of range, whereas [lookup] at that position
    still goes through cells of the grid only. *)
Theorem Grid_update_unclamped (g : Grid.t) :
  grid_wf g →
  (∀ positions,
     Forall (λ p, valid_cell g (Grid.index g p)) positions →
     Forall (λ p, 0 ≤ wrap32 (Grid.indexLinear g p) < Grid.cellCount g)%Z
            positions
     ∧ is_Some (Grid.countPass g positions)) ∧
  (Grid._invCellSize g ≠ 0%R →
   ∃ p, ¬ valid_cell g (Grid.index g p) ∧
        Grid.countPass g [p] = None ∧
        ∀ radius cell,
          cell ∈ Grid.lookupCells g p radius → valid_cell g cell).
Proof.
  intros Hwf. split.
  - intros positions. by apply countPass_in_range.
  - intros Hinv. exists (below_min g).
    destruct (below_min_faults g Hwf Hinv) as [Hnv Hf].
    split_and!; try done. intros radius cell. apply lookupCells_valid.
Qed.

(** C9, amended, on the 2 x 2 x 2 grid: the two particles are counted in
    range, and the position one cell before the minimum corner is not. *)
Lemma Grid_update_unclamped_witness :
  (Forall (λ p, 0 ≤ wrap32 (Grid.indexLinear grid222 p)
                < Grid.cellCount grid222)%Z two_particles
   ∧ is_Some (Grid.countPass grid222 two_particles)) ∧
  (∃ p, ¬ valid_cell grid222 (Grid.index grid222 p) ∧
        Grid.countPass grid222 [p] = None ∧
        ∀ radius cell,
          cell ∈ Grid.lookupCells grid222 p radius → valid_cell grid222 cell).
Proof.
  destruct (Grid_update_unclamped grid222 grid222_wf) as [H1 H2]. split.
  - apply H1. exact two_particles_valid.
  - apply H2. simpl. lra.
Defined.

(** ** Vectors *)

Lemma Vector3f_eq a b :
  f_x a = f_x b → f_y a = f_y b → f_z a = f_z b → a = b.
Proof. destruct a, b. simpl. by intros -> -> ->. Qed.

Lemma squaredNorm_vsub_sym a b :
  squaredNorm (vsub a b) = squaredNorm (vsub b a).
Proof. unfold squaredNorm, dot, vsub. simpl. ring. Qed.

(** ** The branches of the force visitor *)

Lemma pairBranch_Accumulate r2 h2 :
  SPH.pairBranch r2 h2 = SPH.Accumulate ↔ (0.00001 < r2 < h2)%R.
Proof.
  unfold SPH.pairBranch, Rltb, Reqb.
  destruct (Rlt_dec r2 h2), (Rlt_dec 0.00001 r2), (Req_dec_T r2 0);
    simpl; split; intros; try done; lra.
Qed.

Lemma pairBranch_Nudge r2 h2 :
  SPH.pairBranch r2 h2 = SPH.Nudge ↔ r2 = 0%R.
Proof.
  unfold SPH.pairBranch, Rltb, Reqb.
  destruct (Rlt_dec r2 h2), (Rlt_dec 0.00001 r2), (Req_dec_T r2 0);
    simpl; split; intros; try done; lra.
Qed.

Lemma pairBranch_Skip r2 h2 :
  SPH.pairBranch r2 h2 = SPH.Skip
  ↔ r2 ≠ 0%R ∧ (r2 <= 0.00001 ∨ h2 <= r2)%R.
Proof.
  unfold SPH.pairBranch, Rltb, Reqb.
  destruct (Rlt_dec r2 h2), (Rlt_dec 0.00001 r2), (Req_dec_T r2 0);
    simpl; split; intros; try done; try lra; try (split; [done | lra]).
  all: destruct H as [? [?|?]]; lra.
Qed.

(** The visitor on a pair of distinct slots in range. *)
Lemma forceVisitor_pair s n (i j : nat) a :
  sized s n → i < n → j < n → i ≠ j →
  ∃ v_i v_j n_i n_j d_i d_j P_i P_j p_i p_j,
    SPH._velocities s !! i = Some v_i ∧ SPH._velocities s !! j = Some v_j ∧
    SPH._normals s !! i = Some n_i ∧ SPH._normals s !! j = Some n_j ∧
    SPH._densities s !! i = Some d_i ∧ SPH._densities s !! j = Some d_j ∧
    SPH._pressures s !! i = Some P_i ∧ SPH._pressures s !! j = Some P_j ∧
    SPH._positions s !! i = Some p_i ∧ SPH._positions s !! j = Some p_j ∧
    SPH.forceVisitor i (Z.of_nat j) (s, a)
    = Some
        (match SPH.pairBranch (squaredNorm (vsub p_i p_j)) (SPH._h2 s) with
         | SPH.Accumulate =>
             (s, SPH.accumulate s v_i v_j n_i n_j d_i d_j P_i P_j
                   (vsub p_i p_j) (squaredNorm (vsub p_i p_j)) a)
         | SPH.Nudge =>
             (SPH.set_positions
                (<[j := vadd p_j (splat 0.00001)]> (SPH._positions s)) s, a)
         | SPH.Skip => (s, a)
         end).
Proof.
  intros (Hp & Hv & Hn & Hf & Hd & HP) Hi Hj Hij.
  destruct (lookup_lt_is_Some_2 (SPH._velocities s) i) as [v_i Hvi]; [lia|].
  destruct (lookup_lt_is_Some_2 (SPH._velocities s) j) as [v_j Hvj]; [lia|].
  destruct (lookup_lt_is_Some_2 (SPH._normals s) i) as [n_i Hni]; [lia|].
  destruct (lookup_lt_is_Some_2 (SPH._normals s) j) as [n_j Hnj]; [lia|].
  destruct (lookup_lt_is_Some_2 (SPH._densities s) i) as [d_i Hdi]; [lia|].
  destruct (lookup_lt_is_Some_2 (SPH._densities s) j) as [d_j Hdj]; [lia|].
  destruct (lookup_lt_is_Some_2 (SPH._pressures s) i) as [P_i HPi]; [lia|].
  destruct (lookup_lt_is_Some_2 (SPH._pressures s) j) as [P_j HPj]; [lia|].
  destruct (lookup_lt_is_Some_2 (SPH._positions s) i) as [p_i Hpi]; [lia|].
  destruct (lookup_lt_is_Some_2 (SPH._positions s) j) as [p_j Hpj]; [lia|].
  exists v_i, v_j, n_i, n_j, d_i, d_j, P_i, P_j, p_i, p_j.
  split_and!; try done.
  unfold SPH.forceVisitor. rewrite !at_of_nat.
  rewrite Hvi, Hvj, Hni, Hnj, Hdi, Hdj, HPi, HPj. simpl.
  rewrite decide_False by lia. rewrite Hpi, Hpj. simpl. rewrite Nat2Z.id.
  by destruct (SPH.pairBranch _ _).
Qed.

(** ** Pressure forces come in opposite pairs *)

Lemma pressureTerm_swap s P_i d_i P_j d_j p_i p_j rn :
  SPH.pressureTerm s P_i d_i P_j d_j (vsub p_i p_j) rn
  = vopp (SPH.pressureTerm s P_j d_j P_i d_i (vsub p_j p_i) rn).
Proof.
  unfold SPH.pressureTerm, SPH.Kernel.spikyGrad, vscale, vsub, vopp. simpl.
  apply Vector3f_eq; simpl; unfold sqr, Rdiv; ring.
Qed.

(** C8.  In exact real arithmetic, for two distinct particles [i] and [j]
    within the support radius ([0 < r2 < h2]), the pressure force the
    visitor of [computeForces] accumulates into [i] from [j] is the
    negation of the one it accumulates into [j] from [i]; beyond the
    visitor's own threshold it is the symmetric form
    [m2 * (p_i / rho_i^2 + p_j / rho_j^2)] times the spiky gradient at
    [p_i - p_j], negated. *)
Theorem SPH_pressure_antisymmetric (s : SPH.t) (n i j : nat)
    (p_i p_j : Vector3f) (P_i P_j d_i d_j : R) :
  sized s n → i < n → j < n → i ≠ j →
  SPH._positions s !! i = Some p_i → SPH._positions s !! j = Some p_j →
  SPH._pressures s !! i = Some P_i → SPH._pressures s !! j = Some P_j →
  SPH._densities s !! i = Some d_i → SPH._densities s !! j = Some d_j →
  (0 < squaredNorm (vsub p_i p_j) < SPH._h2 s)%R →
  ∃ f_ij f_ji,
    pressureContribution s i j = Some f_ij ∧
    pressureContribution s j i = Some f_ji ∧
    f_ij = vopp f_ji ∧
    ((0.00001 < squaredNorm (vsub p_i p_j))%R →
     f_ij = vopp (SPH.pressureTerm s P_i d_i P_j d_j (vsub p_i p_j)
                    (sqrt (squaredNorm (vsub p_i p_j))))).
Proof.
  intros Hs Hi Hj Hij Hpi Hpj HPi HPj Hdi Hdj Hr.
  destruct (forceVisitor_pair s n i j SPH.initAcc Hs Hi Hj Hij)
    as (v_i & v_j & n_i & n_j & d_i' & d_j' & P_i' & P_j' & p_i' & p_j'
        & _ & _ & _ & _ & Hdi' & Hdj' & HPi' & HPj' & Hpi' & Hpj' & Hij').
  destruct (forceVisitor_pair s n j i SPH.initAcc Hs Hj Hi ltac:(done))
    as (w_j & w_i & m_j & m_i & e_j & e_i & Q_j & Q_i & q_j & q_i
        & _ & _ & _ & _ & Hej & Hei & HQj & HQi & Hqj & Hqi & Hji').
  simplify_eq.
  unfold pressureContribution. rewrite Hij', Hji'. clear Hij' Hji'.
  rewrite (squaredNorm_vsub_sym p_j p_i).
  set (r2 := squaredNorm (vsub p_i p_j)) in *.
  destruct (SPH.pairBranch r2 (SPH._h2 s)) eqn:Hb; simpl.
  - eexists _, _. split_and!; try done.
    + rewrite (pressureTerm_swap s P_i d_i P_j d_j p_i p_j).
      apply Vector3f_eq; simpl; ring.
    + intros _. apply Vector3f_eq; simpl; ring.
  - apply pairBranch_Nudge in Hb. lra.
  - apply pairBranch_Skip in Hb. eexists _, _. split_and!; try done.
    + apply Vector3f_eq; simpl; ring.
    + intros Hlt. lra.
Qed.

Lemma fluid_pair_sized : sized fluid_pair 2.
Proof. by repeat split. Qed.

(** C8 on the pair of [fluid_pair]. *)
Lemma SPH_pressure_antisymmetric_witness :
  let p_i := centre in
  let p_j := mkVector3f 1 0.5 0.5 in
  ∃ f_ij f_ji,
    pressureContribution fluid_pair 0 1 = Some f_ij ∧
    pressureContribution fluid_pair 1 0 = Some f_ji ∧
    f_ij = vopp f_ji ∧
    ((0.00001 < squaredNorm (vsub p_i p_j))%R →
     f_ij = vopp (SPH.pressureTerm fluid_pair 1 1000 2 1000 (vsub p_i p_j)
                    (sqrt (squaredNorm (vsub p_i p_j))))).
Proof.
  apply (SPH_pressure_antisymmetric fluid_pair 2 0 1);
    [exact fluid_pair_sized | lia | lia | lia
    | reflexivity | reflexivity | reflexivity | reflexivity
    | reflexivity | reflexivity |].
  unfold squaredNorm, dot, vsub, centre. simpl. unfold sqr. lra.
Defined.

(** ** The force visitor, case by case *)

(** C4, as stated, fails: the pair of [fluid_close] is inside the support
    radius and not coincident, [0 < r2 < h2], and the visitor neither adds
    a force term nor displaces the neighbour. *)
Lemma SPH_close_pair_skipped :
  let r2 := squaredNorm (vsub centre (mkVector3f 0.502 0.5 0.5)) in
  (0 < r2 < SPH._h2 fluid_close)%R ∧
  ∀ a, SPH.forceVisitor 0 1 (fluid_close, a) = Some (fluid_close, a).
Proof.
  assert (0 < squaredNorm (vsub centre (mkVector3f 0.502 0.5 0.5))
          <= 0.00001)%R as Hr
    by (unfold squaredNorm, dot, vsub, centre; simpl; lra).
  split.
  - simpl. unfold sqr. lra.
  - intros a. unfold SPH.forceVisitor. simpl.
    rewrite (proj2 (pairBranch_Skip _ _)); [done|]. split; [lra|]. left. lra.
Qed.

(** C4, amended.  For a candidate [j] other than [i], both in range, the
    visitor of [computeForces] does exactly one of three things, by the
    squared distance [r2] of the two particles: for [0.00001 < r2 < h2] it
    accumulates the pressure, cohesion and curvature terms, and the
    viscosity term when the neighbour's density exceeds 0.0001; for
    [r2 = 0] it displaces the neighbour by 0.00001 along every axis and
    accumulates nothing; in every other case, [0 < r2 <= 0.00001] among
    them, it changes nothing. *)
Theorem SPH_forceVisitor_cases (s : SPH.t) (n i j : nat) (a : SPH.Acc)
    (p_i p_j v_i v_j n_i n_j : Vector3f) (d_i d_j P_i P_j : R) :
  sized s n → i < n → j < n → i ≠ j →
  SPH._positions s !! i = Some p_i → SPH._positions s !! j = Some p_j →
  SPH._velocities s !! i = Some v_i → SPH._velocities s !! j = Some v_j →
  SPH._normals s !! i = Some n_i → SPH._normals s !! j = Some n_j →
  SPH._densities s !! i = Some d_i → SPH._densities s !! j = Some d_j →
  SPH._pressures s !! i = Some P_i → SPH._pressures s !! j = Some P_j →
  let r := vsub p_i p_j in
  let r2 := squaredNorm r in
  let rn := sqrt r2 in
  let correctionFactor := (2 * SPH._restDensity s / (d_i + d_j))%R in
  ((0.00001 < r2 < SPH._h2 s)%R →
   ∃ a',
     SPH.forceVisitor i (Z.of_nat j) (s, a) = Some (s, a') ∧
     SPH.force a'
     = vsub (SPH.force a) (SPH.pressureTerm s P_i d_i P_j d_j r rn) ∧
     SPH.forceCohesion a'
     = vadd (SPH.forceCohesion a)
            (vscale (SPH.Kernel.surfaceTension (SPH._kernel s) rn)
                    (vscale correctionFactor r)) ∧
     SPH.forceCurvature a'
     = vadd (SPH.forceCurvature a) (vscale correctionFactor (vsub n_i n_j)) ∧
     ((0.0001 < d_j)%R →
      SPH.forceViscosity a'
      = vsub (SPH.forceViscosity a)
             (vscale (SPH.Kernel.viscosityLaplace (SPH._kernel s) rn / d_j)
                     (vsub v_i v_j))) ∧
     ((d_j <= 0.0001)%R → SPH.forceViscosity a' = SPH.forceViscosity a)) ∧
  (r2 = 0%R →
   SPH.forceVisitor i (Z.of_nat j) (s, a)
   = Some (SPH.set_positions
             (<[j := vadd p_j (splat 0.00001)]> (SPH._positions s)) s, a)) ∧
  (r2 ≠ 0%R → (r2 <= 0.00001 ∨ SPH._h2 s <= r2)%R →
   SPH.forceVisitor i (Z.of_nat j) (s, a) = Some (s, a)).
Proof.
  intros Hs Hi Hj Hij Hpi Hpj Hvi Hvj Hni Hnj Hdi Hdj HPi HPj r r2 rn cf.
  destruct (forceVisitor_pair s n i j a Hs Hi Hj Hij)
    as (v_i' & v_j' & n_i' & n_j' & d_i' & d_j' & P_i' & P_j' & p_i' & p_j'
        & ? & ? & ? & ? & ? & ? & ? & ? & ? & ? & Hrun).
  simplify_eq. fold r r2 in Hrun. rewrite Hrun. clear Hrun. split_and!.
  - intros Hr. rewrite (proj2 (pairBranch_Accumulate _ _) Hr).
    eexists. split; [done|]. unfold SPH.accumulate. simpl.
    split_and!; try done.
    + intros Hd. by rewrite Rltb_true.
    + intros Hd. by rewrite Rltb_false.
  - intros Hr. by rewrite (proj2 (pairBranch_Nudge _ _) Hr).
  - intros Hr0 Hr. by rewrite (proj2 (pairBranch_Skip _ _) (conj Hr0 Hr)).
Qed.

(** C4, amended, on the pair of [fluid_pair]. *)
Lemma SPH_forceVisitor_cases_witness :
  let s := fluid_pair in
  let a := SPH.initAcc in
  let r := vsub centre (mkVector3f 1 0.5 0.5) in
  let r2 := squaredNorm r in
  let rn := sqrt r2 in
  let correctionFactor := (2 * SPH._restDensity s / (1000 + 1000))%R in
  ((0.00001 < r2 < SPH._h2 s)%R →
   ∃ a',
     SPH.forceVisitor 0 (Z.of_nat 1) (s, a) = Some (s, a') ∧
     SPH.force a'
     = vsub (SPH.force a) (SPH.pressureTerm s 1 1000 2 1000 r rn) ∧
     SPH.forceCohesion a'
     = vadd (SPH.forceCohesion a)
            (vscale (SPH.Kernel.surfaceTension (SPH._kernel s) rn)
                    (vscale correctionFactor r)) ∧
     SPH.forceCurvature a'
     = vadd (SPH.forceCurvature a)
            (vscale correctionFactor (vsub (splat 0) (splat 0))) ∧
     ((0.0001 < 1000)%R →
      SPH.forceViscosity a'
      = vsub (SPH.forceViscosity a)
             (vscale (SPH.Kernel.viscosityLaplace (SPH._kernel s) rn / 1000)
                     (vsub (splat 0) (splat 0)))) ∧
     ((1000 <= 0.0001)%R → SPH.forceViscosity a' = SPH.forceViscosity a)) ∧
  (r2 = 0%R →
   SPH.forceVisitor 0 (Z.of_nat 1) (s, a)
   = Some (SPH.set_positions
             (<[1 := vadd (mkVector3f 1 0.5 0.5) (splat 0.00001)]>
                (SPH._positions s)) s, a)) ∧
  (r2 ≠ 0%R → (r2 <= 0.00001 ∨ SPH._h2 s <= r2)%R →
   SPH.forceVisitor 0 (Z.of_nat 1) (s, a) = Some (s, a)).
Proof.
  apply (SPH_forceVisitor_cases fluid_pair 2 0 1 SPH.initAcc
           centre (mkVector3f 1 0.5 0.5) (splat 0) (splat 0)
           (splat 0) (splat 0) 1000 1000 1 2);
    [exact fluid_pair_sized | lia | lia | lia | reflexivity..].
Defined.

(** ** What [computeForces] writes *)

Lemma lookup_preserves {St} (P : St → Prop) g pos radius
    (func : Z → St → option St) :
  (∀ j s s', P s → func j s = Some s' → P s') →
  ∀ s s', P s → Grid.lookup g pos radius func s = Some s' → P s'.
Proof.
  intros Hf. unfold Grid.lookup. apply forM_preserves.
  intros cell s s' _ HP. unfold Grid.visitCell.
  destruct (at_ (Grid._cellOffset g) (Grid.linear g cell)) as [lo|];
    simpl; [|done].
  destruct (at_ (Grid._cellOffset g) (wrap64 (Grid.linear g cell + 1)))
    as [hi|]; simpl; [|done].
  revert s s' HP. apply forM_preserves. intros j s s' _. apply Hf.
Qed.

(** The visitor leaves the solver as it is, or displaces a neighbour that
    coincides with the particle. *)
Lemma forceVisitor_inv i j s a s' a' :
  SPH.forceVisitor i j (s, a) = Some (s', a') →
  s' = s ∨
  ∃ p_i p_j,
    Z.of_nat i ≠ j ∧ SPH._positions s !! i = Some p_i ∧
    at_ (SPH._positions s) j = Some p_j ∧
    squaredNorm (vsub p_i p_j) = 0%R ∧
    s' = SPH.set_positions
           (<[Z.to_nat j := vadd p_j (splat 0.00001)]> (SPH._positions s)) s.
Proof.
  unfold SPH.forceVisitor.
  destruct (SPH._velocities s !! i); simpl; [|done].
  destruct (at_ (SPH._velocities s) j); simpl; [|done].
  destruct (SPH._normals s !! i); simpl; [|done].
  destruct (at_ (SPH._normals s) j); simpl; [|done].
  destruct (SPH._densities s !! i); simpl; [|done].
  destruct (at_ (SPH._densities s) j); simpl; [|done].
  destruct (SPH._pressures s !! i); simpl; [|done].
  destruct (at_ (SPH._pressures s) j); simpl; [|done].
  case_decide as Hij; [intros [= <- <-]; by left|].
  destruct (SPH._positions s !! i) as [p_i|]; simpl; [|done].
  destruct (at_ (SPH._positions s) j) as [p_j|]; simpl; [|done].
  destruct (SPH.pairBranch _ _) eqn:Hb; intros [= <- <-]; try by left.
  right. exists p_i, p_j. apply pairBranch_Nudge in Hb. done.
Qed.

Lemma forceVisitor_frame s0 i j s a s' a' :
  SPH.forceVisitor i j (s, a) = Some (s', a') →
  forces_frame s0 s →
  forces_frame s0 s' ∧ SPH._forces s' = SPH._forces s.
Proof.
  intros Hv HP. apply forceVisitor_inv in Hv as [->|Hn]; [done|].
  destruct Hn as (p_i & p_j & Hij & Hpi & Hpj & Hr & ->).
  destruct HP as (Hv & Hn & Hd & Hp & Hpos). split; [|done].
  unfold forces_frame. simpl. split_and!; try done.
  intros Hnc. exfalso. apply at_Some in Hpj as [Hj Hpj].
  rewrite (Hpos Hnc) in Hpi, Hpj.
  apply (Hnc i (Z.to_nat j) p_i p_j); [lia | done..].
Qed.

(** One task of [computeForces] writes its own entry of the force array. *)
Lemma computeForces_at_frame s0 i s s' :
  SPH.computeForces_at i s = Some s' →
  forces_frame s0 s →
  forces_frame s0 s' ∧
  ∃ f, SPH._forces s' = <[i := f]> (SPH._forces s).
Proof.
  unfold SPH.computeForces_at.
  destruct (SPH._positions s !! i) as [p|]; simpl; [|done].
  destruct (Grid.lookup _ _ _ _ _) as [[s1 a1]|] eqn:Hl; simpl; [|done].
  intros Hst HP.
  assert (forces_frame s0 s1 ∧ SPH._forces s1 = SPH._forces s) as [HP1 Hf1].
  { apply (lookup_preserves
             (λ st, forces_frame s0 st.1 ∧ SPH._forces st.1 = SPH._forces s)
             _ _ _ _) with (s := (s, SPH.initAcc)) (s' := (s1, a1)) in Hl;
      [done | | done].
    intros j [s2 a2] [s3 a3] [HP2 Hf2] Hv. simpl in *.
    destruct (forceVisitor_frame s0 i j s2 a2 s3 a3 Hv HP2) as [? Hf3].
    split; [done | congruence]. }
  unfold store in Hst. destruct (SPH._forces s1 !! i); simpl in Hst; [|done].
  injection Hst as <-. split.
  - exact HP1.
  - simpl. rewrite Hf1. eauto.
Qed.

(** ** Runs on the one-cell grid *)

Lemma Int_part_nonneg x : (0 <= x)%R → (0 ≤ Int_part x)%Z.
Proof.
  intros Hx. destruct (base_Int_part x) as [_ H].
  assert (-1 < IZR (Int_part x))%R as Hlt by lra.
  apply lt_IZR in Hlt. lia.
Qed.

Lemma Int_part_le_0 x : (x < 1)%R → (Int_part x ≤ 0)%Z.
Proof.
  intros Hx. destruct (base_Int_part x) as [H _].
  assert (IZR (Int_part x) < 1)%R as Hlt by lra.
  apply lt_IZR in Hlt. lia.
Qed.

(** A query box that reaches the unit cube goes through the one cell. *)
Lemma lookupCells_grid1 n pos radius :
  (0 <= f_x pos + radius ∧ f_x pos - radius < 2)%R →
  (0 <= f_y pos + radius ∧ f_y pos - radius < 2)%R →
  (0 <= f_z pos + radius ∧ f_z pos - radius < 2)%R →
  Grid.lookupCells (grid1 n) pos radius = [mkVector3i 0 0 0].
Proof.
  intros Hx Hy Hz.
  unfold Grid.lookupCells, Grid.lookupMin, Grid.lookupMax, Grid.index. simpl.
  rewrite !Z.max_r by (apply Int_part_le_0; lra).
  rewrite !Z.min_r by (apply Int_part_nonneg; lra).
  reflexivity.
Qed.

Lemma lookup_grid1 {St} n pos radius (func : Z → St → option St) (s : St) :
  (0 <= f_x pos + radius ∧ f_x pos - radius < 2)%R →
  (0 <= f_y pos + radius ∧ f_y pos - radius < 2)%R →
  (0 <= f_z pos + radius ∧ f_z pos - radius < 2)%R →
  (0 ≤ n)%Z →
  Grid.lookup (grid1 n) pos radius func s = forM func (seqZ 0 n) s.
Proof.
  intros Hx Hy Hz Hn. unfold Grid.lookup.
  rewrite (lookupCells_grid1 n pos radius Hx Hy Hz). simpl.
  unfold Grid.visitCell. simpl. rewrite Z.sub_0_r.
  by destruct (forM func (seqZ 0 n) s).
Qed.

Lemma forceVisitor_self s n (i : nat) a :
  sized s n → i < n →
  SPH.forceVisitor i (Z.of_nat i) (s, a) = Some (s, a).
Proof.
  intros (Hp & Hv & Hn & Hf & Hd & HP) Hi.
  destruct (lookup_lt_is_Some_2 (SPH._velocities s) i) as [v_i Hvi]; [lia|].
  destruct (lookup_lt_is_Some_2 (SPH._normals s) i) as [n_i Hni]; [lia|].
  destruct (lookup_lt_is_Some_2 (SPH._densities s) i) as [d_i Hdi]; [lia|].
  destruct (lookup_lt_is_Some_2 (SPH._pressures s) i) as [P_i HPi]; [lia|].
  unfold SPH.forceVisitor. rewrite !at_of_nat, Hvi, Hni, Hdi, HPi. simpl.
  by rewrite decide_True.
Qed.

Lemma forceVisitor_nudge s n (i j : nat) a p_i p_j :
  sized s n → i < n → j < n → i ≠ j →
  SPH._positions s !! i = Some p_i → SPH._positions s !! j = Some p_j →
  squaredNorm (vsub p_i p_j) = 0%R →
  SPH.forceVisitor i (Z.of_nat j) (s, a)
  = Some (SPH.set_positions
            (<[j := vadd p_j (splat 0.00001)]> (SPH._positions s)) s, a).
Proof.
  intros Hs Hi Hj Hij Hpi Hpj Hr.
  destruct (forceVisitor_pair s n i j a Hs Hi Hj Hij)
    as (? & ? & ? & ? & ? & ? & ? & ? & p_i' & p_j'
        & _ & _ & _ & _ & _ & _ & _ & _ & ? & ? & ->).
  simplify_eq. by rewrite (proj2 (pairBranch_Nudge _ _) Hr).
Qed.

Lemma forceVisitor_skip s n (i j : nat) a p_i p_j :
  sized s n → i < n → j < n → i ≠ j →
  SPH._positions s !! i = Some p_i → SPH._positions s !! j = Some p_j →
  squaredNorm (vsub p_i p_j) ≠ 0%R →
  (squaredNorm (vsub p_i p_j) <= 0.00001
   ∨ SPH._h2 s <= squaredNorm (vsub p_i p_j))%R →
  SPH.forceVisitor i (Z.of_nat j) (s, a) = Some (s, a).
Proof.
  intros Hs Hi Hj Hij Hpi Hpj Hr0 Hr.
  destruct (forceVisitor_pair s n i j a Hs Hi Hj Hij)
    as (? & ? & ? & ? & ? & ? & ? & ? & p_i' & p_j'
        & _ & _ & _ & _ & _ & _ & _ & _ & ? & ? & ->).
  simplify_eq. by rewrite (proj2 (pairBranch_Skip _ _) (conj Hr0 Hr)).
Qed.

Lemma fluid_coincident_sized : sized fluid_coincident 2.
Proof. by repeat split. Qed.

Lemma fluid_nudged_sized f : sized (SPH.set_forces [f; splat 0] fluid_nudged) 2.
Proof. by repeat split. Qed.

(** The task of particle 0 meets particle 1 at distance zero. *)
Lemma computeForces_at_coincident_0 :
  ∃ f, SPH.computeForces_at 0 fluid_coincident
       = Some (SPH.set_forces [f; splat 0] fluid_nudged).
Proof.
  unfold SPH.computeForces_at.
  change (SPH._positions fluid_coincident !! 0) with (Some centre).
  cbn [mbind option_bind].
  change (SPH._grid fluid_coincident) with (grid1 2).
  change (SPH._h fluid_coincident) with 2%R.
  rewrite lookup_grid1 by (unfold centre; simpl; lra || lia).
  change (seqZ 0 2) with [0%Z; 1%Z]. cbn [forM].
  rewrite (forceVisitor_self fluid_coincident 2 0 _ fluid_coincident_sized)
    by lia.
  cbn [mbind option_bind].
  rewrite (forceVisitor_nudge fluid_coincident 2 0 1 _ centre centre
             fluid_coincident_sized);
    [| lia | lia | lia | done | done
     | unfold squaredNorm, dot, vsub; simpl; ring].
  cbn [mbind option_bind]. eexists. reflexivity.
Qed.

(** The task of particle 1 then finds particle 0 too close to count. *)
Lemma computeForces_at_coincident_1 f :
  ∃ f', SPH.computeForces_at 1 (SPH.set_forces [f; splat 0] fluid_nudged)
        = Some (SPH.set_forces [f; f'] fluid_nudged).
Proof.
  unfold SPH.computeForces_at.
  change (SPH._positions (SPH.set_forces [f; splat 0] fluid_nudged) !! 1)
    with (Some (vadd centre (splat 0.00001))).
  cbn [mbind option_bind].
  change (SPH._grid (SPH.set_forces [f; splat 0] fluid_nudged))
    with (grid1 2).
  change (SPH._h (SPH.set_forces [f; splat 0] fluid_nudged)) with 2%R.
  rewrite lookup_grid1 by (unfold centre; simpl; lra || lia).
  change (seqZ 0 2) with [0%Z; 1%Z]. cbn [forM].
  rewrite (forceVisitor_skip _ 2 1 0 _ (vadd centre (splat 0.00001)) centre
             (fluid_nudged_sized f));
    [| lia | lia | lia | done | done
     | unfold squaredNorm, dot, vsub, vadd, centre; simpl; lra
     | left; unfold squaredNorm, dot, vsub, vadd, centre; simpl; lra].
  cbn [mbind option_bind].
  rewrite (forceVisitor_self _ 2 1 _ (fluid_nudged_sized f)) by lia.
  cbn [mbind option_bind]. eexists. reflexivity.
Qed.

(** C5, as stated, fails: on two particles at the same place the force
    pass displaces the second one. *)
Lemma SPH_computeForces_moves_coincident :
  ∃ s', SPH.computeForces fluid_coincident = Some s' ∧
        SPH._positions s' = [centre; vadd centre (splat 0.00001)] ∧
        SPH._positions s' ≠ SPH._positions fluid_coincident.
Proof.
  destruct computeForces_at_coincident_0 as [f0 H0].
  destruct (computeForces_at_coincident_1 f0) as [f1 H1].
  exists (SPH.set_forces [f0; f1] fluid_nudged). split_and!.
  - unfold SPH.computeForces, SPH.iterate.
    change (seq 0 (length (SPH._positions fluid_coincident))) with [0; 1].
    cbn [forM]. rewrite H0. cbn [mbind option_bind]. rewrite H1. done.
  - done.
  - simpl. intros [= H]. unfold centre in H. simpl in H. lra.
Qed.

(** C5, amended.  A call of [computeForces] leaves the velocities, normals,
    densities and pressures as they are; every task writes one entry of
    the force array, its own; and the positions are unchanged as well
    provided no two distinct particles are at the same place (the visitor
    displaces a candidate that coincides with the particle). *)
Theorem SPH_computeForces_frame (s s' : SPH.t) :
  SPH.computeForces s = Some s' →
  SPH._velocities s' = SPH._velocities s ∧
  SPH._normals s' = SPH._normals s ∧
  SPH._densities s' = SPH._densities s ∧
  SPH._pressures s' = SPH._pressures s ∧
  (no_coincident (SPH._positions s) → SPH._positions s' = SPH._positions s) ∧
  length (SPH._forces s') = length (SPH._forces s) ∧
  (∀ i s1 s2, SPH.computeForces_at i s1 = Some s2 →
              ∃ f, SPH._forces s2 = <[i := f]> (SPH._forces s1)).
Proof.
  intros Hrun. unfold SPH.computeForces, SPH.iterate in Hrun.
  assert (forces_frame s s'
          ∧ length (SPH._forces s') = length (SPH._forces s)) as [HP Hl].
  { revert Hrun.
    apply (forM_preserves SPH.computeForces_at
             (λ t, forces_frame s t
                   ∧ length (SPH._forces t) = length (SPH._forces s))).
    - intros i t t' _ [HP Hl] Hi.
      destruct (computeForces_at_frame s i t t' Hi HP) as [HP' [f Hf]].
      split; [done|]. by rewrite Hf, length_insert.
    - unfold forces_frame. done. }
  destruct HP as (? & ? & ? & ? & ?). split_and!; try done.
  intros i s1 s2 Hi.
  destruct (computeForces_at_frame s1 i s1 s2 Hi) as [_ Hf]; [|done].
  unfold forces_frame. done.
Qed.

Lemma fluid_close_sized f f' : sized (SPH.set_forces [f; f'] fluid_close) 2.
Proof. by repeat split. Qed.

Lemma fluid_close_no_coincident :
  no_coincident (SPH._positions fluid_close).
Proof.
  intros i j p_i p_j Hij Hi Hj.
  destruct i as [|[|i]], j as [|[|j]]; simpl in *; simplify_eq;
    unfold squaredNorm, dot, vsub, centre; simpl; lra.
Qed.

(** On [fluid_close] both tasks find the other particle too close to
    count, and no force but gravity is written. *)
Lemma computeForces_close :
  ∃ f0 f1, SPH.computeForces fluid_close
           = Some (SPH.set_forces [f0; f1] fluid_close).
Proof.
  assert (∀ i j f f' a, i < 2 → j < 2 →
            SPH.forceVisitor i (Z.of_nat j)
              (SPH.set_forces [f; f'] fluid_close, a)
            = Some (SPH.set_forces [f; f'] fluid_close, a)) as Hvis.
  { intros i j f f' a Hi Hj. destruct (decide (i = j)) as [->|Hij].
    - apply (forceVisitor_self _ 2); [apply fluid_close_sized | done].
    - destruct (lookup_lt_is_Some_2 (SPH._positions fluid_close) i)
        as [p_i Hpi]; [simpl; lia|].
      destruct (lookup_lt_is_Some_2 (SPH._positions fluid_close) j)
        as [p_j Hpj]; [simpl; lia|].
      apply (forceVisitor_skip _ 2 i j a p_i p_j);
        [apply fluid_close_sized | done.. | |].
      + by apply (fluid_close_no_coincident i j).
      + left. destruct i as [|[|i]], j as [|[|j]]; simpl in *; simplify_eq;
          unfold squaredNorm, dot, vsub, centre; simpl; lra. }
  assert (∀ (i : nat) f f' p,
            SPH._positions fluid_close !! i = Some p →
            ∃ f'', SPH.computeForces_at i (SPH.set_forces [f; f'] fluid_close)
                   = Some (SPH.set_forces (<[i := f'']> [f; f']) fluid_close))
    as Hat.
  { intros i f f' p Hp.
    assert (i < 2) as Hi by (apply lookup_lt_Some in Hp; simpl in Hp; lia).
    unfold SPH.computeForces_at.
    change (SPH._positions (SPH.set_forces [f; f'] fluid_close))
      with (SPH._positions fluid_close).
    rewrite Hp. cbn [mbind option_bind].
    change (SPH._grid (SPH.set_forces [f; f'] fluid_close)) with (grid1 2).
    change (SPH._h (SPH.set_forces [f; f'] fluid_close)) with 2%R.
    rewrite lookup_grid1;
      [| destruct i as [|[|i]]; simpl in Hp; simplify_eq;
         unfold centre; simpl; lra.. | lia].
    change (seqZ 0 2) with [Z.of_nat 0; Z.of_nat 1]. cbn [forM].
    rewrite Hvis by lia. cbn [mbind option_bind].
    rewrite Hvis by lia. cbn [mbind option_bind]. unfold store.
    change (SPH._forces (SPH.set_forces [f; f'] fluid_close)) with [f; f'].
    destruct (lookup_lt_is_Some_2 [f; f'] i) as [x ->]; [simpl; lia|].
    cbn [mbind option_bind]. eexists. reflexivity. }
  destruct (Hat 0 (splat 0) (splat 0) centre eq_refl) as [f0 H0].
  destruct (Hat 1 f0 (splat 0) (mkVector3f 0.502 0.5 0.5) eq_refl) as [f1 H1].
  exists f0, f1. unfold SPH.computeForces, SPH.iterate.
  change (seq 0 (length (SPH._positions fluid_close))) with [0; 1].
  cbn [forM].
  change fluid_close with (SPH.set_forces [splat 0; splat 0] fluid_close) at 1.
  rewrite H0. cbn [mbind option_bind].
  change (<[0:=f0]> [splat 0; splat 0]) with [f0; splat 0].
  rewrite H1. done.
Qed.

(** C5, amended, on [fluid_close], where no two particles coincide. *)
Lemma SPH_computeForces_frame_witness :
  ∃ s', SPH.computeForces fluid_close = Some s' ∧
        SPH._velocities s' = SPH._velocities fluid_close ∧
        SPH._normals s' = SPH._normals fluid_close ∧
        SPH._densities s' = SPH._densities fluid_close ∧
        SPH._pressures s' = SPH._pressures fluid_close ∧
        SPH._positions s' = SPH._positions fluid_close ∧
        length (SPH._forces s') = length (SPH._forces fluid_close).
Proof.
  destruct computeForces_close as (f0 & f1 & Hrun).
  exists (SPH.set_forces [f0; f1] fluid_close).
  destruct (SPH_computeForces_frame fluid_close _ Hrun)
    as (Hv & Hn & Hd & Hp & Hpos & Hl & _).
  split_and!;
    [exact Hrun | exact Hv | exact Hn | exact Hd | exact Hp
    | apply Hpos, fluid_close_no_coincident | exact Hl].
Defined.

(** ** [computeCollisions] *)

Lemma collisionHandler_other i n d s s' (k : nat) :
  SPH.collisionHandler i n d s = Some s' → k ≠ i →
  SPH._positions s' !! k = SPH._positions s !! k ∧
  SPH._velocities s' !! k = SPH._velocities s !! k.
Proof.
  unfold SPH.collisionHandler. intros H Hk.
  destruct (SPH._positions s !! i) as [p|]; simpl in H; [|done].
  destruct (SPH._velocities s !! i) as [v|]; simpl in H; [|done].
  injection H as <-. simpl. by rewrite !list_lookup_insert_ne.
Qed.

Lemma collide_other i s s' (k : nat) :
  SPH.collide SPH.collisionHandler i s = Some s' → k ≠ i →
  SPH._positions s' !! k = SPH._positions s !! k ∧
  SPH._velocities s' !! k = SPH._velocities s !! k.
Proof.
  intros H Hk. unfold SPH.collide in H.
  repeat match type of H with
  | (?t ≫= _) = Some _ =>
      let E := fresh "E" in
      destruct t as [?s|] eqn:E; simpl in H; [|done]
  end.
  repeat match goal with
  | E : (SPH._positions ?t !! i ≫= _) = Some ?t' |- _ =>
      let H' := fresh "H" in
      assert (SPH._positions t' !! k = SPH._positions t !! k ∧
              SPH._velocities t' !! k = SPH._velocities t !! k) as H';
      [ destruct (SPH._positions t !! i) as [?p|]; simpl in E; [|done];
        match type of E with
        | (if ?b then _ else _) = _ =>
            destruct b; [by eapply collisionHandler_other | by injection E as <-]
        end
      | clear E ]
  end.
  assert (SPH._positions s' !! k = SPH._positions s4 !! k ∧
          SPH._velocities s' !! k = SPH._velocities s4 !! k) as H5.
  { match type of H with
    | (if ?b then _ else _) = _ =>
        destruct b; [by eapply collisionHandler_other | by injection H as <-]
    end. }
  destruct_and!. split; congruence.
Qed.

(** [computeCollisions] never looks at the last particle. *)
Lemma computeCollisions_last_untouched s s' :
  SPH.computeCollisions SPH.collisionHandler s = Some s' →
  let k := length (SPH._positions s) - 1 in
  0 < length (SPH._positions s) →
  SPH._positions s' !! k = SPH._positions s !! k ∧
  SPH._velocities s' !! k = SPH._velocities s !! k.
Proof.
  intros Hrun k HN. unfold SPH.computeCollisions in Hrun. revert Hrun.
  apply (forM_preserves (SPH.collide SPH.collisionHandler)
           (λ t, SPH._positions t !! k = SPH._positions s !! k ∧
                 SPH._velocities t !! k = SPH._velocities s !! k));
    [|done].
  intros i t t' Hi [Hp Hv] Hc. apply elem_of_seq in Hi.
  assert (i < k) as Hik.
  { unfold wrap64 in Hi.
    pose proof (Z.mod_le (Z.of_nat (length (SPH._positions s)) - 1) (2 ^ 64)).
    unfold k. lia. }
  destruct (collide_other i t t' k Hc) as [Hp' Hv']; [lia|].
  split; congruence.
Qed.

(** A particle inside the domain passes the six tests untouched. *)
Lemma collide_inside handler i s p :
  SPH._positions s !! i = Some p →
  (f_x (box_min (SPH._bounds s)) <= f_x p <= f_x (box_max (SPH._bounds s)))%R →
  (f_y (box_min (SPH._bounds s)) <= f_y p <= f_y (box_max (SPH._bounds s)))%R →
  (f_z (box_min (SPH._bounds s)) <= f_z p <= f_z (box_max (SPH._bounds s)))%R →
  SPH.collide handler i s = Some s.
Proof.
  intros Hp Hx Hy Hz. unfold SPH.collide. cbv zeta beta.
  do 6 (rewrite Hp; cbn [mbind option_bind];
        rewrite Rltb_false by lra; cbn [mbind option_bind]).
  done.
Qed.

(** A visited particle below the minimum corner along x, and inside the
    domain along y and z, is put on the plane [x = min.x]; its velocity
    loses 1.5 times its component along the face normal. *)
Lemma collide_below_min_x i s p v :
  SPH._positions s !! i = Some p → SPH._velocities s !! i = Some v →
  (f_x p < f_x (box_min (SPH._bounds s)) <= f_x (box_max (SPH._bounds s)))%R →
  (f_y (box_min (SPH._bounds s)) <= f_y p <= f_y (box_max (SPH._bounds s)))%R →
  (f_z (box_min (SPH._bounds s)) <= f_z p <= f_z (box_max (SPH._bounds s)))%R →
  ∃ s' p' v',
    SPH.collide SPH.collisionHandler i s = Some s' ∧
    SPH._positions s' !! i = Some p' ∧ SPH._velocities s' !! i = Some v' ∧
    f_x p' = f_x (box_min (SPH._bounds s)) ∧ f_y p' = f_y p ∧ f_z p' = f_z p ∧
    v' = vsub v (vscale ((1 + 0.5) * dot v (mkVector3f 1 0 0))
                        (mkVector3f 1 0 0)).
Proof.
  intros Hp Hv Hx Hy Hz.
  set (n := mkVector3f 1 0 0).
  set (d := (f_x (box_min (SPH._bounds s)) - f_x p)%R).
  set (p' := vadd p (vscale d n)).
  set (v' := vsub v (vscale ((1 + 0.5) * dot v n) n)).
  set (s' := SPH.set_velocities (<[i := v']> (SPH._velocities s))
               (SPH.set_positions (<[i := p']> (SPH._positions s)) s)).
  assert (i < length (SPH._positions s)) by by eapply lookup_lt_Some.
  assert (i < length (SPH._velocities s)) by by eapply lookup_lt_Some.
  assert (SPH._positions s' !! i = Some p') as Hp'
    by (simpl; by apply list_lookup_insert_eq).
  assert (SPH._velocities s' !! i = Some v') as Hv'
    by (simpl; by apply list_lookup_insert_eq).
  assert (f_x p' = f_x (box_min (SPH._bounds s))) as Hx'
    by (unfold p', d; simpl; ring).
  assert (f_y p' = f_y p) as Hy' by (unfold p'; simpl; ring).
  assert (f_z p' = f_z p) as Hz' by (unfold p'; simpl; ring).
  exists s', p', v'. split_and!; try done.
  unfold SPH.collide. cbv zeta beta.
  rewrite Hp. cbn [mbind option_bind]. rewrite Rltb_true by lra.
  change (SPH.collisionHandler i _ _ s) with (SPH.collisionHandler i n d s).
  assert (SPH.collisionHandler i n d s = Some s') as ->.
  { unfold SPH.collisionHandler. rewrite Hp. simpl. by rewrite Hv. }
  cbn [mbind option_bind]. change (SPH._bounds s') with (SPH._bounds s).
  do 5 (rewrite Hp'; cbn [mbind option_bind];
        rewrite Rltb_false by lra; cbn [mbind option_bind]).
  done.
Qed.

(** C1 fails on the code at the last particle: [fluid_outside] has its
    last particle outside the domain (x = -1 below the minimum corner 0),
    and the pass that [update] runs returns the state as it was. *)
Theorem SPH_computeCollisions_skips_last :
  SPH.computeCollisions SPH.collisionHandler fluid_outside
  = Some fluid_outside ∧
  ∃ p, SPH._positions fluid_outside !! 1 = Some p ∧
       (f_x p < f_x (box_min (SPH._bounds fluid_outside)))%R.
Proof.
  split.
  - unfold SPH.computeCollisions.
    change (seq 0 _) with [0]. cbn [forM].
    rewrite (collide_inside _ 0 fluid_outside centre);
      [done | done | simpl; lra..].
  - eexists. split; [reflexivity|]. simpl. lra.
Qed.

(** ** The normalization of the density kernel *)

Lemma monomial_lim (a : R) (n : nat) (r : R) :
  derivable_pt_lim (λ r, a * r ^ n)%R r (a * (INR n * r ^ pred n))%R.
Proof.
  change (λ r, a * r ^ n)%R with (mult_real_fct a (λ r, r ^ n)%R).
  apply derivable_pt_lim_scal, derivable_pt_lim_pow.
Qed.

Lemma shell_mass_lim c h r :
  derivable_pt_lim (shell_mass c h) r (shell_weight c (SPH.Kernel.init h) r).
Proof.
  unfold shell_mass, shell_weight, SPH.Kernel.poly6, cube, sqr. simpl SPH.Kernel.h2.
  replace (4 * PI * (r * r)
           * (c * ((sqr h - r * r) * (sqr h - r * r) * (sqr h - r * r))))%R
    with (4 * PI * c
          * (h ^ 6 / 3 * (INR 3 * r ^ 2) - 3 * h ^ 4 / 5 * (INR 5 * r ^ 4)
             + 3 * h ^ 2 / 7 * (INR 7 * r ^ 6) - 1 / 9 * (INR 9 * r ^ 8)))%R
    by (unfold sqr; simpl; field).
  change (λ r, 4 * PI * c
               * (h ^ 6 / 3 * r ^ 3 - 3 * h ^ 4 / 5 * r ^ 5
                  + 3 * h ^ 2 / 7 * r ^ 7 - 1 / 9 * r ^ 9))%R
    with (mult_real_fct (4 * PI * c)
            (minus_fct
               (plus_fct (minus_fct (λ r, h ^ 6 / 3 * r ^ 3)%R
                                    (λ r, 3 * h ^ 4 / 5 * r ^ 5)%R)
                         (λ r, 3 * h ^ 2 / 7 * r ^ 7)%R)
               (λ r, 1 / 9 * r ^ 9)%R)).
  apply derivable_pt_lim_scal.
  apply derivable_pt_lim_minus;
    [apply derivable_pt_lim_plus; [apply derivable_pt_lim_minus|]|].
  - exact (monomial_lim (h ^ 6 / 3) 3 r).
  - exact (monomial_lim (3 * h ^ 4 / 5) 5 r).
  - exact (monomial_lim (3 * h ^ 2 / 7) 7 r).
  - exact (monomial_lim (1 / 9) 9 r).
Qed.

Lemma RiemannInt_antiderivative f F a b (pr : Riemann_integrable f a b) :
  (a <= b)%R → (∀ x, (a <= x <= b)%R → continuity_pt f x) →
  antiderivative f F a b → RiemannInt pr = (F b - F a)%R.
Proof.
  intros H H0 H2.
  rewrite (RiemannInt_P20 H (FTC_P1 H H0) pr).
  pose proof (RiemannInt_P29 H H0) as H1.
  destruct (antiderivative_Ucte f _ _ _ _ H1 H2) as [C H3].
  rewrite !H3; [ring | lra | lra].
Qed.

Lemma shell_weight_continuous c h r :
  continuity_pt (shell_weight c (SPH.Kernel.init h)) r.
Proof.
  apply derivable_continuous_pt.
  unfold shell_weight, SPH.Kernel.poly6, cube, sqr. simpl SPH.Kernel.h2.
  unfold sqr. reg.
Qed.

(** The integral of the density kernel with constant [c] over its
    support. *)
Lemma shell_weight_integral c h
    (pr : Riemann_integrable (shell_weight c (SPH.Kernel.init h)) 0 h) :
  (0 <= h)%R → RiemannInt pr = (c * (64 * PI * h ^ 9 / 315))%R.
Proof.
  intros Hh. rewrite (RiemannInt_antiderivative _ (shell_mass c h)).
  - unfold shell_mass. simpl. field.
  - assumption.
  - intros. apply shell_weight_continuous.
  - split; [|assumption]. intros x _.
    exists (exist _ _ (shell_mass_lim c h x)). reflexivity.
Qed.

(** The constant that normalizes the density kernel is [315/(64 pi h^9)],
    and no other. *)
Lemma shell_weight_normalised c h
    (pr : Riemann_integrable (shell_weight c (SPH.Kernel.init h)) 0 h) :
  (0 < h)%R →
  RiemannInt pr = 1%R ↔ c = (315 / (64 * PI * h ^ 9))%R.
Proof.
  intros Hh. rewrite (shell_weight_integral c h pr) by lra.
  pose proof PI_RGT_0. assert (0 < h ^ 9)%R by (apply pow_lt; lra).
  assert (0 < 64 * PI * h ^ 9)%R by nra.
  split.
  - intros Hc. apply (Rmult_eq_reg_r (64 * PI * h ^ 9 / 315)); [|lra].
    rewrite Hc. field. lra.
  - intros ->. field. lra.
Qed.

(** The gradient constant of [Kernel::init] is the one that belongs to
    the normalized kernel, [-6 * 315/(64 pi h^9)], not to the constant
    [init] stores for the kernel itself. *)
Lemma poly6GradConstant_from_315 h :
  (0 < h)%R →
  SPH.Kernel.poly6GradConstant (SPH.Kernel.init h)
  = (-6 * (315 / (64 * PI * h ^ 9)))%R
  ∧ SPH.Kernel.poly6GradConstant (SPH.Kernel.init h)
    ≠ (-6 * SPH.Kernel.poly6Constant (SPH.Kernel.init h))%R.
Proof.
  intros Hh.
  change (SPH.Kernel.poly6GradConstant (SPH.Kernel.init h))
    with (-945 / (32 * PI * h ^ 9))%R.
  change (SPH.Kernel.poly6Constant (SPH.Kernel.init h))
    with (365 / (64 * PI * h ^ 9))%R.
  pose proof PI_RGT_0. assert (0 < h ^ 9)%R by (apply pow_lt; lra).
  set (d := (PI * h ^ 9)%R) in *.
  assert (0 < d)%R by (unfold d; nra).
  replace (32 * PI * h ^ 9)%R with (32 * d)%R by (unfold d; ring).
  replace (64 * PI * h ^ 9)%R with (64 * d)%R by (unfold d; ring).
  split; [field; lra|]. intros Heq.
  apply (f_equal (λ x, x * (32 * d))%R) in Heq.
  field_simplify in Heq; lra.
Qed.

(** C2 fails on the code: [Kernel::init] stores 365, not 315, over
    [64 pi h^9].  At [h = 1] the stored constant is [365/(64 pi)], and the
    density kernel it scales integrates over its support to [73/63], not
    to 1. *)
Theorem SPH_poly6Constant_not_normalised :
  SPH.Kernel.poly6Constant (SPH.Kernel.init 1) = (365 / (64 * PI * 1 ^ 9))%R ∧
  SPH.Kernel.poly6Constant (SPH.Kernel.init 1) ≠ (315 / (64 * PI * 1 ^ 9))%R ∧
  ∀ pr : Riemann_integrable
           (shell_weight (SPH.Kernel.poly6Constant (SPH.Kernel.init 1))
                         (SPH.Kernel.init 1)) 0 1,
    RiemannInt pr = (73 / 63)%R ∧ RiemannInt pr ≠ 1%R.
Proof.
  pose proof PI_RGT_0.
  change (SPH.Kernel.poly6Constant (SPH.Kernel.init 1))
    with (365 / (64 * PI * 1 ^ 9))%R.
  replace (64 * PI * 1 ^ 9)%R with (64 * PI)%R by (simpl; ring).
  split_and!.
  - done.
  - intros Heq. apply (f_equal (λ x, x * (64 * PI))%R) in Heq.
    field_simplify in Heq; lra.
  - intros pr. rewrite (shell_weight_integral _ 1 pr) by lra.
    assert (365 / (64 * PI) * (64 * PI * 1 ^ 9 / 315) = 73 / 63)%R as ->
      by (simpl; field; lra).
    split; [done | lra].
Qed.

(** ** The settings and the step *)

Section Commute.
Context {A B : Type} (φ : A → B).
Context (f : nat → nat → A → option A) (h : nat → nat → B → option B).
Hypothesis step : ∀ i j a, h i j (φ a) = φ <$> f i j a.


End Commute.


Section Tuning.
Context (x : SPH.Settings).









End Tuning.









(** Whatever the time-driven branches of [update] choose, the gravity the
    stages see is the one assigned last. *)
Lemma update_stages fuel dt s :
  SPH.update fuel dt s
  = SPH.stages fuel dt
      (SPH.set_gravity fixed_gravity (SPH.set_t (SPH._t s + dt) s)).
Proof.
  unfold SPH.update. cbv zeta.
  destruct (Rltb _ 1); [done|]. destruct (Rltb _ 2); [done|].
  by destruct (Rltb _ 3).
Qed.




(** ** A step of the lone particle *)














(** ** [update] on 2{^32} particles or more *)

Lemma wrap32_range z : (0 ≤ wrap32 z < 2 ^ 32)%Z.
Proof. unfold wrap32. apply Z.mod_pos_bound. lia. Qed.

Lemma all_uint32_insert l i z : all_uint32 l → all_uint32 (<[i := wrap32 z]> l).
Proof. intros Hl. apply Forall_insert; [exact Hl | apply wrap32_range]. Qed.

Lemma all_uint32_at l c v : all_uint32 l → at_ l c = Some v → (0 ≤ v < 2 ^ 32)%Z.
Proof.
  intros Hl Hv. apply at_Some in Hv as [_ Hv].
  exact (proj1 (Forall_lookup _ l) Hl _ _ Hv).
Qed.

(** The cursors [cellIndex] are 32-bit values when the sort starts... *)
Lemma offsetPass_uint32 g cnt cellIndex offs :
  Grid.offsetPass g cnt = Some (cellIndex, offs) → all_uint32 cellIndex.
Proof.
  unfold Grid.offsetPass. intros H.
  destruct (forM (Grid.offsetBody cnt) (seq 0 (Z.to_nat (Grid.cellCount g)))
                 (0%Z, replicate (Z.to_nat (Grid.cellCount g)) 0%Z,
                  Grid._cellOffset g)) as [[[ix ci] os]|] eqn:E; [|done].
  cbn [mbind option_bind] in H.
  assert (all_uint32 ci) as Hci.
  { apply (forM_preserves (Grid.offsetBody cnt)
             (λ st : Z * list Z * list Z, all_uint32 st.1.2) _) in E;
      [exact E | | ].
    - intros i [[ix0 ci0] os0] [[ix1 ci1] os1] _ H0 Hb. simpl in *.
      unfold Grid.offsetBody in Hb.
      destruct (os0 !! i); [|done]. destruct (cnt !! i); [|done].
      cbn [mbind option_bind] in Hb. injection Hb as _ <- _.
      by apply all_uint32_insert.
    - simpl. apply Forall_replicate. lia. }
  destruct (length os); [done|]. by injection H as <- _.
Qed.

Section Stuck.
Context {A : Type} (swap : nat → nat → A → option A) (offs : list Z).

(** ... and stay so through every round of the sort. *)
Lemma sortWhile_uint32 fuel i indices cellIndex a indices' cellIndex' a' :
  all_uint32 cellIndex →
  Grid.sortWhile swap offs fuel i (indices, cellIndex, a)
  = Some (indices', cellIndex', a') →
  all_uint32 cellIndex'.
Proof.
  revert indices cellIndex a.
  induction fuel as [|fuel IH]; intros indices cellIndex a Hci H; [done|].
  cbn [Grid.sortWhile] in H.
  destruct (Grid.unplaced offs i indices cellIndex) as [[|]|]; [| |done].
  - cbn [mbind option_bind] in H.
    destruct (indices !! i) as [c|]; [|done].
    cbn [mbind option_bind] in H.
    destruct (at_ cellIndex c) as [j|]; [|done].
    cbn [mbind option_bind] in H.
    destruct (swap_at indices i (Z.to_nat j)) as [ind1|]; [|done].
    cbn [mbind option_bind] in H.
    destruct (swap i (Z.to_nat j) a) as [a1|]; [|done].
    cbn [mbind option_bind] in H.
    eapply IH; [|exact H]. by apply all_uint32_insert.
  - cbn [mbind option_bind] in H. by injection H as _ <- _.
Qed.

(** From slot 2{^32}-1 on the first test of the [while] cannot fail: a
    32-bit cursor is never above [i]. *)
Lemma unplaced_last_slot i indices cellIndex :
  (2 ^ 32 - 1 ≤ Z.of_nat i)%Z → all_uint32 cellIndex →
  Grid.unplaced offs i indices cellIndex ≠ Some false.
Proof.
  intros Hi Hci. unfold Grid.unplaced.
  destruct (indices !! i) as [c|]; [|done]. cbn [mbind option_bind].
  destruct (at_ cellIndex c) as [ci|] eqn:E; [|done]. cbn [mbind option_bind].
  pose proof (all_uint32_at _ _ _ Hci E).
  destruct (Z.leb_spec ci (Z.of_nat i)); [done | lia].
Qed.

(** So the [while] of that slot never ends, whatever the fuel. *)
Lemma sortWhile_last_slot fuel i indices cellIndex a :
  (2 ^ 32 - 1 ≤ Z.of_nat i)%Z → all_uint32 cellIndex →
  Grid.sortWhile swap offs fuel i (indices, cellIndex, a) = None.
Proof.
  intros Hi. revert indices cellIndex a.
  induction fuel as [|fuel IH]; intros indices cellIndex a Hci; [done|].
  cbn [Grid.sortWhile].
  pose proof (unplaced_last_slot i indices cellIndex Hi Hci) as Hne.
  destruct (Grid.unplaced offs i indices cellIndex) as [[|]|]; [| done | done].
  cbn [mbind option_bind].
  destruct (indices !! i) as [c|]; [|done]. cbn [mbind option_bind].
  destruct (at_ cellIndex c) as [j|]; [|done]. cbn [mbind option_bind].
  destruct (swap_at indices i (Z.to_nat j)) as [ind1|]; [|done].
  cbn [mbind option_bind].
  destruct (swap i (Z.to_nat j) a) as [a1|]; [|done].
  cbn [mbind option_bind].
  apply IH. by apply all_uint32_insert.
Qed.

Lemma sortPass_large fuel count indices cellIndex a :
  (2 ^ 32 ≤ Z.of_nat count)%Z → all_uint32 cellIndex →
  Grid.sortPass swap offs fuel count (indices, cellIndex, a) = None.
Proof.
  unfold Grid.sortPass. intros Hn Hci.
  destruct count as [|k]; [lia|].
  rewrite seq_S, forM_app. cbn [plus].
  destruct (forM (Grid.sortWhile swap offs fuel) (seq 0 k)
                 (indices, cellIndex, a)) as [[[ind1 ci1] a1]|] eqn:E; [|done].
  cbn [mbind option_bind forM].
  rewrite sortWhile_last_slot; [done | lia |].
  apply (forM_preserves (Grid.sortWhile swap offs fuel)
           (λ st : list Z * list Z * A, all_uint32 st.1.2) _) in E;
    [exact E | | exact Hci].
  intros i [[ind0 ci0] a0] [[ind2 ci2] a2] _ H0 Hb. simpl in *.
  by eapply sortWhile_uint32.
Qed.
End Stuck.

(** [update] does not return on 2{^32} particles or more, whatever the
    grid, the particles, the callback and the fuel. *)
Lemma update_large {A} fuel g positions
    (swap : nat → nat → A → option A) (a : A) :
  (2 ^ 32 ≤ Z.of_nat (length positions))%Z →
  Grid.update fuel g positions swap a = None.
Proof.
  intros Hn. unfold Grid.update.
  destruct (Grid.countPass g positions) as [[indices cnt]|]; [|done].
  cbn [mbind option_bind].
  destruct (Grid.offsetPass g cnt) as [[cellIndex offs]|] eqn:E; [|done].
  cbn [mbind option_bind].
  rewrite sortPass_large; [done | exact Hn |].
  by eapply offsetPass_uint32.
Qed.

Lemma crowd_length : Z.of_nat (length crowd) = (2 ^ 32)%Z.
Proof. unfold crowd. rewrite length_replicate. apply Z2Nat.id. lia. Qed.

(** C10, as a counterexample to the claim as stated: the 2{^32} particles
    of [crowd] all map to the valid cell (0,0,0) of [grid222], and
    [update] does not return on them, whatever the fuel.  At the last
    slot, [i] = 2{^32}-1, the test [i >= cellIndex[indices[i]]] holds for
    every value a [uint32_t] takes, so the [while] is entered again after
    every swap. *)
Lemma Grid_update_diverges_on_crowd :
  grid_wf grid222 ∧
  Forall (λ p, valid_cell grid222 (Grid.index grid222 p)) crowd ∧
  Z.of_nat (length crowd) = (2 ^ 32)%Z ∧
  (∀ fuel : nat, Grid.update fuel grid222 crowd record_swap [] = None) ∧
  (∀ (offs indices cellIndex : list Z),
     all_uint32 cellIndex →
     Grid.unplaced offs (Z.to_nat (2 ^ 32 - 1)) indices cellIndex
     ≠ Some false).
Proof.
  split; [exact grid222_wf|]. split.
  { unfold crowd. apply Forall_replicate.
    rewrite grid222_index_0. unfold valid_cell. simpl. lia. }
  split; [exact crowd_length|]. split.
  - intros fuel. apply update_large. rewrite crowd_length. lia.
  - intros offs indices cellIndex Hci. apply unplaced_last_slot; [|exact Hci].
    rewrite Z2Nat.id; lia.
Qed.

(** ** More on the grid *)

Lemma Int_part_mono x y : (x <= y)%R → (Int_part x ≤ Int_part y)%Z.
Proof.
  intros Hxy. destruct (base_Int_part x) as [Hx _].
  destruct (base_Int_part y) as [_ Hy].
  assert (IZR (Int_part x) < IZR (Int_part y) + 1)%R as Hlt by lra.
  rewrite <- plus_IZR in Hlt. apply lt_IZR in Hlt. lia.
Qed.

Lemma linear_inj g c c' :
  grid_wf g → valid_cell g c → valid_cell g c' →
  Grid.linear g c = Grid.linear g c' → c = c'.
Proof.
  intros Hwf Hc Hc'.
  destruct (linear_valid g c Hwf Hc) as [-> _].
  destruct (linear_valid g c' Hwf Hc') as [-> _].
  destruct Hwf as (Hsx & Hsy & _). destruct Hc as (Hx & Hy & Hz).
  destruct Hc' as (Hx' & Hy' & Hz'). destruct c as [x y z], c' as [x' y' z'].
  simpl in *. set (sx := i_x (Grid._size g)) in *.
  set (sy := i_y (Grid._size g)) in *. intros Heq.
  destruct (Z.div_mod_unique sx (z * sy + y) (z' * sy + y') x x')
    as [H2 ->]; [lia | lia | lia |].
  destruct (Z.div_mod_unique sy z z' y y') as [-> ->]; [lia | lia | lia |].
  done.
Qed.

(** X2.  Inside the grid the linear cell number is a numbering: two
    different cells with coordinates in [[0, size-1]] get different
    numbers from [indexLinear] and [lookup], both below the number of
    cells. *)
Theorem Grid_linear_injective (g : Grid.t) (c c' : Vector3i) :
  grid_wf g → valid_cell g c → valid_cell g c' → c ≠ c' →
  Grid.linear g c ≠ Grid.linear g c' ∧
  (0 ≤ Grid.linear g c < Grid.cellCount g)%Z ∧
  (0 ≤ Grid.linear g c' < Grid.cellCount g)%Z.
Proof.
  intros Hwf Hc Hc' Hne. split; [|split].
  - intros Heq. by apply Hne, (linear_inj g).
  - by apply linear_valid.
  - by apply linear_valid.
Qed.

(** X2 on the 2 x 2 x 2 grid, for the cells (0,1,0) and (1,0,0). *)
Lemma Grid_linear_injective_witness :
  Grid.linear grid222 (mkVector3i 0 1 0) ≠ Grid.linear grid222 (mkVector3i 1 0 0) ∧
  (0 ≤ Grid.linear grid222 (mkVector3i 0 1 0) < Grid.cellCount grid222)%Z ∧
  (0 ≤ Grid.linear grid222 (mkVector3i 1 0 0) < Grid.cellCount grid222)%Z.
Proof.
  apply (Grid_linear_injective grid222);
    [exact grid222_wf | unfold valid_cell; simpl; lia
    | unfold valid_cell; simpl; lia | discriminate].
Defined.

Lemma countBody_length g positions i st st' :
  Grid.countBody g positions i st = Some st' → length st'.2 = length st.2.
Proof.
  destruct st as [ind cnt]. unfold Grid.countBody.
  destruct (positions !! i) as [p|]; simpl; [|done].
  destruct (at_ cnt _) as [c|]; simpl; [|done].
  intros [= <-]. simpl. by rewrite length_insert.
Qed.

(** X3.  [Grid::update] checks no index: as soon as one particle has a
    linear cell number (as the counting loop holds it, in 32 bits) at or
    past the number of cells, the counting loop indexes [cellCount] out
    of range, whatever the other particles, the callback and the fuel. *)
Theorem Grid_update_faults_outside {A : Type}
    (swap : nat → nat → A → option A) (fuel : nat) (g : Grid.t)
    (positions : list Vector3f) (a : A) (p : Vector3f) :
  p ∈ positions →
  (Grid.cellCount g ≤ wrap32 (Grid.indexLinear g p))%Z →
  Grid.countPass g positions = None ∧
  Grid.update fuel g positions swap a = None.
Proof.
  intros Hin Hout.
  assert (Grid.countPass g positions = None) as Hc;
    [|split; [done | unfold Grid.update; by rewrite Hc]].
  apply list_elem_of_lookup in Hin as [i Hi].
  pose proof (lookup_lt_Some _ _ _ Hi) as Hlt.
  unfold Grid.countPass.
  replace (length positions) with (i + S (length positions - S i)) at 1 by lia.
  rewrite seq_app, forM_app. simpl.
  destruct (forM _ (seq 0 i) _) as [[ind cnt]|] eqn:E; simpl; [|done].
  assert (length cnt = Z.to_nat (Grid.cellCount g)) as Hl.
  { revert E.
    apply (forM_preserves (Grid.countBody g positions)
             (λ st, length st.2 = Z.to_nat (Grid.cellCount g))).
    - intros k st st' _ Hst Hb. by rewrite (countBody_length _ _ _ _ _ Hb).
    - simpl. by rewrite length_replicate. }
  rewrite Hi. simpl.
  assert (at_ cnt (wrap32 (Grid.indexLinear g p)) = None) as ->; [|done].
  unfold at_. destruct (Z.ltb_spec (wrap32 (Grid.indexLinear g p)) 0); [done|].
  apply lookup_ge_None. lia.
Qed.

Lemma above_top_index : Grid.index grid222 above_top = mkVector3i 0 0 2.
Proof.
  unfold Grid.index, above_top. simpl.
  rewrite (Int_part_unique ((2.5 - 0) * (1 / 1)) 2) by (simpl; lra).
  rewrite (Int_part_unique ((0.5 - 0) * (1 / 1)) 0) by (simpl; lra).
  reflexivity.
Qed.

(** X3 on the 2 x 2 x 2 grid: a particle above the top layer, behind one
    that is inside. *)
Lemma Grid_update_faults_outside_witness :
  Grid.countPass grid222 [centre; above_top] = None ∧
  Grid.update 3 grid222 [centre; above_top] record_swap [] = None.
Proof.
  apply (Grid_update_faults_outside record_swap 3 grid222
           [centre; above_top] [] above_top).
  - right. left.
  - unfold Grid.indexLinear. rewrite above_top_index. vm_compute. discriminate.
Defined.

(** ** [lookup] after [update]: the neighbour search is exact *)

Lemma index_mono g p q :
  (0 <= Grid._invCellSize g)%R →
  (f_x p <= f_x q)%R → (f_y p <= f_y q)%R → (f_z p <= f_z q)%R →
  (i_x (Grid.index g p) ≤ i_x (Grid.index g q))%Z ∧
  (i_y (Grid.index g p) ≤ i_y (Grid.index g q))%Z ∧
  (i_z (Grid.index g p) ≤ i_z (Grid.index g q))%Z.
Proof.
  intros Hinv Hx Hy Hz. unfold Grid.index. simpl.
  split_and!; apply Int_part_mono; nra.
Qed.

(** A particle with its cell in the grid and in the query box lies in one
    of the cells [lookup] goes through. *)
Lemma lookupCells_within g pos radius p :
  (0 <= Grid._invCellSize g)%R → valid_cell g (Grid.index g p) →
  within pos radius p →
  Grid.index g p ∈ Grid.lookupCells g pos radius.
Proof.
  intros Hinv (Vx & Vy & Vz) (Hx & Hy & Hz).
  destruct (index_mono g (vsub pos (splat radius)) p Hinv)
    as (Lx & Ly & Lz); [simpl; lra..|].
  destruct (index_mono g p (vadd pos (splat radius)) Hinv)
    as (Ux & Uy & Uz); [simpl; lra..|].
  apply lookupCells_elem.
  unfold Grid.lookupMin, Grid.lookupMax, cwiseMax, cwiseMin.
  cbn [i_x i_y i_z]. lia.
Qed.

Lemma NoDup_range lo hi : NoDup (Grid.range lo hi).
Proof. apply NoDup_seqZ. Qed.

Lemma lookupCells_NoDup g pos radius : NoDup (Grid.lookupCells g pos radius).
Proof.
  unfold Grid.lookupCells.
  apply NoDup_bind; [| |apply NoDup_range].
  - intros z1 z2 c _ _ H1 H2.
    apply list_elem_of_bind in H1 as (y1 & H1 & _).
    apply list_elem_of_bind in H1 as (x1 & H1 & _).
    apply list_elem_of_bind in H2 as (y2 & H2 & _).
    apply list_elem_of_bind in H2 as (x2 & H2 & _).
    apply list_elem_of_singleton in H1, H2. congruence.
  - intros z _. apply NoDup_bind; [| |apply NoDup_range].
    + intros y1 y2 c _ _ H1 H2.
      apply list_elem_of_bind in H1 as (x1 & H1 & _).
      apply list_elem_of_bind in H2 as (x2 & H2 & _).
      apply list_elem_of_singleton in H1, H2. congruence.
    + intros y _. apply NoDup_bind; [| |apply NoDup_range].
      * intros x1 x2 c _ _ H1 H2.
        apply list_elem_of_singleton in H1, H2. congruence.
      * intros x _. apply NoDup_singleton.
Qed.

Lemma offsets_mono g n (c c' : nat) x y :
  offsets_sorted g n → c ≤ c' →
  Grid._cellOffset g !! c = Some x → Grid._cellOffset g !! c' = Some y →
  (x ≤ y)%Z.
Proof.
  intros (_ & _ & Hmono) Hcc. revert y.
  induction Hcc as [|c' Hcc IH]; intros y Hx Hy; [by simplify_eq|].
  destruct (lookup_lt_is_Some_2 (Grid._cellOffset g) c') as [z Hz].
  { apply lookup_lt_Some in Hy. lia. }
  pose proof (IH z Hx Hz). pose proof (Hmono c' z y Hz Hy). lia.
Qed.

Lemma in_slice_disjoint g n (c c' : nat) (j : Z) :
  offsets_sorted g n →
  in_slice (Grid._cellOffset g) c j → in_slice (Grid._cellOffset g) c' j →
  c = c'.
Proof.
  intros Hs (lo & hi & Hlo & Hhi & Hr) (lo' & hi' & Hlo' & Hhi' & Hr').
  destruct (Nat.lt_trichotomy c c') as [Hlt|[->|Hlt]]; [|done|].
  - pose proof (offsets_mono g n (S c) c' hi lo' Hs ltac:(lia) Hhi Hlo'). lia.
  - pose proof (offsets_mono g n (S c') c hi' lo Hs ltac:(lia) Hhi' Hlo). lia.
Qed.

Section Exact.
Context (g : Grid.t) (n : Z).
Hypothesis wf : grid_wf g.
Hypothesis sorted : offsets_sorted g n.

Lemma cellSlots_elem cell (j : Z) :
  valid_cell g cell →
  j ∈ cellSlots g cell
  ↔ in_slice (Grid._cellOffset g) (Z.to_nat (Grid.linear g cell)) j.
Proof.
  intros Hv. destruct (linear_valid g cell wf Hv) as [_ Hr].
  destruct (cell_offsets g n wf sorted cell Hv)
    as (lo & hi & Hlo & Hhi & Hle & Hn).
  unfold cellSlots. rewrite Hlo, Hhi. rewrite elem_of_seqZ.
  pose proof wf as (_ & _ & _ & Hcc & _).
  rewrite (wrap64_id (Grid.linear g cell + 1)) in Hhi by lia.
  apply at_Some in Hlo as [_ Hlo]. apply at_Some in Hhi as [_ Hhi].
  replace (Z.to_nat (Grid.linear g cell + 1))
    with (S (Z.to_nat (Grid.linear g cell))) in Hhi by lia.
  unfold in_slice. rewrite Hlo, Hhi. split.
  - intros ?. exists lo, hi. split_and!; try done; lia.
  - intros (lo' & hi' & [= <-] & [= <-] & ?). lia.
Qed.

Lemma visitCell_cellSlots {St} (func : Z → St → option St) cell (s : St) :
  valid_cell g cell →
  Grid.visitCell g func cell s = forM func (cellSlots g cell) s.
Proof.
  intros Hv. destruct (cell_offsets g n wf sorted cell Hv)
    as (lo & hi & Hlo & Hhi & _).
  unfold Grid.visitCell, cellSlots. by rewrite Hlo, Hhi.
Qed.

Lemma visitCells_cellSlots {St} (func : Z → St → option St) cells (s : St) :
  Forall (valid_cell g) cells →
  forM (Grid.visitCell g func) cells s
  = forM func (cells ≫= cellSlots g) s.
Proof.
  intros Hv. revert s. induction Hv as [|cell cells Hc _ IH]; intros s; [done|].
  simpl. rewrite forM_app, (visitCell_cellSlots func cell s Hc).
  destruct (forM func (cellSlots g cell) s); simpl; [apply IH | done].
Qed.

Lemma cellSlots_NoDup cells :
  Forall (valid_cell g) cells → NoDup cells → NoDup (cells ≫= cellSlots g).
Proof.
  intros Hv Hnd. rewrite list.Forall_forall in Hv.
  apply NoDup_bind; [| |done].
  - intros c1 c2 j H1 H2 Hj1 Hj2.
    apply cellSlots_elem in Hj1, Hj2; [|by apply Hv..].
    pose proof (in_slice_disjoint g n _ _ j sorted Hj1 Hj2) as Heq.
    destruct (linear_valid g c1 wf (Hv _ H1)) as [_ ?].
    destruct (linear_valid g c2 wf (Hv _ H2)) as [_ ?].
    apply (linear_inj g); [done | by apply Hv.. | lia].
  - intros cell Hc. unfold cellSlots.
    destruct (at_ _ _); [|apply NoDup_nil_2].
    destruct (at_ _ _); [apply NoDup_seqZ | apply NoDup_nil_2].
Qed.
End Exact.

(** The slots [lookup] hands out on an up-to-date grid. *)
Lemma lookup_exact g ps pos radius :
  grid_indexes g ps → (0 <= Grid._invCellSize g)%R →
  let slots := Grid.lookupCells g pos radius ≫= cellSlots g in
  (∀ St (func : Z → St → option St) (s : St),
     Grid.lookup g pos radius func s = forM func slots s) ∧
  NoDup slots ∧
  Forall (λ j, 0 ≤ j < Z.of_nat (length ps))%Z slots ∧
  (∀ (k : nat) p,
     ps !! k = Some p → within pos radius p → Z.of_nat k ∈ slots) ∧
  (∀ j, j ∈ slots →
     ∃ p, ps !! Z.to_nat j = Some p ∧
          Grid.index g p ∈ Grid.lookupCells g pos radius).
Proof.
  intros (Hwf & Hsorted & Hall) Hinv slots.
  assert (Forall (valid_cell g) (Grid.lookupCells g pos radius)) as Hv.
  { apply list.Forall_forall. intros cell. apply lookupCells_valid. }
  split_and!.
  - intros St func s. unfold Grid.lookup.
    by apply (visitCells_cellSlots g (Z.of_nat (length ps))).
  - apply (cellSlots_NoDup g (Z.of_nat (length ps))); try done.
    apply lookupCells_NoDup.
  - apply list.Forall_forall. intros j Hj.
    apply list_elem_of_bind in Hj as (cell & Hj & Hc).
    pose proof (lookupCells_valid _ _ _ _ Hc) as Hvc.
    destruct (cell_offsets g _ Hwf Hsorted cell Hvc)
      as (lo & hi & Hlo & Hhi & ? & ?).
    unfold cellSlots in Hj. rewrite Hlo, Hhi in Hj.
    apply elem_of_seqZ in Hj. lia.
  - intros k p Hk Hw. destruct (Hall k p Hk) as [Hvc Hin].
    apply list_elem_of_bind. exists (Grid.index g p). split.
    + by apply (cellSlots_elem g (Z.of_nat (length ps))).
    + by apply lookupCells_within.
  - intros j Hj. apply list_elem_of_bind in Hj as (cell & Hj & Hc).
    pose proof (lookupCells_valid _ _ _ _ Hc) as Hvc.
    pose proof Hj as Hj'.
    apply (cellSlots_elem g (Z.of_nat (length ps)) Hwf Hsorted) in Hj; [|done].
    destruct (cell_offsets g _ Hwf Hsorted cell Hvc)
      as (lo & hi & Hlo & Hhi & ? & ?).
    unfold cellSlots in Hj'. rewrite Hlo, Hhi in Hj'.
    apply elem_of_seqZ in Hj'.
    destruct (lookup_lt_is_Some_2 ps (Z.to_nat j)) as [p Hp]; [lia|].
    exists p. split; [done|].
    destruct (Hall _ p Hp) as [Hvp Hin]. rewrite Z2Nat.id in Hin by lia.
    pose proof (in_slice_disjoint g _ _ _ j Hsorted Hj Hin) as Heq.
    destruct (linear_valid g cell Hwf Hvc) as [_ ?].
    destruct (linear_valid g _ Hwf Hvp) as [_ ?].
    assert (cell = Grid.index g p) as <-; [|done].
    apply (linear_inj g); [done.. |]. unfold Grid.indexLinear in Heq. lia.
Qed.

(** [update] brings the grid up to date for the particles as it has
    reordered them. *)
Lemma update_indexes fuel g positions :
  grid_wf g →
  Forall (λ p, valid_cell g (Grid.index g p)) positions →
  (Z.of_nat (length positions) < 2 ^ 32)%Z →
  length positions < fuel →
  ∃ offs positions',
    Grid.update fuel g positions swap_vec positions
    = Some (Grid.set_cellOffset offs g, positions') ∧
    positions' ≡ₚ positions ∧
    grid_indexes (Grid.set_cellOffset offs g) positions'.
Proof.
  intros Hwf Hvalid Hfits Hfuel.
  set (K := Z.to_nat (Grid.cellCount g)).
  set (cs := Grid.indexLinear g <$> positions).
  set (cnt := populations K cs).
  destruct (update_spec swap_vec g positions
              (λ ind _ ps, ps ≡ₚ positions ∧ ind = Grid.indexLinear g <$> ps)
              Hwf Hvalid Hfits) with (fuel := fuel) (a := positions)
    as (offs & ind & cidx & ps & Hup & Hlo & Hoffs & Hsorted & Hperm & Hind);
    try done.
  { intros ind cidx ps i j c Hi Hj _ _ _ _ _ _ [Hp ->].
    destruct (swap_at_Some ps i j) as [ps' Hps']; [by rewrite Hp..|].
    exists ps'. split; [done|]. intros ind' Hind'. split.
    - by rewrite (swap_at_Permutation _ _ _ _ Hps').
    - rewrite swap_at_fmap, Hps' in Hind'. by injection Hind' as <-. }
  fold K cs cnt in Hoffs, Hsorted.
  assert (length cs = length positions) as HlN
    by (unfold cs; by rewrite length_fmap).
  assert (length cnt = K) as Hlc by apply populations_length.
  assert (∀ c : nat, c < length cnt → cnt !! c = Some (occ (Z.of_nat c) cs))
    as Hocc by (intros c Hc; apply populations_lookup; lia).
  assert (∀ c : nat, c ≤ length cnt → offs !! c = Some (prefix cnt c))
    as Hoffs' by (intros c Hc; apply Hoffs; lia).
  rewrite <- HlN in Hsorted.
  exists offs, ps. split; [done|]. split; [done|].
  destruct (Grid_update_offsets_sorted swap_vec fuel g positions positions
              _ _ Hwf Hvalid Hfits Hup) as [Hwf' Hs'].
  assert (length ps = length positions) as Hlp by (by rewrite Hperm).
  unfold grid_indexes. rewrite Hlp. split_and!; try done.
  intros k p Hk.
  assert (Forall (λ p, valid_cell g (Grid.index g p)) ps) as Hvps
    by (by rewrite Hperm).
  pose proof (Forall_lookup_1 _ _ _ _ Hvps Hk) as Hvp. simpl in Hvp.
  split; [exact Hvp|].
  destruct (sorted_slot cs cnt offs ind cidx Hoffs' Hsorted k)
    as (c & Hc & Hkc & Hin).
  { rewrite HlN, <- Hlp. by eapply lookup_lt_Some. }
  rewrite Hind, list_lookup_fmap, Hk in Hkc. injection Hkc as Hkc.
  change (Grid.indexLinear (Grid.set_cellOffset offs g) p)
    with (Grid.indexLinear g p).
  rewrite Hkc, Nat2Z.id. exact Hin.
Qed.

(** X7.  [update] followed by [lookup] is an exact box query.  After
    [update] has sorted the particles, on a grid whose reciprocal cell
    size is not negative, [lookup] at any point and radius returns; it
    hands out no slot twice; every particle inside the box
    [[pos - radius, pos + radius]] has its slot handed out; and every slot
    handed out holds a particle whose cell is one of the cells of the
    grid that the box reaches. *)
Theorem Grid_lookup_complete (fuel : nat) (g : Grid.t)
    (positions : list Vector3f) (pos : Vector3f) (radius : R) :
  grid_wf g →
  Forall (λ p, valid_cell g (Grid.index g p)) positions →
  (Z.of_nat (length positions) < 2 ^ 32)%Z →
  length positions < fuel →
  (0 <= Grid._invCellSize g)%R →
  ∃ g' positions' slots,
    Grid.update fuel g positions swap_vec positions = Some (g', positions') ∧
    Grid.lookup g' pos radius record_slot [] = Some slots ∧
    NoDup slots ∧
    (∀ (k : nat) p,
       positions' !! k = Some p → within pos radius p → Z.of_nat k ∈ slots) ∧
    (∀ j, j ∈ slots →
       (0 ≤ j)%Z ∧
       ∃ p, positions' !! Z.to_nat j = Some p ∧
            Grid.index g' p ∈ Grid.lookupCells g' pos radius).
Proof.
  intros Hwf Hvalid Hfits Hfuel Hinv.
  destruct (update_indexes fuel g positions Hwf Hvalid Hfits Hfuel)
    as (offs & ps & Hup & Hperm & Hidx).
  destruct (lookup_exact _ ps pos radius Hidx Hinv)
    as (Hrun & Hnd & Hr & Hall & Hback).
  eexists _, ps, _. split; [exact Hup|]. split_and!.
  - rewrite Hrun. apply forM_record_slot.
  - exact Hnd.
  - exact Hall.
  - intros j Hj. split; [|by apply Hback].
    rewrite list.Forall_forall in Hr. apply Hr in Hj. lia.
Qed.

(** X7 on the 2 x 2 x 2 grid and the two particles, for the box of
    radius 1 around the middle of the grid. *)
Lemma Grid_lookup_complete_witness :
  ∃ g' positions' slots,
    Grid.update 3 grid222 two_particles swap_vec two_particles
    = Some (g', positions') ∧
    Grid.lookup g' (splat 1) 1 record_slot [] = Some slots ∧
    NoDup slots ∧
    (∀ (k : nat) p,
       positions' !! k = Some p → within (splat 1) 1 p → Z.of_nat k ∈ slots).
Proof.
  destruct (Grid_lookup_complete 3 grid222 two_particles (splat 1) 1)
    as (g' & ps & slots & Hup & Hl & Hnd & Hall & _);
    [exact grid222_wf | exact two_particles_valid | simpl; lia | simpl; lia
    | simpl; lra |].
  exists g', ps, slots. split_and!; [exact Hup | exact Hl | exact Hnd | exact Hall].
Defined.

(** On an up-to-date grid the particles are in the order of their cell
    numbers. *)
Lemma indexes_ordered g ps (k k' : nat) p p' :
  grid_indexes g ps → k ≤ k' →
  ps !! k = Some p → ps !! k' = Some p' →
  (Grid.indexLinear g p ≤ Grid.indexLinear g p')%Z.
Proof.
  intros (Hwf & Hs & Hall) Hkk Hp Hp'.
  destruct (Hall k p Hp) as [Hv (lo & hi & Hlo & Hhi & Hr)].
  destruct (Hall k' p' Hp') as [Hv' (lo' & hi' & Hlo' & Hhi' & Hr')].
  destruct (linear_valid g _ Hwf Hv) as [_ Hc].
  destruct (linear_valid g _ Hwf Hv') as [_ Hc'].
  fold (Grid.indexLinear g p) in Hc. fold (Grid.indexLinear g p') in Hc'.
  destruct (Z.le_gt_cases (Grid.indexLinear g p) (Grid.indexLinear g p'))
    as [|Hgt]; [done|]. exfalso.
  pose proof (offsets_mono g _ (S (Z.to_nat (Grid.indexLinear g p')))
                (Z.to_nat (Grid.indexLinear g p)) hi' lo Hs ltac:(lia)
                Hhi' Hlo).
  lia.
Qed.

(** X9.  [update] sorts: after it the linear cell numbers of the
    particles never decrease along the array, so the particles of one
    cell are next to each other, cell after cell. *)
Theorem Grid_update_sorts (fuel : nat) (g : Grid.t)
    (positions : list Vector3f) :
  grid_wf g →
  Forall (λ p, valid_cell g (Grid.index g p)) positions →
  (Z.of_nat (length positions) < 2 ^ 32)%Z →
  length positions < fuel →
  ∃ g' positions',
    Grid.update fuel g positions swap_vec positions = Some (g', positions') ∧
    ∀ (k k' : nat) p p',
      k ≤ k' → positions' !! k = Some p → positions' !! k' = Some p' →
      (Grid.indexLinear g' p ≤ Grid.indexLinear g' p')%Z.
Proof.
  intros Hwf Hvalid Hfits Hfuel.
  destruct (update_indexes fuel g positions Hwf Hvalid Hfits Hfuel)
    as (offs & ps & Hup & Hperm & Hidx).
  eexists _, ps. split; [exact Hup|].
  intros k k' p p'. by apply indexes_ordered.
Qed.

(** X9 on the 2 x 2 x 2 grid and the two particles. *)
Lemma Grid_update_sorts_witness :
  ∃ g' positions',
    Grid.update 3 grid222 two_particles swap_vec two_particles
    = Some (g', positions') ∧
    ∀ (k k' : nat) p p',
      k ≤ k' → positions' !! k = Some p → positions' !! k' = Some p' →
      (Grid.indexLinear g' p ≤ Grid.indexLinear g' p')%Z.
Proof.
  apply (Grid_update_sorts 3 grid222 two_particles);
    [exact grid222_wf | exact two_particles_valid | simpl; lia | simpl; lia].
Defined.

(** ** [update] twice *)

Lemma swap_at_self {A} (v : list A) i :
  i < length v → swap_at v i i = Some v.
Proof.
  intros Hi. destruct (lookup_lt_is_Some_2 v i Hi) as [x Hx].
  unfold swap_at. rewrite Hx. simpl.
  by rewrite list_insert_insert_eq, (list_insert_id _ _ _ Hx).
Qed.

Lemma sortWhile_unfold {A} (swap : nat → nat → A → option A) offs fuel i
    indices cellIndex a :
  Grid.sortWhile swap offs (S fuel) i (indices, cellIndex, a)
  = (b ← Grid.unplaced offs i indices cellIndex;
     if b : bool then
       c ← indices !! i;
       j ← at_ cellIndex c;
       indices' ← swap_at indices i (Z.to_nat j);
       a' ← swap i (Z.to_nat j) a;
       Grid.sortWhile swap offs fuel i
         (indices', <[Z.to_nat c := wrap32 (j + 1)]> cellIndex, a')
     else Some (indices, cellIndex, a)).
Proof. done. Qed.

(** The sort on particles that are in the order of their cells. *)
Section Placed.
Context {A : Type} (swap : nat → nat → A → option A).
Context (cs cnt offs : list Z) (Q : nat → A → Prop).
Let K := length cnt.
Let N := length cs.

Hypothesis cnt_pos : Forall (λ x, 0 ≤ x)%Z cnt.
Hypothesis count_fits : (Z.of_nat N < 2 ^ 32)%Z.
Hypothesis offs_prefix :
  ∀ c : nat, c ≤ K → offs !! c = Some (prefix cnt c).
Hypothesis placed :
  ∀ (k : nat) c, cs !! k = Some c →
    ∃ c' : nat, c = Z.of_nat c' ∧ c' < K ∧
                (prefix cnt c' ≤ Z.of_nat k < prefix cnt (S c'))%Z.
Hypothesis swap_self :
  ∀ i a, i < N → Q i a → ∃ a', swap i i a = Some a' ∧ Q (S i) a'.

Lemma sortWhile_placed fuel i st :
  i < N → placed_inv cs cnt Q i st →
  ∃ st', Grid.sortWhile swap offs (S (S fuel)) i st = Some st'
         ∧ placed_inv cs cnt Q (S i) st'.
Proof.
  intros Hi. destruct st as [[ind cidx] a]. intros (Hind & Hl & Hc & HQ).
  simpl in Hind, Hl, Hc, HQ. subst ind. fold K in Hl, Hc.
  destruct (lookup_lt_is_Some_2 cs i Hi) as [c Hci].
  destruct (placed i c Hci) as (c' & -> & Hc' & Hr).
  pose proof (Hc c' Hc') as Hcc.
  rewrite Z.min_l, Z.max_r in Hcc by lia.
  assert (at_ cidx (Z.of_nat c') = Some (Z.of_nat i)) as Hat
    by (by rewrite at_of_nat).
  destruct (swap_self i a Hi HQ) as (a' & Ha' & HQ').
  set (cidx' := <[c' := (Z.of_nat i + 1)%Z]> cidx).
  assert (Grid.sortWhile swap offs (S (S fuel)) i (cs, cidx, a)
          = Grid.sortWhile swap offs (S fuel) i (cs, cidx', a')) as ->.
  { rewrite sortWhile_unfold.
    assert (Grid.unplaced offs i cs cidx = Some true) as ->.
    { unfold Grid.unplaced. rewrite Hci. cbn [mbind option_bind].
      rewrite Hat. cbn [mbind option_bind].
      by rewrite (proj2 (Z.leb_le _ _)) by lia. }
    cbn [mbind option_bind]. rewrite Hci. cbn [mbind option_bind].
    rewrite Hat. cbn [mbind option_bind]. rewrite !Nat2Z.id.
    rewrite (swap_at_self cs i Hi). cbn [mbind option_bind].
    rewrite Ha'. cbn [mbind option_bind].
    rewrite wrap32_id by lia. done. }
  assert (cidx' !! c' = Some (Z.of_nat i + 1)%Z) as Hcc'
    by (apply list_lookup_insert_eq; lia).
  assert (at_ cidx' (Z.of_nat c') = Some (Z.of_nat i + 1)%Z) as Hat'
    by (by rewrite at_of_nat).
  exists (cs, cidx', a'). split.
  - rewrite sortWhile_unfold.
    assert (Grid.unplaced offs i cs cidx' = Some false) as ->; [|done].
    unfold Grid.unplaced. rewrite Hci.
    cbn [mbind option_bind]. rewrite Hat'. cbn [mbind option_bind].
    rewrite (proj2 (Z.leb_gt _ _)) by lia.
    rewrite at_of_nat, (offs_prefix c') by lia. cbn [mbind option_bind].
    by rewrite (proj2 (Z.ltb_ge _ _)) by lia.
  - unfold placed_inv. simpl. split_and!; try done.
    { unfold cidx'. by rewrite length_insert. }
    intros d Hd. destruct (decide (d = c')) as [->|Hne].
    + rewrite Hcc'. f_equal. lia.
    + unfold cidx'. rewrite list_lookup_insert_ne by done.
      rewrite (Hc d Hd). f_equal.
      destruct (Nat.lt_trichotomy d c') as [Hlt|[?|Hlt]]; [|done|].
      * pose proof (prefix_mono cnt (S d) c' cnt_pos ltac:(lia)). lia.
      * pose proof (prefix_mono cnt (S c') d cnt_pos ltac:(lia)). lia.
Qed.

Lemma sortPass_placed fuel cidx a :
  N < fuel →
  length cidx = K → (∀ c : nat, c < K → cidx !! c = Some (prefix cnt c)) →
  Q 0 a →
  ∃ cidx' a',
    Grid.sortPass swap offs fuel N (cs, cidx, a)
    = Some (cs, cidx', a') ∧ Q N a'.
Proof.
  intros Hfuel Hl Hc HQ. unfold Grid.sortPass.
  destruct (forM_seq_inv (Grid.sortWhile swap offs fuel)
              (placed_inv cs cnt Q) N 0 (cs, cidx, a))
    as ([[ind cidx'] a'] & Hrun & Hind & _ & _ & HQ').
  - unfold placed_inv. simpl. split_and!; try done.
    intros c Hlt. rewrite (Hc c Hlt). f_equal.
    pose proof (prefix_bounds cnt c cnt_pos).
    pose proof (prefix_mono cnt c (S c) cnt_pos ltac:(lia)). lia.
  - intros i st Hi. destruct fuel as [|[|fuel]]; [lia..|].
    apply sortWhile_placed. lia.
  - simpl in *. subst ind. eauto.
Qed.
End Placed.

(** X10.  A second [update] changes nothing.  Run again on the particles
    as the first run has left them, [update] ends with the same offsets,
    leaves every particle in its slot, and calls [swap] once for each
    slot, in order and always with the slot itself for both arguments. *)
Theorem Grid_update_idempotent (fuel : nat) (g : Grid.t)
    (positions : list Vector3f) :
  grid_wf g →
  Forall (λ p, valid_cell g (Grid.index g p)) positions →
  (Z.of_nat (length positions) < 2 ^ 32)%Z →
  length positions < fuel →
  ∃ g' positions',
    Grid.update fuel g positions swap_vec positions = Some (g', positions') ∧
    Grid.update fuel g' positions' swap_vec positions'
    = Some (g', positions') ∧
    Grid.update fuel g' positions' record_swap []
    = Some (g', (λ i, (i, i)) <$> seq 0 (length positions)).
Proof.
  intros Hwf Hvalid Hfits Hfuel.
  set (K := Z.to_nat (Grid.cellCount g)).
  set (cs := Grid.indexLinear g <$> positions).
  set (cnt := populations K cs).
  destruct (update_spec swap_vec g positions
              (λ ind _ ps, ps ≡ₚ positions ∧ ind = Grid.indexLinear g <$> ps)
              Hwf Hvalid Hfits) with (fuel := fuel) (a := positions)
    as (offs & ind & cidx & ps & Hup & Hlo & Hoffs & Hsorted & Hperm & Hind);
    try done.
  { intros ind cidx ps i j c Hi Hj _ _ _ _ _ _ [Hp ->].
    destruct (swap_at_Some ps i j) as [ps' Hps']; [by rewrite Hp..|].
    exists ps'. split; [done|]. intros ind' Hind'. split.
    - by rewrite (swap_at_Permutation _ _ _ _ Hps').
    - rewrite swap_at_fmap, Hps' in Hind'. by injection Hind' as <-. }
  fold K cs cnt in Hoffs, Hsorted, Hlo.
  set (g' := Grid.set_cellOffset offs g) in *.
  assert (length cs = length positions) as HlN
    by (unfold cs; by rewrite length_fmap).
  assert (length ps = length positions) as Hlp by (by rewrite Hperm).
  assert (length cnt = K) as Hlc by apply populations_length.
  assert (∀ c : nat, c < length cnt → cnt !! c = Some (occ (Z.of_nat c) cs))
    as Hocc by (intros c Hc; apply populations_lookup; lia).
  pose proof (cnt_pos cs cnt Hocc) as Hpos.
  destruct (countPass_populations g positions Hwf Hvalid Hfits) as [_ Hsum].
  fold K cs cnt in Hsum.
  destruct (Grid_update_offsets_sorted swap_vec fuel g positions positions
              _ _ Hwf Hvalid Hfits Hup) as [Hwf' _]. fold g' in Hwf'.
  assert (Forall (λ p, valid_cell g' (Grid.index g' p)) ps) as Hvalid'
    by (by rewrite Hperm).
  assert (populations K (Grid.indexLinear g' <$> ps) = cnt) as Hcnt'.
  { unfold cnt, populations. apply list_fmap_ext. intros _ c _.
    apply occ_Permutation. change (Grid.indexLinear g') with (Grid.indexLinear g).
    unfold cs. by rewrite Hperm. }
  destruct (countPass_populations g' ps Hwf' Hvalid' ltac:(lia))
    as [Hcount _].
  change (Grid.cellCount g') with (Grid.cellCount g) in Hcount.
  fold K in Hcount. rewrite Hcnt' in Hcount.
  destruct (offsetPass_spec g' cnt Hlc Hpos ltac:(lia) Hlo)
    as (cidx0 & offs2 & Hoff & Hlci & Hlo2 & Hci0 & Hoffs2).
  change (Grid.cellCount g') with (Grid.cellCount g) in Hlci, Hlo2, Hci0, Hoffs2.
  fold K in Hlci, Hlo2, Hci0, Hoffs2.
  assert (offs2 = offs) as ->.
  { apply list_eq_same_length with (S K); [done | done |].
    intros c x y Hc Hx Hy. rewrite Hoffs2 in Hx by lia.
    rewrite Hoffs in Hy by lia. congruence. }
  assert (∀ (A : Type) (swap : nat → nat → A → option A)
            (Q : nat → A → Prop) (a : A),
            Q 0 a →
            (∀ i a, i < length ps → Q i a →
                    ∃ a', swap i i a = Some a' ∧ Q (S i) a') →
            ∃ a', Grid.update fuel g' ps swap a = Some (g', a')
                  ∧ Q (length ps) a') as Hagain.
  { intros A swap Q a HQ Hself.
    destruct (sortPass_placed swap (Grid.indexLinear g' <$> ps) cnt offs Q)
      with (fuel := fuel) (cidx := cidx0) (a := a)
      as (cidx' & a' & Hsort & HQ'); try done.
    - rewrite length_fmap. lia.
    - intros c Hc. apply Hoffs. lia.
    - intros k c Hk.
      change (Grid.indexLinear g') with (Grid.indexLinear g) in Hk.
      rewrite <- Hind in Hk.
      destruct Hsorted as (_ & _ & HB & _ & HD).
      destruct (HD k) as (c' & Hc' & Hkc & Hr).
      { apply lookup_lt_Some in Hk. rewrite Hind, length_fmap in Hk. lia. }
      exists c'. pose proof (HB c' Hc'). split_and!; [congruence | lia..].
    - rewrite length_fmap. exact Hself.
    - rewrite length_fmap. lia.
    - by rewrite Hlc.
    - intros c Hc. apply Hci0. lia.
    - rewrite length_fmap in Hsort, HQ'. exists a'. split; [|done].
      unfold Grid.update. rewrite Hcount. cbn [mbind option_bind].
      rewrite Hoff. cbn [mbind option_bind]. rewrite Hsort. done. }
  exists g', ps. split; [exact Hup|]. split.
  - destruct (Hagain _ swap_vec (λ _ v, v = ps) ps eq_refl) as (v & Hv & ->);
      [|done].
    intros i v Hi ->. exists ps. split; [|done]. by apply swap_at_self.
  - set (Q := λ (i : nat) (tr : list (nat * nat)),
                tr = fmap (M := list) (λ k : nat, (k, k)) (seq 0 i)).
    destruct (Hagain _ record_swap Q [] eq_refl)
      as (tr & Htr & ->); [|by rewrite Hlp in Htr].
    intros i tr Hi ->. eexists. split; [done|]. unfold Q.
    rewrite seq_S. by rewrite fmap_app.
Qed.

(** X10 on the 2 x 2 x 2 grid and the two particles. *)
Lemma Grid_update_idempotent_witness :
  ∃ g' positions',
    Grid.update 3 grid222 two_particles swap_vec two_particles
    = Some (g', positions') ∧
    Grid.update 3 g' positions' swap_vec positions' = Some (g', positions') ∧
    Grid.update 3 g' positions' record_swap [] = Some (g', [(0, 0); (1, 1)]).
Proof.
  apply (Grid_update_idempotent 3 grid222 two_particles);
    [exact grid222_wf | exact two_particles_valid | simpl; lia | simpl; lia].
Defined.

(** ** The density pass against the sum over all particles *)

Lemma sumR_cons x l : sumR (x :: l) = (x + sumR l)%R.
Proof. done. Qed.

Lemma sumR_app l1 l2 : sumR (l1 ++ l2) = (sumR l1 + sumR l2)%R.
Proof.
  induction l1 as [|x l1 IH]; [simpl; lra|].
  rewrite <- app_comm_cons, !sumR_cons, IH. lra.
Qed.

Lemma sumR_Permutation l1 l2 : l1 ≡ₚ l2 → sumR l1 = sumR l2.
Proof. induction 1; rewrite ?sumR_cons; lra. Qed.

Lemma sumR_zero {X} (f : X → R) l :
  (∀ x, x ∈ l → f x = 0%R) → sumR (f <$> l) = 0%R.
Proof.
  induction l as [|x l IH]; intros H; [done|].
  rewrite fmap_cons, sumR_cons, (H x) by left.
  rewrite IH; [lra|]. intros y Hy. apply H. by right.
Qed.

(** A sum over a list is a sum over any duplicate-free part of it that
    holds all its non-zero terms. *)
Lemma sumR_support {X} (f : X → R) (l1 l2 : list X) :
  NoDup l1 → NoDup l2 → l1 ⊆ l2 → (∀ x, x ∈ l2 → x ∉ l1 → f x = 0%R) →
  sumR (f <$> l1) = sumR (f <$> l2).
Proof.
  intros Hn1 Hn2 Hsub Hz.
  destruct (submseteq_Permutation l1 l2) as [k Hk];
    [by apply NoDup_submseteq|].
  rewrite (sumR_Permutation (f <$> l2) (f <$> (l1 ++ k)))
    by (by rewrite Hk).
  rewrite fmap_app, sumR_app, (sumR_zero f k); [lra|].
  intros x Hx. rewrite Hk in Hn2. apply list.NoDup_app in Hn2 as (_ & Hd & _).
  apply Hz.
  - rewrite Hk. apply elem_of_app. by right.
  - intros Hx1. by apply (Hd x).
Qed.

(** The term of slot [j] in the density sum of a particle at [p]. *)
Lemma density_visitor s p slots acc :
  Forall (λ j, 0 ≤ j < Z.of_nat (length (SPH._positions s)))%Z slots →
  forM (λ j acc,
          pj ← at_ (SPH._positions s) j;
          let r := vsub p pj in
          let r2 := squaredNorm r in
          if Rltb r2 (SPH._h2 s)
          then Some (acc + SPH.Kernel.poly6 (SPH._kernel s) r2)%R
          else Some acc) slots acc
  = Some (acc + sumR ((λ j, from_option (densityTerm s p) 0%R
                              (at_ (SPH._positions s) j)) <$> slots))%R.
Proof.
  intros Hr. revert acc.
  induction Hr as [|j slots Hj _ IH]; intros acc.
  - simpl. f_equal. lra.
  - destruct (lookup_lt_is_Some_2 (SPH._positions s) (Z.to_nat j))
      as [q Hq]; [lia|].
    assert (at_ (SPH._positions s) j = Some q) as Hat
      by (apply at_Some; split; [lia | done]).
    rewrite fmap_cons, sumR_cons. cbn [forM]. rewrite Hat.
    cbn [mbind option_bind from_option]. unfold densityTerm at 1.
    destruct (Rltb _ _); cbn [mbind option_bind]; rewrite IH; f_equal; lra.
Qed.

Lemma sumR_positions (f : Vector3f → R) (ps : list Vector3f) :
  sumR ((λ j, from_option f 0%R (at_ ps j)) <$> seqZ 0 (Z.of_nat (length ps)))
  = sumR (f <$> ps).
Proof.
  induction ps as [|q ps IH] using rev_ind; [done|].
  rewrite length_app. simpl length.
  replace (Z.of_nat (length ps + 1)) with (Z.of_nat (length ps) + 1)%Z by lia.
  rewrite seqZ_app by lia. rewrite !fmap_app, !sumR_app. simpl.
  replace (Z.of_nat 0 + (0 + Z.of_nat (length ps)))%Z
    with (Z.of_nat (length ps)) by lia.
  rewrite at_of_nat, lookup_app_r, Nat.sub_diag by lia. simpl.
  rewrite <- IH. f_equal. f_equal. apply list_fmap_ext.
  intros i j Hj. apply lookup_seqZ in Hj as [-> Hi]. simpl.
  replace (0 + Z.of_nat i)%Z with (Z.of_nat i) by lia.
  rewrite !at_of_nat. by rewrite lookup_app_l by lia.
Qed.

Lemma close_within (s : SPH.t) p q :
  (0 <= SPH._h s)%R → SPH._h2 s = sqr (SPH._h s) →
  (squaredNorm (vsub p q) < SPH._h2 s)%R → within p (SPH._h s) q.
Proof.
  intros Hh -> Hr. unfold squaredNorm, dot, vsub, sqr in Hr. simpl in Hr.
  set (h := SPH._h s) in *.
  set (a := (f_x p - f_x q)%R) in *. set (b := (f_y p - f_y q)%R) in *.
  set (c := (f_z p - f_z q)%R) in *.
  pose proof (Rle_0_sqr a) as Ha. pose proof (Rle_0_sqr b) as Hb.
  pose proof (Rle_0_sqr c) as Hc. unfold Rsqr in Ha, Hb, Hc.
  assert (∀ x, x * x < h * h → - h < x < h)%R as Hsq by (intros x Hx; nra).
  destruct (Hsq a) as [? ?]; [lra|]. destruct (Hsq b) as [? ?]; [lra|].
  destruct (Hsq c) as [? ?]; [lra|].
  unfold within, a, b, c in *. split_and!; lra.
Qed.

(** The density sum of the grid search is the sum over all particles. *)
Lemma iterateNeighbours_density s p :
  searchable s →
  SPH.iterateNeighbours s p
    (λ j r r2 density, Some (density + SPH.Kernel.poly6 (SPH._kernel s) r2)%R)
    0%R
  = Some (sumR (densityTerm s p <$> SPH._positions s)).
Proof.
  intros (Hidx & Hinv & Hh & Hh2). unfold SPH.iterateNeighbours.
  destruct (lookup_exact _ _ p (SPH._h s) Hidx Hinv)
    as (Hrun & Hnd & Hr & Hall & _).
  rewrite Hrun.
  etransitivity; [exact (density_visitor s p _ 0%R Hr)|]. f_equal.
  rewrite Rplus_0_l, <- sumR_positions.
  apply sumR_support; [done | apply NoDup_seqZ | |].
  - intros j Hj. rewrite list.Forall_forall in Hr. apply Hr in Hj.
    apply elem_of_seqZ. lia.
  - intros j Hj Hnj. apply elem_of_seqZ in Hj.
    destruct (lookup_lt_is_Some_2 (SPH._positions s) (Z.to_nat j))
      as [q Hq]; [lia|].
    assert (at_ (SPH._positions s) j = Some q) as ->
      by (apply at_Some; split; [lia | done]).
    simpl. unfold densityTerm.
    destruct (Rltb _ _) eqn:E; [|done]. exfalso. apply Hnj.
    replace j with (Z.of_nat (Z.to_nat j)) by lia.
    apply (Hall _ q Hq). apply (close_within s); [done..|].
    unfold Rltb in E. by destruct (Rlt_dec _ _).
Qed.

Lemma tait_product (s : SPH.t) (density : R) :
  let t := (density / SPH._restDensity s)%R in
  (SPH.wcsph_B (SPH.wcsph s) * ((t * t) * (t * t) * (t * t) * t - 1))%R
  = tait s density.
Proof. unfold tait. simpl. ring. Qed.

(** The density pass on a solver that is ready for the search, particle
    by particle. *)
Lemma computeDensity_pointwise (s : SPH.t) :
  let N := length (SPH._positions s) in
  searchable s →
  length (SPH._densities s) = N → length (SPH._pressures s) = N →
  ∃ D P,
    SPH.computeDensity s
    = Some (SPH.set_pressures P (SPH.set_densities D s)) ∧
    length D = N ∧ length P = N ∧
    ∀ i p, SPH._positions s !! i = Some p →
           D !! i = Some (bruteDensity s p) ∧
           P !! i = Some (tait s (bruteDensity s p)).
Proof.
  intros N Hs Hld Hlp.
  set (I := λ (k : nat) (t : SPH.t),
         ∃ D P, t = SPH.set_pressures P (SPH.set_densities D s) ∧
                length D = N ∧ length P = N ∧
                ∀ i p, i < k → SPH._positions s !! i = Some p →
                       D !! i = Some (bruteDensity s p) ∧
                       P !! i = Some (tait s (bruteDensity s p))).
  destruct (forM_seq_inv SPH.computeDensity_at I N 0 s)
    as (s' & Hrun & D & P & Hfr & HlD & HlP & Hall).
  - exists (SPH._densities s), (SPH._pressures s).
    split_and!; try done; [by destruct s | intros; lia].
  - intros i t Hi (D & P & Hfr & HlD & HlP & Hall).
    destruct (lookup_lt_is_Some_2 (SPH._positions s) i) as [p Hp];
      [fold N; lia|].
    destruct (lookup_lt_is_Some_2 D i) as [d Hd]; [lia|].
    destruct (lookup_lt_is_Some_2 P i) as [P0 HP0]; [lia|].
    assert (SPH.computeDensity_at i t
            = Some (SPH.set_pressures
                      (<[i := tait s (bruteDensity s p)]> P)
                      (SPH.set_densities (<[i := bruteDensity s p]> D) s)))
      as Hstep.
    { assert (SPH.iterateNeighbours t p
                (λ j r r2 density,
                   Some (density + SPH.Kernel.poly6 (SPH._kernel t) r2)%R)
                0%R
              = Some (sumR (densityTerm s p <$> SPH._positions s))) as Hn
        by (rewrite Hfr; exact (iterateNeighbours_density s p Hs)).
      assert (SPH._positions t !! i = Some p) as Hpt
        by (rewrite Hfr; exact Hp).
      unfold SPH.computeDensity_at. rewrite Hpt. cbn [mbind option_bind].
      rewrite Hn. cbn [mbind option_bind]. rewrite Hfr. unfold store. simpl.
      rewrite Hd. simpl. rewrite HP0. simpl.
      rewrite tait_product. done. }
    rewrite Hstep. eexists. split; [done|].
    eexists _, _. split; [done|]. rewrite !length_insert.
    split_and!; try done.
    intros k q Hk Hq. destruct (decide (k = i)) as [->|Hne].
    + assert (q = p) as -> by congruence.
      by rewrite !list_lookup_insert_eq by lia.
    + rewrite !list_lookup_insert_ne by done. apply Hall; [lia | done].
  - exists D, P. unfold SPH.computeDensity, SPH.iterate. fold N.
    rewrite Hrun, Hfr. split_and!; try done. intros i p Hp. apply Hall; [|done].
    apply lookup_lt_Some in Hp. by fold N in Hp.
Qed.

(** X8.  With the grid up to date, the density pass computes for every
    particle the sum over all particles of the solver: its density is the
    kernel summed over every particle (itself included) at a squared
    distance below [h2], times the particle mass and the kernel constant,
    exactly what the search without a grid gives; its pressure is Tait's
    equation [B ((density / restDensity)^7 - 1)] of that density; and the
    pass changes nothing but the two arrays. *)
Theorem SPH_computeDensity_brute_force (s : SPH.t) :
  searchable s →
  length (SPH._densities s) = length (SPH._positions s) →
  length (SPH._pressures s) = length (SPH._positions s) →
  ∃ s',
    SPH.computeDensity s = Some s' ∧
    SPH._densities s' = bruteDensity s <$> SPH._positions s ∧
    SPH._pressures s' = tait s <$> SPH._densities s' ∧
    s' = SPH.set_pressures (SPH._pressures s')
           (SPH.set_densities (SPH._densities s') s).
Proof.
  intros Hs Hld Hlp.
  destruct (computeDensity_pointwise s Hs Hld Hlp)
    as (D & P & Hrun & HlD & HlP & Hall).
  eexists. split; [exact Hrun|]. simpl.
  assert (D = bruteDensity s <$> SPH._positions s) as HD.
  { apply list_eq_same_length with (length (SPH._positions s));
      [by rewrite length_fmap | done |].
    intros i x y Hi Hx Hy.
    apply list_lookup_fmap_Some in Hy as (p & -> & Hp).
    destruct (Hall i p Hp) as [Hd _]. congruence. }
  split_and!; try done. rewrite HD.
  apply list_eq_same_length with (length (SPH._positions s));
    [by rewrite !length_fmap | done |].
  intros i x y Hi Hx Hy. rewrite <- list_fmap_compose in Hy.
  apply list_lookup_fmap_Some in Hy as (p & -> & Hp).
  destruct (Hall i p Hp) as [_ HP]. simpl. congruence.
Qed.

Lemma cube_pos x : (0 < x)%R → (0 < cube x)%R.
Proof.
  intros Hx. unfold cube.
  apply Rmult_lt_0_compat; [apply Rmult_lt_0_compat|]; lra.
Qed.

Lemma sumR_ge_term {X} (f : X → R) l x :
  (∀ y, y ∈ l → 0 <= f y)%R → x ∈ l → (f x <= sumR (f <$> l))%R.
Proof.
  intros Hpos Hx. induction l as [|y l IH]; [by apply elem_of_nil in Hx|].
  rewrite fmap_cons, sumR_cons.
  assert (0 <= sumR (f <$> l))%R as Hs.
  { clear -Hpos. induction l as [|z l IH]; [simpl; lra|].
    rewrite fmap_cons, sumR_cons.
    pose proof (Hpos z ltac:(right; left)).
    assert (0 <= sumR (f <$> l))%R; [|lra].
    apply IH. intros w Hw. apply Hpos.
    apply elem_of_cons in Hw as [->|Hw]; [left | right; by right]. }
  apply elem_of_cons in Hx as [->|Hx].
  - lra.
  - pose proof (Hpos y ltac:(left)).
    assert (f x <= sumR (f <$> l))%R; [|lra].
    apply IH; [|done]. intros w Hw. apply Hpos. by right.
Qed.

(** X14.  Every density the pass writes is positive, so the divisions by
    a density in the later stages are divisions by a non-zero number.
    With the kernel initialised for the support radius [h > 0] and a
    positive particle mass, a particle always counts itself: its density
    is at least [mass * poly6Constant * h2^3]. *)
Theorem SPH_computeDensity_positive (s : SPH.t) :
  searchable s →
  length (SPH._densities s) = length (SPH._positions s) →
  length (SPH._pressures s) = length (SPH._positions s) →
  SPH._kernel s = SPH.Kernel.init (SPH._h s) →
  (0 < SPH._h s)%R → (0 < SPH._particleMass s)%R →
  ∃ s',
    SPH.computeDensity s = Some s' ∧
    Forall (λ d, 0 < SPH._particleMass s
                     * SPH.Kernel.poly6Constant (SPH._kernel s)
                     * cube (SPH._h2 s) <= d)%R
           (SPH._densities s').
Proof.
  intros Hs Hld Hlp Hk Hh Hm.
  destruct (computeDensity_pointwise s Hs Hld Hlp)
    as (D & P & Hrun & HlD & _ & Hall).
  eexists. split; [exact Hrun|]. simpl.
  pose proof Hs as (_ & _ & _ & Hh2).
  assert (0 < SPH.Kernel.poly6Constant (SPH._kernel s))%R as HC.
  { rewrite Hk. simpl. pose proof PI_RGT_0.
    assert (0 < SPH._h s ^ 9)%R by (apply pow_lt; lra).
    apply Rdiv_lt_0_compat; [lra | nra]. }
  assert (0 < cube (SPH._h2 s))%R as Hc.
  { rewrite Hh2. apply cube_pos. unfold sqr. nra. }
  assert (∀ p q, 0 <= densityTerm s p q)%R as Hpos.
  { intros p q. unfold densityTerm. cbv zeta. unfold Rltb.
    destruct (Rlt_dec _ _) as [Hlt|]; [|lra].
    rewrite Hk. unfold SPH.Kernel.poly6. simpl. rewrite <- Hh2.
    apply Rlt_le, cube_pos. lra. }
  assert (∀ p, densityTerm s p p = cube (SPH._h2 s)) as Hself.
  { intros p. unfold densityTerm. cbv zeta.
    assert (squaredNorm (vsub p p) = 0%R) as ->
      by (unfold squaredNorm, dot, vsub; simpl; ring).
    rewrite Rltb_true by (rewrite Hh2; unfold sqr; nra).
    rewrite Hk. unfold SPH.Kernel.poly6. simpl. rewrite <- Hh2.
    by rewrite Rminus_0_r. }
  apply Forall_lookup. intros i d Hd.
  destruct (lookup_lt_is_Some_2 (SPH._positions s) i) as [p Hpi].
  { apply lookup_lt_Some in Hd. lia. }
  destruct (Hall i p Hpi) as [Hd' _].
  assert (d = bruteDensity s p) as -> by congruence.
  assert (p ∈ SPH._positions s) as Hp by (by eapply list_elem_of_lookup_2).
  pose proof (sumR_ge_term (densityTerm s p) (SPH._positions s) p
                (λ q _, Hpos p q) Hp) as Hge.
  rewrite Hself in Hge. unfold bruteDensity.
  set (mc := (SPH._particleMass s
              * SPH.Kernel.poly6Constant (SPH._kernel s))%R).
  assert (0 < mc)%R by (by apply Rmult_lt_0_compat).
  set (c := cube (SPH._h2 s)) in *.
  set (S := sumR (densityTerm s p <$> SPH._positions s)) in *.
  split; [by apply Rmult_lt_0_compat|].
  rewrite (Rmult_comm mc c). apply Rmult_le_compat_r; lra.
Qed.

(** ** Steps without particles *)

Lemma computeCollisions_empty handler s :
  SPH._positions s = [] → SPH.computeCollisions handler s = None.
Proof.
  intros Hp. unfold SPH.computeCollisions. rewrite Hp.
  change (wrap64 (Z.of_nat (length (@nil Vector3f)) - 1))
    with 18446744073709551615%Z.
  destruct (Z.to_nat 18446744073709551615) as [|n] eqn:E; [lia|].
  cbn [seq forM]. unfold SPH.collide. cbv zeta beta. by rewrite Hp.
Qed.

Lemma update_empty {A} (swap : nat → nat → A → option A) fuel g a g' a' :
  Grid.update fuel g [] swap a = Some (g', a') → a' = a.
Proof.
  unfold Grid.update, Grid.countPass, Grid.sortPass. simpl.
  destruct (Grid.offsetPass g _) as [[cidx offs]|]; simpl; [|done].
  by intros [= _ <-].
Qed.

(** X4.  A solver without particles cannot be stepped: the loop bound
    [_positions.size() - 1] of [computeCollisions] wraps around to
    [2^64 - 1], its first round reads [_positions[0]] out of range, and
    [update], which always ends in that pass, faults with it. *)
Theorem SPH_update_empty_faults (fuel : nat) (dt : R) (s : SPH.t) :
  SPH._positions s = [] →
  (∀ handler, SPH.computeCollisions handler s = None) ∧
  SPH.update fuel dt s = None.
Proof.
  intros Hp. split; [intros handler; by apply computeCollisions_empty|].
  rewrite update_stages. unfold SPH.stages.
  set (s0 := SPH.set_gravity fixed_gravity (SPH.set_t (SPH._t s + dt) s)).
  change (SPH._positions s0) with (SPH._positions s). rewrite Hp.
  destruct (Grid.update fuel (SPH._grid s0) [] SPH.swapParticles s0)
    as [[g s1]|] eqn:E; simpl; [|done].
  apply update_empty in E as ->.
  set (s1 := SPH.set_grid g s0).
  assert (SPH._positions s1 = []) as Hp1 by exact Hp.
  unfold SPH.computeDensity, SPH.computeNormals, SPH.computeForces, SPH.iterate.
  rewrite Hp1. cbn [length seq forM mbind option_bind].
  rewrite Hp1. cbn [length seq forM mbind option_bind].
  rewrite Hp1. cbn [length seq forM mbind option_bind].
  rewrite Hp1. cbn [length seq forM mbind option_bind].
  by apply computeCollisions_empty.
Qed.

(** X4 on [fluid_empty]. *)
Lemma SPH_update_empty_faults_witness :
  (∀ handler, SPH.computeCollisions handler fluid_empty = None) ∧
  SPH.update 1 0.001 fluid_empty = None.
Proof. apply (SPH_update_empty_faults 1 0.001 fluid_empty). reflexivity. Defined.

(** ** [computeCollisions] on the particles it visits *)

Lemma with_particle_id i q w s :
  SPH._positions s !! i = Some q → SPH._velocities s !! i = Some w →
  with_particle i q w s = s.
Proof.
  intros Hq Hw. unfold with_particle.
  rewrite (list_insert_id _ _ _ Hq), (list_insert_id _ _ _ Hw). by destruct s.
Qed.

Lemma with_particle_twice i q w q' w' s :
  with_particle i q' w' (with_particle i q w s) = with_particle i q' w' s.
Proof.
  unfold with_particle. simpl. by rewrite !list_insert_insert_eq.
Qed.

Lemma collisionHandler_run i n d (t : SPH.t) q w :
  SPH._positions t !! i = Some q → SPH._velocities t !! i = Some w →
  SPH.collisionHandler i n d t
  = Some (with_particle i (vadd q (vscale d n))
            (vsub w (vscale ((1 + 0.5) * dot w n) n)) t).
Proof.
  intros Hq Hw. unfold SPH.collisionHandler. rewrite Hq. simpl. by rewrite Hw.
Qed.

(** One of the six tests, on the state [s] with [q] and [w] for
    particle [i]. *)
Lemma collide_test_step (s : SPH.t) i (viol : Vector3f → bool) n
    (d : Vector3f → R) q w :
  i < length (SPH._positions s) → i < length (SPH._velocities s) →
  (p ← SPH._positions (with_particle i q w s) !! i;
   if viol p then SPH.collisionHandler i n (d p) (with_particle i q w s)
   else Some (with_particle i q w s))
  = Some (with_particle i
            (if viol q then vadd q (vscale (d q) n) else q)
            (if viol q then vsub w (vscale ((1 + 0.5) * dot w n) n) else w)
            s).
Proof.
  intros Hi Hj.
  assert (SPH._positions (with_particle i q w s) !! i = Some q) as Hq
    by (simpl; by apply list_lookup_insert_eq).
  assert (SPH._velocities (with_particle i q w s) !! i = Some w) as Hw
    by (simpl; by apply list_lookup_insert_eq).
  rewrite Hq. cbn [mbind option_bind]. destruct (viol q); [|done].
  rewrite (collisionHandler_run i n (d q) _ q w Hq Hw).
  by rewrite with_particle_twice.
Qed.

(** A test that acts along one axis keeps what the earlier tests kept. *)
Lemma axis_test_kept b viol n (d : R) p v q w :
  axis_test b viol n → axes_kept b p v q w →
  axes_kept b p v
    (if viol q then vadd q (vscale d n) else q)
    (if viol q then vsub w (vscale ((1 + 0.5) * dot w n) n) else w).
Proof.
  intros (Tx & Ty & Tz) (Kx & Ky & Kz).
  destruct (viol q) eqn:Hq; [|done].
  unfold axes_kept. cbn [f_x f_y f_z vadd vsub vscale]. split_and!.
  - intros Hp. destruct (Kx Hp) as [Eq Ew]. destruct Tx as [->|Tx].
    + split; lra.
    + rewrite Tx in Hq; [done|]. unfold in_range in *. by rewrite Eq.
  - intros Hp. destruct (Ky Hp) as [Eq Ew]. destruct Ty as [->|Ty].
    + split; lra.
    + rewrite Ty in Hq; [done|]. unfold in_range in *. by rewrite Eq.
  - intros Hp. destruct (Kz Hp) as [Eq Ew]. destruct Tz as [->|Tz].
    + split; lra.
    + rewrite Tz in Hq; [done|]. unfold in_range in *. by rewrite Eq.
Qed.

(** One test of a round, from the state with [q] and [w] for particle
    [i], followed by the rest [k] of the round. *)
Lemma collide_test_kept (k : SPH.t → option SPH.t) (P : option SPH.t → Prop)
    s i viol n (d : Vector3f → R) p v q w :
  i < length (SPH._positions s) → i < length (SPH._velocities s) →
  axis_test (SPH._bounds s) viol n →
  axes_kept (SPH._bounds s) p v q w →
  (∀ q' w', axes_kept (SPH._bounds s) p v q' w' →
            P (k (with_particle i q' w' s))) →
  P ((p ← SPH._positions (with_particle i q w s) !! i;
      if viol p then SPH.collisionHandler i n (d p) (with_particle i q w s)
      else Some (with_particle i q w s)) ≫= k).
Proof.
  intros Hi Hj Ht Hk Hrest.
  rewrite (collide_test_step s i viol n d q w Hi Hj).
  cbn [mbind option_bind]. apply Hrest. by apply axis_test_kept.
Qed.

(** The six tests of [computeCollisions] act along their axes. *)
Lemma axis_test_lo_x b :
  axis_test b (λ p, Rltb (f_x p) (f_x (box_min b))) (mkVector3f 1 0 0).
Proof.
  split_and!; [right | by left | by left].
  intros q [H _]. by apply Rltb_false.
Qed.

Lemma axis_test_hi_x b :
  axis_test b (λ p, Rltb (f_x (box_max b)) (f_x p)) (mkVector3f (-1) 0 0).
Proof.
  split_and!; [right | by left | by left].
  intros q [_ H]. by apply Rltb_false.
Qed.

Lemma axis_test_lo_y b :
  axis_test b (λ p, Rltb (f_y p) (f_y (box_min b))) (mkVector3f 0 1 0).
Proof.
  split_and!; [by left | right | by left].
  intros q [H _]. by apply Rltb_false.
Qed.

Lemma axis_test_hi_y b :
  axis_test b (λ p, Rltb (f_y (box_max b)) (f_y p)) (mkVector3f 0 (-1) 0).
Proof.
  split_and!; [by left | right | by left].
  intros q [_ H]. by apply Rltb_false.
Qed.

Lemma axis_test_lo_z b :
  axis_test b (λ p, Rltb (f_z p) (f_z (box_min b))) (mkVector3f 0 0 1).
Proof.
  split_and!; [by left | by left | right].
  intros q [H _]. by apply Rltb_false.
Qed.

Lemma axis_test_hi_z b :
  axis_test b (λ p, Rltb (f_z (box_max b)) (f_z p)) (mkVector3f 0 0 (-1)).
Proof.
  split_and!; [by left | by left | right].
  intros q [_ H]. by apply Rltb_false.
Qed.

(** One round of the loop of [computeCollisions] with the handler of
    [update]: it returns, and touches particle [i] only, along the axes
    on which it is outside the domain. *)
Lemma collide_kept i s p v :
  SPH._positions s !! i = Some p → SPH._velocities s !! i = Some v →
  ∃ p' v',
    SPH.collide SPH.collisionHandler i s = Some (with_particle i p' v' s) ∧
    axes_kept (SPH._bounds s) p v p' v'.
Proof.
  intros Hp Hv.
  pose proof (lookup_lt_Some _ _ _ Hp) as Hi.
  pose proof (lookup_lt_Some _ _ _ Hv) as Hj.
  set (P := λ r : option SPH.t,
         ∃ p' v', r = Some (with_particle i p' v' s) ∧
                  axes_kept (SPH._bounds s) p v p' v').
  enough (P (SPH.collide SPH.collisionHandler i (with_particle i p v s)))
    as HP by (by rewrite (with_particle_id i p v s Hp Hv) in HP).
  unfold SPH.collide. cbv zeta beta.
  change (SPH._bounds (with_particle i p v s)) with (SPH._bounds s).
  assert (axes_kept (SPH._bounds s) p v p v) as K0 by (by split_and!).
  apply (collide_test_kept _ P s i _ _ _ p v p v Hi Hj
           (axis_test_lo_x (SPH._bounds s)) K0).
  intros q1 w1 K1.
  apply (collide_test_kept _ P s i _ _ _ p v q1 w1 Hi Hj
           (axis_test_hi_x (SPH._bounds s)) K1).
  intros q2 w2 K2.
  apply (collide_test_kept _ P s i _ _ _ p v q2 w2 Hi Hj
           (axis_test_lo_y (SPH._bounds s)) K2).
  intros q3 w3 K3.
  apply (collide_test_kept _ P s i _ _ _ p v q3 w3 Hi Hj
           (axis_test_hi_y (SPH._bounds s)) K3).
  intros q4 w4 K4.
  apply (collide_test_kept _ P s i _ _ _ p v q4 w4 Hi Hj
           (axis_test_lo_z (SPH._bounds s)) K4).
  intros q5 w5 K5.
  rewrite (collide_test_step s i _ _ _ q5 w5 Hi Hj).
  eexists _, _. split; [reflexivity|].
  exact (axis_test_kept (SPH._bounds s)
           (λ q, Rltb (f_z (box_max (SPH._bounds s))) (f_z q))
           (mkVector3f 0 0 (-1)) (f_z q5 - f_z (box_max (SPH._bounds s)))
           p v q5 w5 (axis_test_hi_z (SPH._bounds s)) K5).
Qed.

Lemma axes_kept_inside b p v p' v' :
  axes_kept b p v p' v' → inside b p → p' = p ∧ v' = v.
Proof.
  intros (Kx & Ky & Kz) (Hx & Hy & Hz).
  destruct (Kx Hx), (Ky Hy), (Kz Hz). split; by apply Vector3f_eq.
Qed.

(** X5.  [computeCollisions] with the handler of [update] returns for
    every non-empty particle set (of a size a [size_t] holds, with one
    velocity per particle).  Along every axis on which a particle lies
    between the two faces of the domain, its coordinate and its velocity
    component come out as they went in, whatever happens along the other
    axes; so a particle inside the domain, faces included, is not touched.
    The last particle and every other member of the solver are unchanged. *)
Theorem SPH_computeCollisions_keeps_axes (s : SPH.t) :
  let N := length (SPH._positions s) in
  let b := SPH._bounds s in
  0 < N → (Z.of_nat N < 2 ^ 64)%Z → length (SPH._velocities s) = N →
  ∃ s',
    SPH.computeCollisions SPH.collisionHandler s = Some s' ∧
    (∀ i p v,
       SPH._positions s !! i = Some p → SPH._velocities s !! i = Some v →
       ∃ p' v',
         SPH._positions s' !! i = Some p' ∧
         SPH._velocities s' !! i = Some v' ∧
         axes_kept b p v p' v' ∧
         (inside b p → p' = p ∧ v' = v) ∧
         (i = N - 1 → p' = p ∧ v' = v)) ∧
    length (SPH._positions s') = N ∧ length (SPH._velocities s') = N ∧
    s' = SPH.set_velocities (SPH._velocities s')
           (SPH.set_positions (SPH._positions s') s).
Proof.
  intros N b HN Hfit Hlv.
  set (I := λ (k : nat) (t : SPH.t),
         (∃ ps vs, t = SPH.set_velocities vs (SPH.set_positions ps s)) ∧
         length (SPH._positions t) = N ∧ length (SPH._velocities t) = N ∧
         ∀ i p v,
           SPH._positions s !! i = Some p → SPH._velocities s !! i = Some v →
           ∃ p' v',
             SPH._positions t !! i = Some p' ∧
             SPH._velocities t !! i = Some v' ∧
             axes_kept b p v p' v' ∧ (k ≤ i → p' = p ∧ v' = v)).
  destruct (forM_seq_inv (SPH.collide SPH.collisionHandler) I (N - 1) 0 s)
    as (s' & Hrun & (ps & vs & Hfr) & Hlp' & Hlv' & Hall).
  - unfold I. split_and!; try done.
    + exists (SPH._positions s), (SPH._velocities s). by destruct s.
    + intros i p v Hp Hv. exists p, v. by split_and!.
  - intros i t Hi ((ps & vs & Hfr) & Hlp & Hlt & Hall).
    destruct (lookup_lt_is_Some_2 (SPH._positions s) i) as [p Hp];
      [fold N; lia|].
    destruct (lookup_lt_is_Some_2 (SPH._velocities s) i) as [v Hv]; [lia|].
    destruct (Hall i p v Hp Hv) as (p0 & v0 & Hpt & Hvt & _ & Hsame).
    destruct Hsame as [-> ->]; [lia|].
    assert (SPH._bounds t = b) as Hb by (by rewrite Hfr).
    destruct (collide_kept i t p v Hpt Hvt) as (p' & v' & Hstep & Hk).
    rewrite Hb in Hk.
    exists (with_particle i p' v' t). split; [exact Hstep|].
    unfold I. simpl. rewrite !length_insert. split_and!; try done.
    + exists (<[i := p']> ps), (<[i := v']> vs). by rewrite Hfr.
    + intros k q w Hq Hw.
      destruct (Hall k q w Hq Hw) as (q0 & w0 & Hqt & Hwt & Hk0 & Hs0).
      destruct (decide (k = i)) as [->|Hne].
      * assert (q = p) as -> by congruence.
        assert (w = v) as -> by congruence.
        exists p', v'.
        rewrite list_lookup_insert_eq by lia.
        rewrite list_lookup_insert_eq by lia.
        split_and!; try done. lia.
      * exists q0, w0. rewrite !list_lookup_insert_ne by done.
        split_and!; try done. intros Hle. apply Hs0. lia.
  - exists s'. unfold SPH.computeCollisions. fold N.
    unfold wrap64. rewrite Z.mod_small by lia.
    replace (Z.to_nat (Z.of_nat N - 1)) with (N - 1) by lia.
    split_and!; try done.
    + intros i p v Hp Hv.
      destruct (Hall i p v Hp Hv) as (p' & v' & Hpt & Hvt & Hk & Hsame).
      exists p', v'. split_and!; try done.
      * by apply axes_kept_inside.
      * intros ->. apply Hsame. simpl. lia.
    + by rewrite Hfr.
Qed.

(** X5 on [fluid_escaped]: its first particle is outside along x and z
    and keeps its y coordinate and the y component of its velocity. *)
Lemma SPH_computeCollisions_keeps_axes_witness :
  ∃ s' p' v',
    SPH.computeCollisions SPH.collisionHandler fluid_escaped = Some s' ∧
    SPH._positions s' !! 0 = Some p' ∧ SPH._velocities s' !! 0 = Some v' ∧
    f_y p' = 0.5%R ∧ f_y v' = 1%R ∧
    SPH._positions s' !! 1 = Some centre.
Proof.
  destruct (SPH_computeCollisions_keeps_axes fluid_escaped)
    as (s' & Hrun & Hall & _); [simpl; lia | simpl; lia | done |].
  destruct (Hall 0 (mkVector3f (-1) 0.5 3) (mkVector3f (-2) 1 4)
              eq_refl eq_refl) as (p' & v' & Hp & Hv & (_ & Ky & _) & _).
  destruct (Hall 1 centre (splat 0) eq_refl eq_refl)
    as (p1 & v1 & Hp1 & _ & _ & Hin & _).
  exists s', p', v'. split; [exact Hrun|].
  destruct Ky as [Ey Ew]; [unfold in_range; simpl; lra|].
  destruct Hin as [-> _]; [unfold inside, centre; simpl; lra|].
  by split_and!.
Defined.

(** ** The integration stage *)

(** X6.  The Integrate stage of [update] is the semi-implicit Euler step:
    with one force per particle it returns, every velocity has advanced
    by [dt] times the acceleration [force * invM], every position by [dt]
    times the new velocity, and nothing else in the solver has changed. *)
Theorem SPH_integrate_semi_implicit (invM dt : R) (s : SPH.t) :
  let N := length (SPH._positions s) in
  length (SPH._velocities s) = N → length (SPH._forces s) = N →
  ∃ s',
    SPH.iterate N (SPH.integrate_at invM dt) s = Some s' ∧
    (∀ i p v f,
       SPH._positions s !! i = Some p → SPH._velocities s !! i = Some v →
       SPH._forces s !! i = Some f →
       ∃ v', SPH._velocities s' !! i = Some v' ∧
             v' = vadd v (vscale dt (vscale invM f)) ∧
             SPH._positions s' !! i = Some (vadd p (vscale dt v'))) ∧
    length (SPH._positions s') = N ∧ length (SPH._velocities s') = N ∧
    s' = SPH.set_velocities (SPH._velocities s')
           (SPH.set_positions (SPH._positions s') s).
Proof.
  intros N Hlv Hlf.
  set (I := λ (k : nat) (t : SPH.t),
         (∃ ps vs, t = SPH.set_velocities vs (SPH.set_positions ps s)) ∧
         length (SPH._positions t) = N ∧ length (SPH._velocities t) = N ∧
         ∀ i p v f,
           SPH._positions s !! i = Some p → SPH._velocities s !! i = Some v →
           SPH._forces s !! i = Some f →
           let v' := vadd v (vscale dt (vscale invM f)) in
           SPH._velocities t !! i = Some (if decide (i < k) then v' else v) ∧
           SPH._positions t !! i
           = Some (if decide (i < k) then vadd p (vscale dt v') else p)).
  destruct (forM_seq_inv (SPH.integrate_at invM dt) I N 0 s)
    as (s' & Hrun & (ps & vs & Hfr) & Hlp' & Hlv' & Hall).
  - unfold I. split_and!; try done.
    exists (SPH._positions s), (SPH._velocities s). by destruct s.
  - intros i t Hi ((ps & vs & Hfr) & Hlp & Hlt & Hall).
    destruct (lookup_lt_is_Some_2 (SPH._positions s) i) as [p Hp];
      [fold N; lia|].
    destruct (lookup_lt_is_Some_2 (SPH._velocities s) i) as [v Hv]; [lia|].
    destruct (lookup_lt_is_Some_2 (SPH._forces s) i) as [f Hf]; [lia|].
    destruct (Hall i p v f Hp Hv Hf) as [Hvt Hpt].
    rewrite decide_False in Hpt, Hvt by lia.
    assert (SPH._forces t !! i = Some f) as Hft by (by rewrite Hfr).
    unfold SPH.integrate_at. rewrite Hft. simpl. rewrite Hvt. simpl.
    rewrite Hpt. simpl. eexists. split; [done|].
    unfold I. simpl. rewrite !length_insert. split_and!; try done.
    + exists (<[i := vadd p (vscale dt (vadd v (vscale dt (vscale invM f))))]> ps),
             (<[i := vadd v (vscale dt (vscale invM f))]> vs).
      by rewrite Hfr.
    + intros k q w g Hq Hw Hg. destruct (Hall k q w g Hq Hw Hg) as [Hwt Hqt].
      destruct (decide (k = i)) as [->|Hne].
      * assert (q = p) as -> by congruence.
        assert (w = v) as -> by congruence.
        assert (g = f) as -> by congruence.
        rewrite list_lookup_insert_eq by lia.
        rewrite list_lookup_insert_eq by lia.
        by rewrite !decide_True by lia.
      * rewrite !list_lookup_insert_ne by done. rewrite Hqt, Hwt.
        destruct (decide (k < i)), (decide (k < S i)); try done; lia.
  - exists s'. unfold SPH.iterate. split_and!; try done.
    + intros i p v f Hp Hv Hf. destruct (Hall i p v f Hp Hv Hf) as [Hvt Hpt].
      pose proof (lookup_lt_Some _ _ _ Hp). fold N in H.
      simpl in Hvt, Hpt. rewrite decide_True in Hvt, Hpt by lia.
      eexists. split_and!; done.
    + by rewrite Hfr.
Qed.

(** X6 on the pair of [fluid_pair], at rest and without forces. *)
Lemma SPH_integrate_semi_implicit_witness :
  ∃ s' v',
    SPH.iterate 2 (SPH.integrate_at (1 / 1000) 0.001) fluid_pair = Some s' ∧
    SPH._velocities s' !! 0 = Some v' ∧
    v' = vadd (splat 0) (vscale 0.001 (vscale (1 / 1000) (splat 0))) ∧
    SPH._positions s' !! 0 = Some (vadd centre (vscale 0.001 v')).
Proof.
  destruct (SPH_integrate_semi_implicit (1 / 1000) 0.001 fluid_pair)
    as (s' & Hrun & Hall & _); [reflexivity | reflexivity |].
  destruct (Hall 0 centre (splat 0) (splat 0) eq_refl eq_refl eq_refl)
    as (v' & Hv & Hv' & Hp).
  exists s', v'. split_and!; [exact Hrun | exact Hv | exact Hv' | exact Hp].
Defined.

(** ** Runs of [lookup] that cannot fault *)

Lemma forM_total {X St} (P : St → Prop) (Dom : X → Prop)
    (body : X → St → option St) l :
  Forall Dom l →
  (∀ x s, Dom x → P s → ∃ s', body x s = Some s' ∧ P s') →
  ∀ s, P s → ∃ s', forM body l s = Some s' ∧ P s'.
Proof.
  intros Hl Hb. induction Hl as [|x l Hx _ IH]; intros s HP; simpl.
  - eauto.
  - destruct (Hb x s Hx HP) as (s1 & -> & HP1). simpl. by apply IH.
Qed.

Lemma lookup_total {St} (P : St → Prop) g n pos radius
    (func : Z → St → option St) :
  grid_wf g → offsets_sorted g n →
  (∀ j s, (0 ≤ j < n)%Z → P s → ∃ s', func j s = Some s' ∧ P s') →
  ∀ s, P s → ∃ s', Grid.lookup g pos radius func s = Some s' ∧ P s'.
Proof.
  intros Hwf Hs Hf s HP.
  destruct (lookup_cells_slots g n Hwf Hs (Grid.lookupCells g pos radius))
    as (slots & Hr & Hrun).
  { apply list.Forall_forall. intros cell. apply lookupCells_valid. }
  unfold Grid.lookup. rewrite Hrun.
  by apply (forM_total P (λ j, 0 ≤ j < n)%Z).
Qed.

(** ** The force on a particle without neighbours *)

(** X11.  A particle with no other particle in range feels its weight
    only: when every other particle is at a squared distance at or beyond
    [h2] (or at most 0.00001, and not 0), the task of [computeForces] for
    that particle stores the particle mass times the gravity of the
    settings as its force, and changes nothing else. *)
Theorem SPH_computeForces_isolated (s : SPH.t) (n i : nat) :
  sized s n → i < n →
  grid_wf (SPH._grid s) → offsets_sorted (SPH._grid s) (Z.of_nat n) →
  isolated s i →
  SPH.computeForces_at i s
  = Some (SPH.set_forces
            (<[i := vscale (SPH._particleMass s)
                           (SPH.gravity (SPH._settings s))]> (SPH._forces s))
            s).
Proof.
  intros Hsz Hi Hwf Hs Hiso. pose proof Hsz as (Hlp & _ & _ & Hlf & _).
  destruct (lookup_lt_is_Some_2 (SPH._positions s) i) as [p Hp]; [lia|].
  destruct (lookup_lt_is_Some_2 (SPH._forces s) i) as [f Hf]; [lia|].
  unfold SPH.computeForces_at. rewrite Hp. cbn [mbind option_bind].
  destruct (lookup_total (λ st, st = (s, SPH.initAcc)) (SPH._grid s)
              (Z.of_nat n) p (SPH._h s) (SPH.forceVisitor i))
    with (s := (s, SPH.initAcc)) as (st & -> & ->); try done.
  { intros j st Hj ->. exists (s, SPH.initAcc). split; [|done].
    replace j with (Z.of_nat (Z.to_nat j)) by lia.
    destruct (decide (Z.to_nat j = i)) as [->|Hne].
    - by apply (forceVisitor_self s n).
    - destruct (lookup_lt_is_Some_2 (SPH._positions s) (Z.to_nat j))
        as [q Hq]; [lia|].
      pose proof (Hiso _ p q Hne Hp Hq) as Hb.
      apply pairBranch_Skip in Hb as [Hb0 Hb1].
      apply (forceVisitor_skip s n i _ _ p q); try done; lia. }
  cbn [mbind option_bind]. unfold store. rewrite Hf. simpl.
  f_equal. f_equal. f_equal. apply Vector3f_eq; simpl; ring.
Qed.

Lemma grid1_wf n : grid_wf (grid1 n).
Proof. unfold grid_wf, Grid.cellCount, prod. simpl. lia. Qed.

Lemma grid1_sorted n : (0 ≤ n)%Z → offsets_sorted (grid1 n) n.
Proof.
  intros Hn. unfold offsets_sorted. simpl. split_and!; try done.
  intros [|[|c]] lo hi Hlo Hhi; simpl in *; simplify_eq. lia.
Qed.

(** X11 on the first particle of [fluid_apart]. *)
Lemma SPH_computeForces_isolated_witness :
  SPH.computeForces_at 0 fluid_apart
  = Some (SPH.set_forces
            [vscale 1000 (mkVector3f 0 (-9.81) 0); splat 0] fluid_apart).
Proof.
  apply (SPH_computeForces_isolated fluid_apart 2 0).
  - by repeat split.
  - lia.
  - apply grid1_wf.
  - apply grid1_sorted. lia.
  - intros j p q Hj Hp Hq. destruct j as [|[|j]]; simpl in *; simplify_eq.
    apply pairBranch_Skip. unfold squaredNorm, dot, vsub, centre, sqr. simpl.
    split; [lra | right; lra].
Defined.

(** ** The Grid Update stage *)

Lemma swap_at_zip {X Y} (u u' : list X) (v v' : list Y) i j :
  swap_at u i j = Some u' → swap_at v i j = Some v' →
  swap_at (zip u v) i j = Some (zip u' v').
Proof.
  unfold swap_at. intros Hu Hv.
  destruct (u !! i) as [a|] eqn:Ha; simpl in Hu; [|done].
  destruct (u !! j) as [b|] eqn:Hb; simpl in Hu; [|done].
  destruct (v !! i) as [c|] eqn:Hc; simpl in Hv; [|done].
  destruct (v !! j) as [d|] eqn:Hd; simpl in Hv; [|done].
  injection Hu as <-. injection Hv as <-.
  rewrite !lookup_zip_with, Ha, Hb, Hc, Hd. simpl.
  f_equal.
  by rewrite (insert_zip_with pair u v i b d), (insert_zip_with pair _ _ j a c).
Qed.

(** The Grid Update stage of [update]. *)
Lemma gridUpdate_stage (fuel : nat) (s : SPH.t) :
  let N := length (SPH._positions s) in
  grid_wf (SPH._grid s) →
  Forall (λ p, valid_cell (SPH._grid s) (Grid.index (SPH._grid s) p))
         (SPH._positions s) →
  (Z.of_nat N < 2 ^ 32)%Z → N < fuel →
  length (SPH._velocities s) = N →
  ∃ g' s',
    Grid.update fuel (SPH._grid s) (SPH._positions s) SPH.swapParticles s
    = Some (g', s') ∧
    zip (SPH._positions s') (SPH._velocities s')
    ≡ₚ zip (SPH._positions s) (SPH._velocities s) ∧
    s' = SPH.set_velocities (SPH._velocities s')
           (SPH.set_positions (SPH._positions s') s) ∧
    grid_indexes g' (SPH._positions s') ∧
    length (SPH._positions s') = N ∧ length (SPH._velocities s') = N ∧
    Grid.set_cellOffset (Grid._cellOffset g') (SPH._grid s) = g'.
Proof.
  intros N Hwf Hvalid Hfits Hfuel Hlv.
  set (g := SPH._grid s) in *. set (ps := SPH._positions s) in *.
  set (vs := SPH._velocities s) in *.
  destruct (update_spec SPH.swapParticles g ps
              (λ _ _ t, ∃ P V, t = SPH.set_velocities V (SPH.set_positions P s)
                               ∧ zip P V ≡ₚ zip ps vs
                               ∧ length P = N ∧ length V = N)
              Hwf Hvalid Hfits) with (fuel := fuel) (a := s)
    as (offs & ind & cidx & s' & Hup & _ & _ & _ & P & V & Hfr & Hperm & HlP & HlV);
    try done.
  { intros ind cidx t i j c Hi Hj _ _ _ _ _ _ (P & V & -> & Hperm & HlP & HlV).
    destruct (swap_at_Some P i j) as [P' HP']; [fold N in Hi, Hj; lia..|].
    destruct (swap_at_Some V i j) as [V' HV']; [fold N in Hi, Hj; lia..|].
    exists (SPH.set_velocities V' (SPH.set_positions P' s)). split.
    - unfold SPH.swapParticles. simpl. rewrite HP'. simpl. by rewrite HV'.
    - intros _ _. exists P', V'. split_and!; try done.
      + rewrite <- Hperm.
        apply (swap_at_Permutation (zip P V) _ i j).
        by apply swap_at_zip.
      + by rewrite (swap_at_length _ _ _ _ HP').
      + by rewrite (swap_at_length _ _ _ _ HV'). }
  { intros cidx _ _. exists ps, vs. split_and!; try done. by destruct s. }
  destruct (update_sim (λ (t : SPH.t) (b : list Vector3f), SPH._positions t = b)
              SPH.swapParticles swap_vec) with
    (fuel := fuel) (g := g) (positions := ps) (a := s) (b := ps)
    (g' := Grid.set_cellOffset offs g) (a' := s')
    as (ps' & Hup' & Hps'); try done.
  { intros i j t b t' <- Hsw. unfold SPH.swapParticles in Hsw.
    destruct (swap_at (SPH._positions t) i j) as [P'|] eqn:E; simpl in Hsw;
      [|done].
    destruct (swap_at (SPH._velocities t) i j) as [V'|]; simpl in Hsw; [|done].
    injection Hsw as <-. by exists P'. }
  destruct (update_indexes fuel g ps Hwf Hvalid Hfits Hfuel)
    as (offs2 & ps2 & Hup2 & _ & Hidx).
  rewrite Hup' in Hup2. injection Hup2 as Hg ->. rewrite <- Hg in Hidx.
  exists (Grid.set_cellOffset offs g), s'. rewrite Hps'.
  split_and!; try done.
  - rewrite <- Hps', Hfr. simpl. done.
  - rewrite <- Hps', Hfr. simpl. done.
  - rewrite <- Hps', Hfr. simpl. done.
  - rewrite Hfr. simpl. done.
Qed.

(** X12.  The Grid Update stage of [update] keeps every particle
    together with its velocity: on particles that all have their cell in
    the grid it returns, the pairs of position and velocity after it are
    a rearrangement of the pairs before it, nothing else in the solver
    has changed, and the new grid is up to date for the new order: the
    solver is ready for the neighbour searches of the following
    stages. *)
Theorem SPH_sort_keeps_pairs (fuel : nat) (s : SPH.t) :
  let N := length (SPH._positions s) in
  grid_wf (SPH._grid s) →
  Forall (λ p, valid_cell (SPH._grid s) (Grid.index (SPH._grid s) p))
         (SPH._positions s) →
  (Z.of_nat N < 2 ^ 32)%Z → N < fuel →
  length (SPH._velocities s) = N →
  ∃ g' s',
    Grid.update fuel (SPH._grid s) (SPH._positions s) SPH.swapParticles s
    = Some (g', s') ∧
    zip (SPH._positions s') (SPH._velocities s')
    ≡ₚ zip (SPH._positions s) (SPH._velocities s) ∧
    s' = SPH.set_velocities (SPH._velocities s')
           (SPH.set_positions (SPH._positions s') s) ∧
    grid_indexes g' (SPH._positions s') ∧
    ((0 <= Grid._invCellSize (SPH._grid s))%R → (0 <= SPH._h s)%R →
     SPH._h2 s = sqr (SPH._h s) → searchable (SPH.set_grid g' s')).
Proof.
  intros N Hwf Hvalid Hfits Hfuel Hlv.
  destruct (gridUpdate_stage fuel s Hwf Hvalid Hfits Hfuel Hlv)
    as (g' & s' & Hup & Hperm & Hfr & Hidx & _ & _ & Hg).
  exists g', s'. split_and!; try done.
  intros Hinv Hh Hh2. unfold searchable. rewrite Hfr. simpl.
  rewrite <- Hg. simpl. rewrite Hg. done.
Qed.

(** ** A whole step cannot fault *)

Lemma same_setup_refl s : same_setup s s.
Proof. by repeat split. Qed.

Lemma same_setup_trans s t u :
  same_setup s t → same_setup t u → same_setup s u.
Proof.
  unfold same_setup. intros H1 H2. destruct_and!.
  split_and!; congruence.
Qed.

Lemma stage_ok_refl n s : steppable n s → stage_ok n s s.
Proof. intros H. split_and!; try done. Qed.

Lemma stage_ok_trans n s t u :
  stage_ok n s t → stage_ok n t u → stage_ok n s u.
Proof.
  intros (_ & H1 & Hg1 & Hs1 & Ht1) (Hu & H2 & Hg2 & Hs2 & Ht2).
  split_and!; try done; try congruence. by eapply same_setup_trans.
Qed.

(** A stage that is a loop of [n] tasks, each of which keeps [stage_ok]. *)
Lemma stage_loop n (body : nat → SPH.t → option SPH.t) s :
  (∀ i t, i < n → steppable n t →
          ∃ t', body i t = Some t' ∧ stage_ok n t t') →
  steppable n s →
  ∃ s', SPH.iterate n body s = Some s' ∧ stage_ok n s s'.
Proof.
  intros Hb Hs. unfold SPH.iterate.
  destruct (forM_seq_inv body (λ _ t, stage_ok n s t) n 0 s)
    as (s' & Hrun & Hok); [by apply stage_ok_refl | | by exists s'].
  intros i t Hi Ht. destruct (Hb i t) as (t' & Hrun & Hok);
    [lia | by destruct Ht |].
  exists t'. split; [done|]. by eapply stage_ok_trans.
Qed.

(** Solves [stage_ok n t t'] for a [t'] built from [t] by setters that
    keep the lengths. *)
Ltac stage_ok_tac Ht :=
  destruct Ht as ((Hlp & Hlv & Hln & Hlf & Hld & HlP) & Hwf & Hso);
  unfold stage_ok, steppable, sized, same_setup; simpl;
  rewrite ?length_insert; split_and!; done.

Lemma neighbours_total {St} n (t : SPH.t) p
    (func : Z → Vector3f → R → St → option St) (acc : St) :
  steppable n t →
  (∀ j r r2 acc, (0 ≤ j < Z.of_nat n)%Z → is_Some (func j r r2 acc)) →
  is_Some (SPH.iterateNeighbours t p func acc).
Proof.
  intros ((Hlp & _) & Hwf & Hso) Hf. unfold SPH.iterateNeighbours.
  destruct (lookup_total (λ _, True) (SPH._grid t) (Z.of_nat n) p (SPH._h t)
              (λ j acc,
                 pj ← at_ (SPH._positions t) j;
                 let r := vsub p pj in
                 let r2 := squaredNorm r in
                 if Rltb r2 (SPH._h2 t) then func j r r2 acc else Some acc)
              Hwf Hso) with (s := acc) as (acc' & Hrun & _);
    [| done | by exists acc'].
  intros j a Hj _.
  destruct (lookup_lt_is_Some_2 (SPH._positions t) (Z.to_nat j)) as [q Hq];
    [lia|].
  assert (at_ (SPH._positions t) j = Some q) as ->
    by (apply at_Some; split; [lia | done]).
  simpl. destruct (Rltb _ _); [|by eauto].
  destruct (Hf j (vsub p q) (squaredNorm (vsub p q)) a Hj) as [a' ->]. eauto.
Qed.

Lemma computeDensity_at_total n i t :
  i < n → steppable n t →
  ∃ t', SPH.computeDensity_at i t = Some t' ∧ stage_ok n t t'.
Proof.
  intros Hi Ht. pose proof Ht as ((Hlp & Hlv & Hln & Hlf & Hld & HlP) & _).
  destruct (lookup_lt_is_Some_2 (SPH._positions t) i) as [p Hp]; [lia|].
  destruct (lookup_lt_is_Some_2 (SPH._densities t) i) as [d Hd]; [lia|].
  destruct (lookup_lt_is_Some_2 (SPH._pressures t) i) as [P0 HP0]; [lia|].
  unfold SPH.computeDensity_at. rewrite Hp. cbn [mbind option_bind].
  destruct (neighbours_total n t p
              (λ j r r2 density,
                 Some (density + SPH.Kernel.poly6 (SPH._kernel t) r2)%R)
              0%R Ht) as [x ->]; [by eauto|].
  cbn [mbind option_bind]. unfold store. rewrite Hd. simpl.
  rewrite HP0. simpl. eexists. split; [done|]. clear Hlp Hlv Hln Hlf Hld HlP.
  stage_ok_tac Ht.
Qed.

Lemma computeNormals_at_total n i t :
  i < n → steppable n t →
  ∃ t', SPH.computeNormals_at i t = Some t' ∧ stage_ok n t t'.
Proof.
  intros Hi Ht. pose proof Ht as ((Hlp & Hlv & Hln & Hlf & Hld & HlP) & _).
  destruct (lookup_lt_is_Some_2 (SPH._positions t) i) as [p Hp]; [lia|].
  destruct (lookup_lt_is_Some_2 (SPH._normals t) i) as [m Hm]; [lia|].
  unfold SPH.computeNormals_at. rewrite Hp. cbn [mbind option_bind].
  destruct (neighbours_total n t p
              (λ j r r2 normal,
                 dj ← at_ (SPH._densities t) j;
                 Some (vadd normal
                         (vdiv (SPH.Kernel.poly6Grad (SPH._kernel t) r r2) dj)))
              Vector3f_default Ht) as [x ->].
  { intros j r r2 acc Hj.
    destruct (lookup_lt_is_Some_2 (SPH._densities t) (Z.to_nat j)) as [d Hd];
      [lia|].
    assert (at_ (SPH._densities t) j = Some d) as ->
      by (apply at_Some; split; [lia | done]).
    simpl. eauto. }
  cbn [mbind option_bind]. unfold store. rewrite Hm. simpl.
  eexists. split; [done|]. clear Hlp Hlv Hln Hlf Hld HlP.
  stage_ok_tac Ht.
Qed.

Lemma forceVisitor_total n i (j : Z) t a :
  steppable n t → i < n → (0 ≤ j < Z.of_nat n)%Z →
  ∃ t' a', SPH.forceVisitor i j (t, a) = Some (t', a') ∧ stage_ok n t t'.
Proof.
  intros Ht Hi Hj. pose proof Ht as (Hsz & _).
  replace j with (Z.of_nat (Z.to_nat j)) by lia.
  destruct (decide (i = Z.to_nat j)) as [<-|Hne].
  - rewrite (forceVisitor_self t n i a Hsz Hi). eexists _, _.
    split; [done|]. by apply stage_ok_refl.
  - destruct (forceVisitor_pair t n i (Z.to_nat j) a Hsz Hi ltac:(lia) Hne)
      as (? & ? & ? & ? & ? & ? & ? & ? & p_i & p_j
          & _ & _ & _ & _ & _ & _ & _ & _ & _ & _ & ->).
    destruct (SPH.pairBranch _ _); eexists _, _; (split; [done|]).
    + by apply stage_ok_refl.
    + stage_ok_tac Ht.
    + by apply stage_ok_refl.
Qed.

Lemma computeForces_at_total n i t :
  i < n → steppable n t →
  ∃ t', SPH.computeForces_at i t = Some t' ∧ stage_ok n t t'.
Proof.
  intros Hi Ht. pose proof Ht as ((Hlp & Hlv & Hln & Hlf & Hld & HlP) & Hwf & Hso).
  destruct (lookup_lt_is_Some_2 (SPH._positions t) i) as [p Hp]; [lia|].
  unfold SPH.computeForces_at. rewrite Hp. cbn [mbind option_bind].
  destruct (lookup_total (λ st : SPH.t * SPH.Acc, stage_ok n t st.1)
              (SPH._grid t) (Z.of_nat n) p (SPH._h t) (SPH.forceVisitor i)
              Hwf Hso) with (s := (t, SPH.initAcc))
    as ([t1 a1] & -> & Hok1); [| by apply stage_ok_refl |].
  { intros j [t2 a2] Hj Hok2. simpl in Hok2.
    destruct (forceVisitor_total n i j t2 a2) as (t3 & a3 & -> & Hok3);
      [by destruct Hok2 | done | done |].
    exists (t3, a3). split; [done|]. by eapply stage_ok_trans. }
  cbn [mbind option_bind]. simpl in Hok1.
  pose proof Hok1 as (Ht1 & _).
  pose proof Ht1 as ((_ & _ & _ & Hlf1 & _) & _).
  destruct (lookup_lt_is_Some_2 (SPH._forces t1) i) as [f Hf]; [lia|].
  unfold store. rewrite Hf. simpl. eexists. split; [done|].
  eapply stage_ok_trans; [exact Hok1|]. clear -Ht1. stage_ok_tac Ht1.
Qed.

Lemma integrate_at_total n invM dt i t :
  i < n → steppable n t →
  ∃ t', SPH.integrate_at invM dt i t = Some t' ∧ stage_ok n t t'.
Proof.
  intros Hi Ht. pose proof Ht as ((Hlp & Hlv & Hln & Hlf & Hld & HlP) & _).
  destruct (lookup_lt_is_Some_2 (SPH._positions t) i) as [p Hp]; [lia|].
  destruct (lookup_lt_is_Some_2 (SPH._velocities t) i) as [v Hv]; [lia|].
  destruct (lookup_lt_is_Some_2 (SPH._forces t) i) as [f Hf]; [lia|].
  unfold SPH.integrate_at. rewrite Hf. simpl. rewrite Hv. simpl.
  rewrite Hp. simpl. eexists. split; [done|].
  clear Hlp Hlv Hln Hlf Hld HlP. stage_ok_tac Ht.
Qed.

(** One of the six tests of a round of [computeCollisions]. *)
Lemma collide_test_total n i (viol : Vector3f → bool) nrm
    (d : Vector3f → R) t :
  i < n → steppable n t →
  ∃ t', (p ← SPH._positions t !! i;
         if viol p then SPH.collisionHandler i nrm (d p) t else Some t)
        = Some t' ∧ stage_ok n t t'.
Proof.
  intros Hi Ht. pose proof Ht as ((Hlp & Hlv & Hln & Hlf & Hld & HlP) & _).
  destruct (lookup_lt_is_Some_2 (SPH._positions t) i) as [p Hp]; [lia|].
  destruct (lookup_lt_is_Some_2 (SPH._velocities t) i) as [v Hv]; [lia|].
  rewrite Hp. cbn [mbind option_bind]. destruct (viol p).
  - rewrite (collisionHandler_run i nrm (d p) t p v Hp Hv).
    eexists. split; [done|]. clear Hlp Hlv Hln Hlf Hld HlP.
    unfold with_particle. stage_ok_tac Ht.
  - eexists. split; [done|]. by apply stage_ok_refl.
Qed.

Lemma collide_total n i t :
  i < n → steppable n t →
  ∃ t', SPH.collide SPH.collisionHandler i t = Some t' ∧ stage_ok n t t'.
Proof.
  intros Hi Ht. unfold SPH.collide. cbv zeta beta.
  set (mn := box_min (SPH._bounds t)). set (mx := box_max (SPH._bounds t)).
  destruct (collide_test_total n i (λ p, Rltb (f_x p) (f_x mn))
              (mkVector3f 1 0 0) (λ p, f_x mn - f_x p)%R t Hi Ht)
    as (t1 & -> & H1). cbn [mbind option_bind].
  destruct (collide_test_total n i (λ p, Rltb (f_x mx) (f_x p))
              (mkVector3f (-1) 0 0) (λ p, f_x p - f_x mx)%R t1 Hi
              (proj1 H1)) as (t2 & -> & H2). cbn [mbind option_bind].
  destruct (collide_test_total n i (λ p, Rltb (f_y p) (f_y mn))
              (mkVector3f 0 1 0) (λ p, f_y mn - f_y p)%R t2 Hi
              (proj1 H2)) as (t3 & -> & H3). cbn [mbind option_bind].
  destruct (collide_test_total n i (λ p, Rltb (f_y mx) (f_y p))
              (mkVector3f 0 (-1) 0) (λ p, f_y p - f_y mx)%R t3 Hi
              (proj1 H3)) as (t4 & -> & H4). cbn [mbind option_bind].
  destruct (collide_test_total n i (λ p, Rltb (f_z p) (f_z mn))
              (mkVector3f 0 0 1) (λ p, f_z mn - f_z p)%R t4 Hi
              (proj1 H4)) as (t5 & -> & H5). cbn [mbind option_bind].
  destruct (collide_test_total n i (λ p, Rltb (f_z mx) (f_z p))
              (mkVector3f 0 0 (-1)) (λ p, f_z p - f_z mx)%R t5 Hi
              (proj1 H5)) as (t6 & -> & H6).
  exists t6. split; [done|].
  do 5 (eapply stage_ok_trans; [eassumption|]). exact H6.
Qed.

Lemma computeCollisions_total n s :
  0 < n → (Z.of_nat n < 2 ^ 64)%Z → steppable n s →
  ∃ s', SPH.computeCollisions SPH.collisionHandler s = Some s'
        ∧ stage_ok n s s'.
Proof.
  intros Hn Hfit Hs. pose proof Hs as ((Hlp & _) & _).
  unfold SPH.computeCollisions. rewrite Hlp. unfold wrap64.
  rewrite Z.mod_small by lia.
  destruct (forM_seq_inv (SPH.collide SPH.collisionHandler)
              (λ _ t, stage_ok n s t) (Z.to_nat (Z.of_nat n - 1)) 0 s)
    as (s' & Hrun & Hok); [by apply stage_ok_refl | | by exists s'].
  intros i t Hi Ht. destruct (collide_total n i t) as (t' & Hrun & Hok);
    [lia | by destruct Ht |].
  exists t'. split; [done|]. by eapply stage_ok_trans.
Qed.

(** X13.  A step cannot fault when it starts from particles inside the
    grid.  For a solver with [n >= 1] particles (a count the 32-bit
    counters of the grid hold), [n] entries in every array, a grid of
    the shape [init] gives it, and every particle in a cell of that
    grid, [update] returns, with fuel above [n] for the loop of the
    sort; it leaves the arrays with [n] entries each and the grid with
    the offsets of [n] particles, advances the time by [dt], installs
    the gravity (0, -9.81, 0), and keeps the other settings, the
    constants of the solver and the shape of the grid. *)
Theorem SPH_update_safe (fuel : nat) (dt : R) (s : SPH.t) (n : nat) :
  sized s n → 0 < n → (Z.of_nat n < 2 ^ 32)%Z → n < fuel →
  grid_wf (SPH._grid s) →
  Forall (λ p, valid_cell (SPH._grid s) (Grid.index (SPH._grid s) p))
         (SPH._positions s) →
  ∃ s',
    SPH.update fuel dt s = Some s' ∧
    steppable n s' ∧ same_setup s s' ∧
    SPH._t s' = (SPH._t s + dt)%R ∧
    SPH._settings s'
    = SPH.mkSettings (SPH.stiffness (SPH._settings s))
                     (SPH.viscosity (SPH._settings s)) fixed_gravity.
Proof.
  intros Hsz Hn Hfits Hfuel Hwf Hvalid. rewrite update_stages.
  set (s0 := SPH.set_gravity fixed_gravity (SPH.set_t (SPH._t s + dt) s)).
  pose proof Hsz as (Hlp & Hlv & Hln & Hlf & Hld & HlP).
  unfold SPH.stages.
  destruct (gridUpdate_stage fuel s0)
    as (g' & s1 & Hup & _ & Hfr & Hidx & Hlp1 & Hlv1 & Hg);
    [done | done | simpl; lia | simpl; lia | simpl; lia |].
  rewrite Hup. cbn [mbind option_bind].
  change (length (SPH._positions s0)) with (length (SPH._positions s))
    in Hlp1, Hlv1.
  set (s2 := SPH.set_grid g' s1).
  assert (steppable n s2) as Hs2.
  { destruct Hidx as (Hwf' & Hso' & _). unfold steppable, sized, s2.
    rewrite Hfr. simpl. rewrite Hlp1 in Hso'.
    split_and!; try done; congruence. }
  assert (same_setup s s2 ∧ SPH._t s2 = (SPH._t s + dt)%R ∧
          SPH._settings s2
          = SPH.mkSettings (SPH.stiffness (SPH._settings s))
                           (SPH.viscosity (SPH._settings s)) fixed_gravity)
    as (Hsame & Ht2 & Hset2).
  { unfold s2. rewrite Hfr. unfold same_setup. simpl. rewrite <- Hg. simpl.
    split_and!; done. }
  assert (∀ t, steppable n t → length (SPH._positions t) = n) as Hlen
    by (by intros t ((? & _) & _)).
  destruct (stage_loop n SPH.computeDensity_at s2) as (s3 & Hrun3 & Hok3);
    [intros; by apply computeDensity_at_total | done |].
  unfold SPH.computeDensity. rewrite (Hlen s2 Hs2), Hrun3.
  cbn [mbind option_bind]. pose proof Hok3 as (Hs3 & _).
  destruct (stage_loop n SPH.computeNormals_at s3) as (s4 & Hrun4 & Hok4);
    [intros; by apply computeNormals_at_total | done |].
  unfold SPH.computeNormals. rewrite (Hlen s3 Hs3), Hrun4.
  cbn [mbind option_bind]. pose proof Hok4 as (Hs4 & _).
  destruct (stage_loop n SPH.computeForces_at s4) as (s5 & Hrun5 & Hok5);
    [intros; by apply computeForces_at_total | done |].
  unfold SPH.computeForces. rewrite (Hlen s4 Hs4), Hrun5.
  cbn [mbind option_bind]. pose proof Hok5 as (Hs5 & _).
  destruct (stage_loop n (SPH.integrate_at (1 / SPH._particleMass s5) dt) s5)
    as (s6 & Hrun6 & Hok6);
    [intros; by apply integrate_at_total | done |].
  rewrite (Hlen s5 Hs5), Hrun6.
  cbn [mbind option_bind]. pose proof Hok6 as (Hs6 & _).
  destruct (computeCollisions_total n s6) as (s7 & Hrun7 & Hok7);
    [done | lia | done |].
  exists s7. split; [done|].
  assert (stage_ok n s2 s7) as (Hs7 & Hsame7 & _ & Hset7 & Ht7)
    by (do 4 (eapply stage_ok_trans; [eassumption|]); exact Hok7).
  split_and!; try done; try congruence.
  by eapply same_setup_trans.
Qed.

(** ** The pair of [fluid_pair] on the one-cell grid *)

Lemma grid1_index n p :
  (0 <= f_x p < 2)%R → (0 <= f_y p < 2)%R → (0 <= f_z p < 2)%R →
  Grid.index (grid1 n) p = mkVector3i 0 0 0.
Proof.
  intros Hx Hy Hz. unfold Grid.index. simpl.
  f_equal; apply Int_part_unique; simpl; lra.
Qed.

Lemma fluid_pair_valid :
  Forall (λ p, valid_cell (grid1 2) (Grid.index (grid1 2) p))
         (SPH._positions fluid_pair).
Proof.
  apply list.Forall_forall. intros p Hp.
  assert (Grid.index (grid1 2) p = mkVector3i 0 0 0) as ->.
  { simpl in Hp. apply elem_of_cons in Hp as [->|Hp];
      [|apply list_elem_of_singleton in Hp as ->];
      apply grid1_index; unfold centre; simpl; lra. }
  unfold valid_cell. simpl. lia.
Qed.

Lemma fluid_pair_indexes : grid_indexes (grid1 2) (SPH._positions fluid_pair).
Proof.
  split; [apply grid1_wf|]. split; [apply (grid1_sorted 2); lia|].
  intros k p Hk.
  assert (p ∈ SPH._positions fluid_pair) as Hp
    by (by eapply list_elem_of_lookup_2).
  pose proof fluid_pair_valid as Hv. rewrite list.Forall_forall in Hv.
  split; [by apply Hv|].
  assert (Grid.index (grid1 2) p = mkVector3i 0 0 0) as Hi.
  { simpl in Hp. apply elem_of_cons in Hp as [->|Hp];
      [|apply list_elem_of_singleton in Hp as ->];
      apply grid1_index; unfold centre; simpl; lra. }
  unfold Grid.indexLinear. rewrite Hi.
  exists 0%Z, 2%Z. split; [done|]. split; [done|].
  apply lookup_lt_Some in Hk. simpl in Hk. lia.
Qed.

Lemma fluid_pair_searchable : searchable fluid_pair.
Proof.
  split; [exact fluid_pair_indexes|]. simpl. split; [lra|]. split; [lra|done].
Qed.

(** X8 on the pair of [fluid_pair]. *)
Lemma SPH_computeDensity_brute_force_witness :
  ∃ s',
    SPH.computeDensity fluid_pair = Some s' ∧
    SPH._densities s' = bruteDensity fluid_pair <$> SPH._positions fluid_pair ∧
    SPH._pressures s' = tait fluid_pair <$> SPH._densities s'.
Proof.
  destruct (SPH_computeDensity_brute_force fluid_pair)
    as (s' & Hrun & HD & HP & _);
    [exact fluid_pair_searchable | reflexivity | reflexivity |].
  exists s'. split_and!; [exact Hrun | exact HD | exact HP].
Defined.

(** X14 on the pair of [fluid_pair]. *)
Lemma SPH_computeDensity_positive_witness :
  ∃ s',
    SPH.computeDensity fluid_pair = Some s' ∧
    Forall (λ d, 0 < d)%R (SPH._densities s').
Proof.
  destruct (SPH_computeDensity_positive fluid_pair)
    as (s' & Hrun & Hall);
    [exact fluid_pair_searchable | reflexivity | reflexivity | reflexivity
    | simpl; lra | simpl; lra |].
  exists s'. split; [exact Hrun|].
  eapply list.Forall_impl; [exact Hall|]. intros d Hd. simpl in Hd. lra.
Defined.

(** X12 on the pair of [fluid_pair]. *)
Lemma SPH_sort_keeps_pairs_witness :
  ∃ g' s',
    Grid.update 3 (SPH._grid fluid_pair) (SPH._positions fluid_pair)
                SPH.swapParticles fluid_pair = Some (g', s') ∧
    zip (SPH._positions s') (SPH._velocities s')
    ≡ₚ zip (SPH._positions fluid_pair) (SPH._velocities fluid_pair) ∧
    grid_indexes g' (SPH._positions s') ∧
    searchable (SPH.set_grid g' s').
Proof.
  destruct (SPH_sort_keeps_pairs 3 fluid_pair)
    as (g' & s' & Hup & Hperm & _ & Hidx & Hs);
    [apply grid1_wf | exact fluid_pair_valid | simpl; lia | simpl; lia
    | reflexivity |].
  exists g', s'.
  split_and!; [exact Hup | exact Hperm | exact Hidx |].
  apply Hs; simpl; [lra | lra | reflexivity].
Defined.

(** X13 on the pair of [fluid_pair]. *)
Lemma SPH_update_safe_witness :
  ∃ s',
    SPH.update 3 0.001 fluid_pair = Some s' ∧
    steppable 2 s' ∧ same_setup fluid_pair s' ∧
    SPH._t s' = (0 + 0.001)%R ∧
    SPH._settings s' = SPH.mkSettings 3 1 fixed_gravity.
Proof.
  apply (SPH_update_safe 3 0.001 fluid_pair 2);
    [exact fluid_pair_sized | lia | lia | lia | apply grid1_wf
    | exact fluid_pair_valid].
Defined.

(** ** The kernels and their gradients *)

Lemma square_lim (x : R) : derivable_pt_lim (λ t, t * t)%R x (2 * x)%R.
Proof.
  replace (2 * x)%R with (1 * x + x * 1)%R by ring.
  apply (derivable_pt_lim_mult id id); apply derivable_pt_lim_id.
Qed.

(** The squared norm along each axis. *)
Lemma squaredNorm_lim_x x y z :
  derivable_pt_lim (λ t, squaredNorm (mkVector3f t y z)) x (2 * x)%R.
Proof.
  unfold squaredNorm, dot. simpl.
  replace (2 * x)%R with (2 * x + 0 + 0)%R by ring.
  apply (derivable_pt_lim_plus
           (λ t, t * t + y * y)%R (fct_cte (z * z)));
    [|apply derivable_pt_lim_const].
  apply (derivable_pt_lim_plus (λ t, t * t)%R (fct_cte (y * y)));
    [apply square_lim | apply derivable_pt_lim_const].
Qed.

Lemma squaredNorm_lim_y x y z :
  derivable_pt_lim (λ t, squaredNorm (mkVector3f x t z)) y (2 * y)%R.
Proof.
  unfold squaredNorm, dot. simpl.
  replace (2 * y)%R with (0 + 2 * y + 0)%R by ring.
  apply (derivable_pt_lim_plus
           (λ t, x * x + t * t)%R (fct_cte (z * z)));
    [|apply derivable_pt_lim_const].
  apply (derivable_pt_lim_plus (fct_cte (x * x)) (λ t, t * t)%R);
    [apply derivable_pt_lim_const | apply square_lim].
Qed.

Lemma squaredNorm_lim_z x y z :
  derivable_pt_lim (λ t, squaredNorm (mkVector3f x y t)) z (2 * z)%R.
Proof.
  unfold squaredNorm, dot. simpl.
  replace (2 * z)%R with (0 + 2 * z)%R by ring.
  apply (derivable_pt_lim_plus (fct_cte (x * x + y * y)) (λ t, t * t)%R);
    [apply derivable_pt_lim_const | apply square_lim].
Qed.

Lemma cube_lim (u : R → R) x l :
  derivable_pt_lim u x l →
  derivable_pt_lim (λ t, cube (u t)) x (3 * sqr (u x) * l)%R.
Proof.
  intros Hu. unfold cube.
  replace (3 * sqr (u x) * l)%R
    with ((l * u x + u x * l) * u x + u x * u x * l)%R
    by (unfold sqr; ring).
  apply (derivable_pt_lim_mult (λ t, u t * u t)%R u); [|done].
  by apply (derivable_pt_lim_mult u u).
Qed.

(** The density kernel along a path [g] of squared distances. *)
Lemma poly6_chain c h2 (g : R → R) x l :
  derivable_pt_lim g x l →
  derivable_pt_lim (λ t, c * cube (h2 - g t))%R x
                   (c * (3 * sqr (h2 - g x) * - l))%R.
Proof.
  intros Hg.
  apply (derivable_pt_lim_scal (λ t, cube (h2 - g t))).
  apply (cube_lim (λ t, h2 - g t)%R).
  replace (- l)%R with (0 - l)%R by ring.
  apply (derivable_pt_lim_minus (fct_cte h2) g);
    [apply derivable_pt_lim_const | done].
Qed.

(** The pressure kernel along a path [g] of squared distances. *)
Lemma spiky_chain c h (g : R → R) x l :
  (0 < g x)%R → derivable_pt_lim g x l →
  derivable_pt_lim (λ t, c * cube (h - sqrt (g t)))%R x
    (c * (3 * sqr (h - sqrt (g x)) * - (l / (2 * sqrt (g x)))))%R.
Proof.
  intros Hpos Hg.
  apply (derivable_pt_lim_scal (λ t, cube (h - sqrt (g t)))).
  apply (cube_lim (λ t, h - sqrt (g t))%R).
  replace (- (l / (2 * sqrt (g x))))%R
    with (0 - / (2 * sqrt (g x)) * l)%R by (unfold Rdiv; ring).
  apply (derivable_pt_lim_minus (fct_cte h) (λ t, sqrt (g t)));
    [apply derivable_pt_lim_const|].
  apply (derivable_pt_lim_comp g sqrt); [done|].
  by apply derivable_pt_lim_sqrt.
Qed.

Lemma poly6_gradient (c h : R) (p : Vector3f) :
  gradient_at (poly6Field c (SPH.Kernel.init h)) p
    (vscale (-6 * c)
            (SPH.Kernel.poly6Grad (SPH.Kernel.init h) p (squaredNorm p))).
Proof.
  destruct p as [x y z].
  unfold gradient_at, poly6Field, SPH.Kernel.poly6, SPH.Kernel.poly6Grad.
  cbn [f_x f_y f_z vscale SPH.Kernel.h2 SPH.Kernel.init].
  set (r2 := squaredNorm (mkVector3f x y z)).
  split; [|split].
  - replace (-6 * c * (sqr (sqr h - r2) * x))%R
      with (c * (3 * sqr (sqr h - r2) * - (2 * x)))%R by ring.
    exact (poly6_chain c (sqr h) (λ t, squaredNorm (mkVector3f t y z)) x
                       (2 * x) (squaredNorm_lim_x x y z)).
  - replace (-6 * c * (sqr (sqr h - r2) * y))%R
      with (c * (3 * sqr (sqr h - r2) * - (2 * y)))%R by ring.
    exact (poly6_chain c (sqr h) (λ t, squaredNorm (mkVector3f x t z)) y
                       (2 * y) (squaredNorm_lim_y x y z)).
  - replace (-6 * c * (sqr (sqr h - r2) * z))%R
      with (c * (3 * sqr (sqr h - r2) * - (2 * z)))%R by ring.
    exact (poly6_chain c (sqr h) (λ t, squaredNorm (mkVector3f x y t)) z
                       (2 * z) (squaredNorm_lim_z x y z)).
Qed.

Lemma pow_h_neq (h : R) (n : nat) : (0 < h)%R → (PI * h ^ n ≠ 0)%R.
Proof.
  intros Hh. apply Rmult_integral_contrapositive_currified.
  - apply Rgt_not_eq, PI_RGT_0.
  - apply pow_nonzero. lra.
Qed.

Lemma poly6GradConstant_normalised (h : R) :
  (0 < h)%R →
  SPH.Kernel.poly6GradConstant (SPH.Kernel.init h)
  = (-6 * (315 / (64 * PI * h ^ 9)))%R.
Proof.
  intros Hh.
  cbn [SPH.Kernel.poly6GradConstant SPH.Kernel.init]. field.
  split; [lra | apply PI_neq0].
Qed.

(** A non-zero vector has a non-zero component. *)
Lemma squaredNorm_component (p : Vector3f) :
  (0 < squaredNorm p)%R → f_x p ≠ 0%R ∨ f_y p ≠ 0%R ∨ f_z p ≠ 0%R.
Proof.
  intros Hp. destruct p as [x y z]. cbn [f_x f_y f_z].
  destruct (Req_dec x 0) as [->|]; [|by left].
  destruct (Req_dec y 0) as [->|]; [|by right; left].
  destruct (Req_dec z 0) as [->|]; [|by right; right].
  unfold squaredNorm, dot in Hp. simpl in Hp. lra.
Qed.

(** Inside the support and away from the centre, the scaled gradient
    kernel is the gradient of the density kernel for one normalisation
    only. *)
Lemma poly6_gradient_unique (a c h : R) (p : Vector3f) :
  (0 < squaredNorm p < sqr h)%R →
  gradient_at (poly6Field c (SPH.Kernel.init h)) p
    (vscale a (SPH.Kernel.poly6Grad (SPH.Kernel.init h) p (squaredNorm p))) →
  a = (-6 * c)%R.
Proof.
  intros [Hp Hh] (Hx & Hy & Hz).
  destruct (poly6_gradient c h p) as (Gx & Gy & Gz).
  pose proof (uniqueness_limite _ _ _ _ Hx Gx) as Ex.
  pose proof (uniqueness_limite _ _ _ _ Hy Gy) as Ey.
  pose proof (uniqueness_limite _ _ _ _ Hz Gz) as Ez.
  clear Hx Hy Hz Gx Gy Gz.
  unfold SPH.Kernel.poly6Grad in Ex, Ey, Ez.
  cbn [f_x f_y f_z vscale SPH.Kernel.h2 SPH.Kernel.init] in Ex, Ey, Ez.
  set (w := sqr (sqr h - squaredNorm p)) in *.
  assert (w ≠ 0%R) as Hw.
  { unfold w, sqr at 1. apply Rmult_integral_contrapositive_currified; lra. }
  destruct (squaredNorm_component p Hp) as [H|[H|H]].
  - apply (Rmult_eq_reg_r (w * f_x p)); [exact Ex|].
    by apply Rmult_integral_contrapositive_currified.
  - apply (Rmult_eq_reg_r (w * f_y p)); [exact Ey|].
    by apply Rmult_integral_contrapositive_currified.
  - apply (Rmult_eq_reg_r (w * f_z p)); [exact Ez|].
    by apply Rmult_integral_contrapositive_currified.
Qed.

(** X16: for a positive smoothing length and a displacement [p] strictly
    inside the support and off the centre, [poly6GradConstant * poly6Grad]
    is the gradient of the density kernel normalised by [315 / (64 π h⁹)],
    and it is not the gradient of the density kernel normalised by the
    stored [poly6Constant]. *)
Theorem Kernel_poly6Grad_normalisation (h : R) (p : Vector3f) :
  (0 < h)%R → (0 < squaredNorm p < sqr h)%R →
  let k := SPH.Kernel.init h in
  let G := vscale (SPH.Kernel.poly6GradConstant k)
                  (SPH.Kernel.poly6Grad k p (squaredNorm p)) in
  gradient_at (poly6Field (315 / (64 * PI * h ^ 9)) k) p G ∧
  ¬ gradient_at (poly6Field (SPH.Kernel.poly6Constant k) k) p G.
Proof.
  intros Hh Hp k G. subst k G. split.
  - rewrite (poly6GradConstant_normalised h Hh). apply poly6_gradient.
  - intros HG. apply poly6_gradient_unique in HG; [|exact Hp].
    rewrite (poly6GradConstant_normalised h Hh) in HG.
    cbn [SPH.Kernel.poly6Constant SPH.Kernel.init] in HG.
    pose proof (pow_h_neq h 9 Hh) as Hn.
    assert (/ (64 * PI * h ^ 9) ≠ 0)%R as Hi.
    { apply Rinv_neq_0_compat. intros E. apply Hn.
      replace (PI * h ^ 9)%R with (/ 64 * (64 * PI * h ^ 9))%R by field.
      rewrite E. ring. }
    unfold Rdiv in HG. apply Hi.
    apply (Rmult_eq_reg_l 50); [|lra]. lra.
Qed.

Lemma Kernel_poly6Grad_normalisation_witness :
  gradient_at (poly6Field (315 / (64 * PI * 2 ^ 9)) (SPH.Kernel.init 2))
    (mkVector3f 1 0 0)
    (vscale (SPH.Kernel.poly6GradConstant (SPH.Kernel.init 2))
            (SPH.Kernel.poly6Grad (SPH.Kernel.init 2) (mkVector3f 1 0 0)
                                  (squaredNorm (mkVector3f 1 0 0)))) ∧
  ¬ gradient_at
      (poly6Field (SPH.Kernel.poly6Constant (SPH.Kernel.init 2))
                  (SPH.Kernel.init 2))
      (mkVector3f 1 0 0)
      (vscale (SPH.Kernel.poly6GradConstant (SPH.Kernel.init 2))
              (SPH.Kernel.poly6Grad (SPH.Kernel.init 2) (mkVector3f 1 0 0)
                                    (squaredNorm (mkVector3f 1 0 0)))).
Proof.
  apply (Kernel_poly6Grad_normalisation 2 (mkVector3f 1 0 0)).
  - lra.
  - unfold squaredNorm, dot, sqr. simpl. lra.
Defined.

(** X15: for a positive smoothing length and a displacement [p] other than
    zero, [spikyGradConstant * spikyGrad] at [p] and its norm is the
    gradient of the pressure kernel [spikyConstant * spiky] of the norm. *)
Theorem Kernel_spikyGrad_is_gradient (h : R) (p : Vector3f) :
  (0 < h)%R → (0 < squaredNorm p)%R →
  let k := SPH.Kernel.init h in
  gradient_at (spikyField k) p
    (vscale (SPH.Kernel.spikyGradConstant k)
            (SPH.Kernel.spikyGrad k p (sqrt (squaredNorm p)))).
Proof.
  intros Hh Hp k. subst k. destruct p as [x y z].
  pose proof (pow_h_neq h 6 Hh) as Hn.
  unfold gradient_at, spikyField, SPH.Kernel.spiky, SPH.Kernel.spikyGrad.
  cbn [f_x f_y f_z vscale SPH.Kernel.h SPH.Kernel.init
       SPH.Kernel.spikyConstant SPH.Kernel.spikyGradConstant].
  set (r2 := squaredNorm (mkVector3f x y z)) in *.
  assert (sqrt r2 ≠ 0)%R as Hr by (apply Rgt_not_eq, sqrt_lt_R0, Hp).
  set (c := (15 / (PI * h ^ 6))%R).
  split; [|split].
  - replace (-45 / (PI * h ^ 6) * (1 / sqrt r2 * (sqr (h - sqrt r2) * x)))%R
      with (c * (3 * sqr (h - sqrt r2) * - (2 * x / (2 * sqrt r2))))%R
      by (unfold c; field; split_and!; [exact Hr | lra | apply PI_neq0]).
    exact (spiky_chain c h (λ t, squaredNorm (mkVector3f t y z)) x
                       (2 * x) Hp (squaredNorm_lim_x x y z)).
  - replace (-45 / (PI * h ^ 6) * (1 / sqrt r2 * (sqr (h - sqrt r2) * y)))%R
      with (c * (3 * sqr (h - sqrt r2) * - (2 * y / (2 * sqrt r2))))%R
      by (unfold c; field; split_and!; [exact Hr | lra | apply PI_neq0]).
    exact (spiky_chain c h (λ t, squaredNorm (mkVector3f x t z)) y
                       (2 * y) Hp (squaredNorm_lim_y x y z)).
  - replace (-45 / (PI * h ^ 6) * (1 / sqrt r2 * (sqr (h - sqrt r2) * z)))%R
      with (c * (3 * sqr (h - sqrt r2) * - (2 * z / (2 * sqrt r2))))%R
      by (unfold c; field; split_and!; [exact Hr | lra | apply PI_neq0]).
    exact (spiky_chain c h (λ t, squaredNorm (mkVector3f x y t)) z
                       (2 * z) Hp (squaredNorm_lim_z x y z)).
Qed.

Lemma Kernel_spikyGrad_is_gradient_witness :
  gradient_at (spikyField (SPH.Kernel.init 2)) (mkVector3f 1 0 0)
    (vscale (SPH.Kernel.spikyGradConstant (SPH.Kernel.init 2))
            (SPH.Kernel.spikyGrad (SPH.Kernel.init 2) (mkVector3f 1 0 0)
                                  (sqrt (squaredNorm (mkVector3f 1 0 0))))).
Proof.
  apply (Kernel_spikyGrad_is_gradient 2 (mkVector3f 1 0 0)).
  - lra.
  - unfold squaredNorm, dot. simpl. lra.
Defined.

(** The two polynomial pieces of the cohesion kernel are continuous. *)
Lemma cohesion_inner_continuous (h o : R) :
  continuity (λ r, 2 * cube (h - r) * cube r + o)%R.
Proof.
  intros x. apply derivable_continuous_pt. unfold cube. reg.
Qed.

Lemma cohesion_outer_continuous (h : R) :
  continuity (λ r, cube (h - r) * cube r)%R.
Proof.
  intros x. apply derivable_continuous_pt. unfold cube. reg.
Qed.

(** The offset makes the pieces meet at half the smoothing length. *)
Lemma cohesion_pieces_meet (h : R) :
  (2 * cube (h - 0.5 * h) * cube (0.5 * h) + - h ^ 6 / 64
   = cube (h - 0.5 * h) * cube (0.5 * h))%R.
Proof. replace 0.5%R with (/ 2)%R by lra. unfold cube. field. Qed.

(** X17: the cohesion kernel [surfaceTension] of [Kernel::init(h)] is a
    continuous function of the distance: its two branches agree at
    [halfh] thanks to [surfaceTensionOffset]. *)
Theorem Kernel_surfaceTension_continuous (h : R) :
  continuity (SPH.Kernel.surfaceTension (SPH.Kernel.init h)).
Proof.
  intros x eps Heps.
  destruct (cohesion_inner_continuous h (- h ^ 6 / 64) x eps Heps)
    as (a1 & Ha1 & H1).
  destruct (cohesion_outer_continuous h x eps Heps) as (a2 & Ha2 & H2).
  unfold SPH.Kernel.surfaceTension.
  cbn [SPH.Kernel.halfh SPH.Kernel.h SPH.Kernel.surfaceTensionOffset
       SPH.Kernel.init].
  simpl in H1, H2. unfold Rdist in H1, H2.
  destruct (Rtotal_order x (0.5 * h)) as [Hlt|[Heq|Hgt]].
  - exists (Rmin a1 (0.5 * h - x)). split.
    { apply Rmin_pos; lra. }
    intros y [Hy Hd]. simpl in Hd |- *. unfold Rdist in Hd |- *.
    assert (Rabs (y - x) < a1)%R as Hd1
      by (eapply Rlt_le_trans; [exact Hd | apply Rmin_l]).
    assert (Rabs (y - x) < 0.5 * h - x)%R as Hd2
      by (eapply Rlt_le_trans; [exact Hd | apply Rmin_r]).
    apply Rabs_def2 in Hd2.
    rewrite (Rltb_true y) by lra. rewrite (Rltb_true x) by lra.
    apply H1. by split.
  - exists (Rmin a1 a2). split.
    { apply Rmin_pos; lra. }
    intros y [Hy Hd]. simpl in Hd |- *. unfold Rdist in Hd |- *.
    assert (Rabs (y - x) < a1)%R as Hd1
      by (eapply Rlt_le_trans; [exact Hd | apply Rmin_l]).
    assert (Rabs (y - x) < a2)%R as Hd2
      by (eapply Rlt_le_trans; [exact Hd | apply Rmin_r]).
    rewrite (Rltb_false x) by lra.
    destruct (Rlt_dec y (0.5 * h)) as [Hy1|Hy1].
    + rewrite (Rltb_true y) by lra.
      replace (cube (h - x) * cube x)%R
        with (2 * cube (h - x) * cube x + - h ^ 6 / 64)%R
        by (rewrite Heq; apply cohesion_pieces_meet).
      apply H1. by split.
    + rewrite (Rltb_false y) by lra. apply H2. by split.
  - exists (Rmin a2 (x - 0.5 * h)). split.
    { apply Rmin_pos; lra. }
    intros y [Hy Hd]. simpl in Hd |- *. unfold Rdist in Hd |- *.
    assert (Rabs (y - x) < a2)%R as Hd1
      by (eapply Rlt_le_trans; [exact Hd | apply Rmin_l]).
    assert (Rabs (y - x) < x - 0.5 * h)%R as Hd2
      by (eapply Rlt_le_trans; [exact Hd | apply Rmin_r]).
    apply Rabs_def2 in Hd2.
    rewrite (Rltb_false y) by lra. rewrite (Rltb_false x) by lra.
    apply H2. by split.
Qed.

(** ** The Laplace kernels *)

Lemma sqr_lim (u : R → R) (x l : R) :
  derivable_pt_lim u x l →
  derivable_pt_lim (λ t, sqr (u t)) x (2 * u x * l)%R.
Proof.
  intros Hu. unfold sqr.
  replace (2 * u x * l)%R with (l * u x + u x * l)%R by ring.
  by apply (derivable_pt_lim_mult u u).
Qed.

(** One component of the scaled [poly6Grad] along its own axis, over a
    path [g] of squared distances. *)
Lemma poly6Grad_chain (c h2 : R) (g : R → R) (x l : R) :
  derivable_pt_lim g x l →
  derivable_pt_lim (λ t, c * (sqr (h2 - g t) * t))%R x
    (c * (2 * (h2 - g x) * - l * x + sqr (h2 - g x)))%R.
Proof.
  intros Hg.
  apply (derivable_pt_lim_scal (λ t, sqr (h2 - g t) * t)%R).
  replace (2 * (h2 - g x) * - l * x + sqr (h2 - g x))%R
    with (2 * (h2 - g x) * (0 - l) * x + sqr (h2 - g x) * 1)%R by ring.
  apply (derivable_pt_lim_mult (λ t, sqr (h2 - g t)) id);
    [|apply derivable_pt_lim_id].
  apply (sqr_lim (λ t, h2 - g t)%R).
  apply (derivable_pt_lim_minus (fct_cte h2) g);
    [apply derivable_pt_lim_const | done].
Qed.

(** X18: for a positive smoothing length, [poly6LaplaceConstant *
    poly6Laplace] is the divergence of the scaled gradient kernel
    [poly6GradConstant * poly6Grad], at every displacement. *)
Theorem Kernel_poly6Laplace_is_divergence (h : R) (p : Vector3f) :
  (0 < h)%R →
  let k := SPH.Kernel.init h in
  divergence_at (poly6GradField k) p
    (SPH.Kernel.poly6LaplaceConstant k
     * SPH.Kernel.poly6Laplace k (squaredNorm p)).
Proof.
  intros _ k. subst k. destruct p as [x y z].
  unfold divergence_at, poly6GradField, SPH.Kernel.poly6Grad,
    SPH.Kernel.poly6Laplace.
  cbn [f_x f_y f_z vscale SPH.Kernel.h2 SPH.Kernel.init
       SPH.Kernel.poly6GradConstant SPH.Kernel.poly6LaplaceConstant].
  set (c := (-945 / (32 * PI * h ^ 9))%R).
  set (r2 := squaredNorm (mkVector3f x y z)).
  exists (c * (2 * (sqr h - r2) * - (2 * x) * x + sqr (sqr h - r2)))%R,
         (c * (2 * (sqr h - r2) * - (2 * y) * y + sqr (sqr h - r2)))%R,
         (c * (2 * (sqr h - r2) * - (2 * z) * z + sqr (sqr h - r2)))%R.
  split_and!.
  - exact (poly6Grad_chain c (sqr h) (λ t, squaredNorm (mkVector3f t y z))
                           x (2 * x) (squaredNorm_lim_x x y z)).
  - exact (poly6Grad_chain c (sqr h) (λ t, squaredNorm (mkVector3f x t z))
                           y (2 * y) (squaredNorm_lim_y x y z)).
  - exact (poly6Grad_chain c (sqr h) (λ t, squaredNorm (mkVector3f x y t))
                           z (2 * z) (squaredNorm_lim_z x y z)).
  - unfold r2, squaredNorm, dot, sqr. simpl. ring.
Qed.

Lemma Kernel_poly6Laplace_is_divergence_witness :
  divergence_at (poly6GradField (SPH.Kernel.init 2)) (mkVector3f 1 0 0)
    (SPH.Kernel.poly6LaplaceConstant (SPH.Kernel.init 2)
     * SPH.Kernel.poly6Laplace (SPH.Kernel.init 2)
                               (squaredNorm (mkVector3f 1 0 0))).
Proof.
  apply (Kernel_poly6Laplace_is_divergence 2 (mkVector3f 1 0 0)). lra.
Defined.

(** One component of the scaled [spikyGrad] along its own axis, over a
    path [g] of squared distances. *)
Lemma spikyGrad_chain (c h : R) (g : R → R) (x l : R) :
  (0 < g x)%R → derivable_pt_lim g x l →
  derivable_pt_lim
    (λ t, c * (1 / sqrt (g t) * (sqr (h - sqrt (g t)) * t)))%R x
    (c * ((0 * sqrt (g x) - / (2 * sqrt (g x)) * l * 1) / Rsqr (sqrt (g x))
          * (sqr (h - sqrt (g x)) * x)
          + 1 / sqrt (g x)
            * (2 * (h - sqrt (g x)) * (0 - / (2 * sqrt (g x)) * l) * x
               + sqr (h - sqrt (g x)) * 1)))%R.
Proof.
  intros Hpos Hg.
  assert (derivable_pt_lim (λ t, sqrt (g t)) x (/ (2 * sqrt (g x)) * l)%R)
    as Hs.
  { apply (derivable_pt_lim_comp g sqrt); [done|].
    by apply derivable_pt_lim_sqrt. }
  apply (derivable_pt_lim_scal
           (λ t, 1 / sqrt (g t) * (sqr (h - sqrt (g t)) * t))%R).
  apply (derivable_pt_lim_mult
           (λ t, 1 / sqrt (g t))%R (λ t, sqr (h - sqrt (g t)) * t)%R).
  - apply (derivable_pt_lim_div (fct_cte 1) (λ t, sqrt (g t)));
      [apply derivable_pt_lim_const | exact Hs |].
    apply Rgt_not_eq, sqrt_lt_R0, Hpos.
  - apply (derivable_pt_lim_mult (λ t, sqr (h - sqrt (g t))) id);
      [|apply derivable_pt_lim_id].
    apply (sqr_lim (λ t, h - sqrt (g t))%R).
    apply (derivable_pt_lim_minus (fct_cte h) (λ t, sqrt (g t)));
      [apply derivable_pt_lim_const | exact Hs].
Qed.

(** X19: for a positive smoothing length and a displacement other than
    zero, [spikyLaplaceConstant * spikyLaplace] of the norm is the
    divergence of the scaled gradient kernel
    [spikyGradConstant * spikyGrad]. *)
Theorem Kernel_spikyLaplace_is_divergence (h : R) (p : Vector3f) :
  (0 < h)%R → (0 < squaredNorm p)%R →
  let k := SPH.Kernel.init h in
  divergence_at (spikyGradField k) p
    (SPH.Kernel.spikyLaplaceConstant k
     * SPH.Kernel.spikyLaplace k (sqrt (squaredNorm p))).
Proof.
  intros Hh Hp k. subst k. destruct p as [x y z].
  unfold divergence_at, spikyGradField, SPH.Kernel.spikyGrad,
    SPH.Kernel.spikyLaplace.
  cbn [f_x f_y f_z vscale SPH.Kernel.h SPH.Kernel.init
       SPH.Kernel.spikyGradConstant SPH.Kernel.spikyLaplaceConstant].
  set (c := (-45 / (PI * h ^ 6))%R).
  pose proof (spikyGrad_chain c h (λ t, squaredNorm (mkVector3f t y z))
                              x (2 * x) Hp (squaredNorm_lim_x x y z)) as Hx.
  pose proof (spikyGrad_chain c h (λ t, squaredNorm (mkVector3f x t z))
                              y (2 * y) Hp (squaredNorm_lim_y x y z)) as Hy.
  pose proof (spikyGrad_chain c h (λ t, squaredNorm (mkVector3f x y t))
                              z (2 * z) Hp (squaredNorm_lim_z x y z)) as Hz.
  cbv beta in Hx, Hy, Hz.
  assert (x * x + y * y + z * z
          = sqrt (squaredNorm (mkVector3f x y z))
            * sqrt (squaredNorm (mkVector3f x y z)))%R as Hss.
  { rewrite sqrt_sqrt by lra. unfold squaredNorm, dot. simpl. ring. }
  assert (sqrt (squaredNorm (mkVector3f x y z)) ≠ 0)%R as Hr
    by (apply Rgt_not_eq, sqrt_lt_R0, Hp).
  assert (-90 / (PI * h ^ 6) = 2 * c)%R as ->.
  { unfold c. field. split; [lra | apply PI_neq0]. }
  revert Hx Hy Hz Hss Hr.
  generalize (sqrt (squaredNorm (mkVector3f x y z))). intros s Hx Hy Hz Hss Hr.
  eexists _, _, _. split_and!; [exact Hx | exact Hy | exact Hz |].
  unfold Rsqr, sqr.
  transitivity
    (c * ((x * x + y * y + z * z)
          * (- ((h - s) * (h - s)) / (s * s * s) - 2 * (h - s) / (s * s))
          + 3 * ((h - s) * (h - s)) / s))%R.
  - rewrite Hss. field. exact Hr.
  - field. exact Hr.
Qed.

Lemma Kernel_spikyLaplace_is_divergence_witness :
  divergence_at (spikyGradField (SPH.Kernel.init 2)) (mkVector3f 1 0 0)
    (SPH.Kernel.spikyLaplaceConstant (SPH.Kernel.init 2)
     * SPH.Kernel.spikyLaplace (SPH.Kernel.init 2)
                               (sqrt (squaredNorm (mkVector3f 1 0 0)))).
Proof.
  apply (Kernel_spikyLaplace_is_divergence 2 (mkVector3f 1 0 0)).
  - lra.
  - unfold squaredNorm, dot. simpl. lra.
Defined.

(** ** Rounding at the faces of the bounds *)

Lemma snug_values :
  snug_cell = SpecFloat.S754_finite false 14680064 (-23) ∧
  snug_bounds
  = mkBox3b (splatb (SpecFloat.S754_finite false 11744051 (-24)))
            (splatb (SpecFloat.S754_finite false 8808038 (-21))).
Proof. split; vm_compute; reflexivity. Qed.

Lemma small_values :
  small_spacing = SpecFloat.S754_finite false 10737418 (-29) ∧
  small_box
  = mkBox3b (splatb (SpecFloat.S754_finite false 13421773 (-27)))
            (splatb (SpecFloat.S754_finite false 14763950 (-27))).
Proof. split; vm_compute; reflexivity. Qed.

(** Evaluates the integers under [IZR]. *)
Ltac eval_IZR :=
  repeat match goal with
         | |- context [IZR ?z] =>
             let v := eval vm_compute in z in progress change z with v
         end.

(** X1.  [Grid::init] does not always cover the bounds.  In binary32 there
    are bounds, a positive cell size and a point of the bounds, on their
    maximum corner, whose cell [index] computes lies outside the grid
    [init] makes: for the bounds from 0.7 to 4.2 and the cell size 1.75,
    [init] makes 2 cells per axis (the quotient rounds to 1.9999999), and
    the product of the extent with the rounded reciprocal of the cell size
    is 2, the number of a third cell. *)
Theorem Grid_init_misses_max_face :
  ∃ (bounds : Box3b) (cellSize : SpecFloat.spec_float) (p : Vector3b)
    (g : Grid32.t) (c : Vector3i),
    (0 < B32.toR cellSize)%R ∧
    inside (boxR bounds) (vecR p) ∧
    Grid32.init Grid32.empty bounds cellSize = Some g ∧
    Grid32.index g p = Some c ∧
    (i_x (Grid32._size g) ≤ i_x c)%Z ∧
    (i_y (Grid32._size g) ≤ i_y c)%Z ∧
    (i_z (Grid32._size g) ≤ i_z c)%Z.
Proof.
  destruct snug_values as [Hc Hb].
  exists snug_bounds, snug_cell, (bbox_max snug_bounds),
    (Grid32.mk snug_bounds snug_cell
       (SpecFloat.S754_finite false 9586981 (-24))
       (mkVector3i 2 2 2) (replicate 9 0%Z)),
    (mkVector3i 2 2 2).
  split_and!.
  - rewrite Hc. unfold B32.toR. cbn. eval_IZR. lra.
  - rewrite Hb. unfold inside, boxR, vecR, splatb, B32.toR. cbn. eval_IZR. lra.
  - vm_compute. reflexivity.
  - vm_compute. reflexivity.
  - simpl. lia.
  - simpl. lia.
  - simpl. lia.
Qed.

(** X20.  [voxelizeBox] does not always keep to the box.  In binary32
    there are a positive rest spacing and a box, its corners in order, for
    which the one particle [voxelizeBox] creates lies outside the box: for
    the box from 0.1 to 0.11 and the spacing 0.02 the quotient 0.1 / 0.02
    rounds to 5, and 5 * 0.02 rounds to 0.09999999, below the face at
    0.1. *)
Theorem SPH_voxelizeBox_leaves_box :
  ∃ (restSpacing : SpecFloat.spec_float) (box : Box3b) (p : Vector3b),
    (0 < B32.toR restSpacing)%R ∧
    inside (boxR box) (vecR (bbox_min box)) ∧
    SPH32.voxelizeBox restSpacing box [] = Some [p] ∧
    (B32.toR (b_x p) < B32.toR (b_x (bbox_min box)))%R ∧
    ¬ inside (boxR box) (vecR p).
Proof.
  destruct small_values as [Hs Hb].
  exists small_spacing, small_box,
    (splatb (SpecFloat.S754_finite false 13421772 (-27))).
  assert (B32.toR (SpecFloat.S754_finite false 13421772 (-27))
          < B32.toR (SpecFloat.S754_finite false 13421773 (-27)))%R as Hlt
    by (unfold B32.toR; cbn; eval_IZR; lra).
  split_and!.
  - rewrite Hs. unfold B32.toR. cbn. eval_IZR. lra.
  - rewrite Hb. unfold inside, boxR, vecR, splatb, B32.toR. cbn. eval_IZR. lra.
  - vm_compute. reflexivity.
  - rewrite Hb. exact Hlt.
  - rewrite Hb. unfold inside, boxR, vecR, splatb.
    cbn [box_min box_max bbox_min bbox_max f_x f_y f_z b_x b_y b_z].
    intros [[H _] _]. lra.
Qed.
